(** * Odoo Cloudflare e-mail worker: a shallow embedding and its properties

    The worker handles one inbound e-mail per invocation: a fixed chain of
    processors (spam check, parsing, domain collapse, subaddressing,
    re-serialisation, delivery over XML-RPC) runs over one shared context.

    The first part of this file embeds the TypeScript source function by
    function; the second part states and proves properties of the embedding.

    Conventions of the embedding.
    - A JavaScript string is a list of Unicode code points ([N]).  The worker
      only ever cuts strings at Basic Latin delimiters, so a surrogate pair
      is never split and the code-point view agrees with the UTF-16 view.
    - A [Uint8Array] is a list of bytes.
    - A function that may throw returns [option] or a result type with an
      explicit fault constructor.
    - Console output of the individual processors is not part of the model;
      the log lines written by the pipeline runner are.
    - The Unicode case tables behind [toLowerCase] are not part of the
      repository.  From the definition of [toLowerCase] on, the development
      is a section over a table for the code points outside Basic Latin:
      every statement holds for every table.  The closed examples at the
      end of the file are run with Basic Latin text. *)

From Stdlib Require Import NArith ZArith Lia Strings.String Strings.Ascii Strings.Byte.
From Stdlib Require Import DecimalString.
From stdpp Require Import base option list gmap.

Local Open Scope N_scope.

(** ** JavaScript strings *)

Abbreviation char := N (only parsing).
Abbreviation jsstring := (list N) (only parsing).

(** String literals: the code points of a Basic Latin literal. *)
Definition js (s : string) : jsstring :=
  map N_of_ascii (list_ascii_of_string s).

Definition LF : char := 10.
Definition CR : char := 13.
Definition TAB : char := 9.
Definition SP : char := 32.
Definition DQUOTE : char := 34.
Definition SQUOTE : char := 39.

(** ECMAScript [WhiteSpace] and [LineTerminator] code points: what
    [String.prototype.trim] strips and what [\s] matches. *)
Definition isWhiteSpace (c : char) : bool :=
  (c =? 9) || (c =? 10) || (c =? 11) || (c =? 12) || (c =? 13) || (c =? 32)
  || (c =? 160) || (c =? 5760) || ((8192 <=? c) && (c <=? 8202))
  || (c =? 8232) || (c =? 8233) || (c =? 8239) || (c =? 8287)
  || (c =? 12288) || (c =? 65279).

(** ECMAScript [LineTerminator]: what [.] refuses to match. *)
Definition isLineTerminator (c : char) : bool :=
  (c =? 10) || (c =? 13) || (c =? 8232) || (c =? 8233).

Definition isUpper (c : char) : bool := (65 <=? c) && (c <=? 90).
Definition isLower (c : char) : bool := (97 <=? c) && (c <=? 122).
Definition isLetter (c : char) : bool := isUpper c || isLower c.
Definition isDigit (c : char) : bool := (48 <=? c) && (c <=? 57).

Fixpoint trimStart (s : jsstring) : jsstring :=
  match s with
  | c :: t => if isWhiteSpace c then trimStart t else s
  | [] => []
  end.

Definition trimEnd (s : jsstring) : jsstring := rev (trimStart (rev s)).

(** [s.trim()] *)
Definition trim (s : jsstring) : jsstring := trimEnd (trimStart s).

(** ** Lower-casing

    [s.toLowerCase()] converts a string code point by code point (Unicode
    Default Case Conversion).  A Basic Latin code point becomes the code
    point [lowerChar] gives, whatever surrounds it.  What any other code
    point becomes is written in the Unicode case tables, which are not part
    of the repository; they are taken as a parameter: [caseTable before c
    after] is the text that replaces the code point [c] standing between
    [before] and [after] (the tables look at the context for a final
    sigma, and some code points become more than one). *)
Definition isLatin (c : char) : bool := c <? 128.

(** A string of Basic Latin code points. *)
Definition basicLatin (s : jsstring) : bool := forallb isLatin s.

Definition lowerChar (c : char) : char := if isUpper c then c + 32 else c.

(** Lower-casing as it is on Basic Latin text. *)
Definition foldLatin (s : jsstring) : jsstring := map lowerChar s.

(** A table that leaves every code point as it is: the examples of this
    file are Basic Latin text, for which no table is consulted. *)
Definition identityTable : jsstring → char → jsstring → jsstring :=
  λ _ c _, [c].

Section CaseTable.

Variable caseTable : jsstring → char → jsstring → jsstring.

(** The lower-cased form of the text [s] where it stands, between [before]
    and [after]. *)
Fixpoint lowerWithin (before s after : jsstring) : jsstring :=
  match s with
  | [] => []
  | c :: t =>
      (if isLatin c then [lowerChar c] else caseTable before c (t ++ after))
        ++ lowerWithin (before ++ [c]) t after
  end.

Definition toLowerCase (s : jsstring) : jsstring := lowerWithin [] s [].

(** [s.startsWith(p)] *)
Fixpoint startsWith (p s : jsstring) : bool :=
  match p, s with
  | [], _ => true
  | a :: p', b :: s' => (a =? b) && startsWith p' s'
  | _ :: _, [] => false
  end.

(** [s.endsWith(p)] *)
Definition endsWith (p s : jsstring) : bool := startsWith (rev p) (rev s).

(** [s.includes(p)] *)
Fixpoint includes (p s : jsstring) : bool :=
  startsWith p s ||
  match s with
  | [] => false
  | _ :: t => includes p t
  end.

(** [s.indexOf(c)] for a one-character needle; [None] stands for [-1]. *)
Fixpoint indexOf (c : char) (s : jsstring) : option nat :=
  match s with
  | [] => None
  | x :: t => if x =? c then Some 0%nat else S <$> indexOf c t
  end.

(** [parts.join(sep)] *)
Fixpoint join (sep : jsstring) (parts : list jsstring) : jsstring :=
  match parts with
  | [] => []
  | [p] => p
  | p :: rest => p ++ sep ++ join sep rest
  end.

(** [s.split(c)] for a one-character separator. *)
Fixpoint splitAcc (c : char) (cur : jsstring) (s : jsstring) : list jsstring :=
  match s with
  | [] => [rev cur]
  | x :: t => if x =? c then rev cur :: splitAcc c [] t else splitAcc c (x :: cur) t
  end.

Definition split (c : char) (s : jsstring) : list jsstring := splitAcc c [] s.

(** ** Byte buffers *)

Abbreviation bytes := (list byte) (only parsing).

Definition byteOfN (n : N) : byte := default x00 (Byte.of_N n).

(** ** [streamToArrayBuffer]

    A stream is the finite sequence of chunks its reader hands out before it
    reports [done].  [result.set(value, bytesRead)] throws a [RangeError]
    when the chunk does not fit at that offset; the fault is the [None]
    below.  The function is written here for a size with which the buffer
    can be allocated and for a reader that ends with [done]; what its
    caller sees in the other cases is written out in [readRaw]. *)

Definition typedArraySet (result : bytes) (value : bytes) (offset : nat)
  : option bytes :=
  if decide (offset + length value ≤ length result)%nat
  then Some (list_inserts offset value result)
  else None.

Fixpoint readLoop (chunks : list bytes) (result : bytes) (bytesRead : nat)
  : option bytes :=
  match chunks with
  | [] => Some result
  | value :: rest =>
      result' ← typedArraySet result value bytesRead;
      readLoop rest result' (bytesRead + length value)%nat
  end.

Definition streamToArrayBuffer (stream : list bytes) (streamSize : nat)
  : option bytes :=
  readLoop stream (replicate streamSize x00) 0%nat.

(** ** [TextDecoder] and [TextEncoder] (UTF-8)

    The decoder follows the WHATWG Encoding Standard: a malformed sequence
    yields one error per maximal invalid prefix and the offending byte is
    looked at again.  [utf8Items] lists the decoded items, [None] standing
    for an error.  Inside the accepted ranges the masks and shifts of the
    standard are the subtractions and multiplications written here. *)

Definition REPLACEMENT : char := 0xFFFD.
Definition BOM : char := 0xFEFF.

Definition inRange (lo hi n : N) : bool := (lo <=? n) && (n <=? hi).

Fixpoint utf8Items (q : bytes) : list (option char) :=
  match q with
  | [] => []
  | b0 :: q0 =>
    let n0 := Byte.to_N b0 in
    if n0 <=? 0x7F then Some n0 :: utf8Items q0
    else if inRange 0xC2 0xDF n0 then
      match q0 with
      | [] => [None]
      | b1 :: q1 =>
        let n1 := Byte.to_N b1 in
        if inRange 0x80 0xBF n1
        then Some ((n0 - 0xC0) * 64 + (n1 - 0x80)) :: utf8Items q1
        else None :: utf8Items q0
      end
    else if inRange 0xE0 0xEF n0 then
      let lower := if n0 =? 0xE0 then 0xA0 else 0x80 in
      let upper := if n0 =? 0xED then 0x9F else 0xBF in
      match q0 with
      | [] => [None]
      | b1 :: q1 =>
        let n1 := Byte.to_N b1 in
        if inRange lower upper n1 then
          match q1 with
          | [] => [None]
          | b2 :: q2 =>
            let n2 := Byte.to_N b2 in
            if inRange 0x80 0xBF n2
            then Some (((n0 - 0xE0) * 64 + (n1 - 0x80)) * 64 + (n2 - 0x80))
                   :: utf8Items q2
            else None :: utf8Items q1
          end
        else None :: utf8Items q0
      end
    else if inRange 0xF0 0xF4 n0 then
      let lower := if n0 =? 0xF0 then 0x90 else 0x80 in
      let upper := if n0 =? 0xF4 then 0x8F else 0xBF in
      match q0 with
      | [] => [None]
      | b1 :: q1 =>
        let n1 := Byte.to_N b1 in
        if inRange lower upper n1 then
          match q1 with
          | [] => [None]
          | b2 :: q2 =>
            let n2 := Byte.to_N b2 in
            if inRange 0x80 0xBF n2 then
              match q2 with
              | [] => [None]
              | b3 :: q3 =>
                let n3 := Byte.to_N b3 in
                if inRange 0x80 0xBF n3
                then Some ((((n0 - 0xF0) * 64 + (n1 - 0x80)) * 64
                            + (n2 - 0x80)) * 64 + (n3 - 0x80))
                       :: utf8Items q3
                else None :: utf8Items q2
              end
            else None :: utf8Items q1
          end
        else None :: utf8Items q0
      end
    else None :: utf8Items q0
  end.

(** With [ignoreBOM: false] a leading U+FEFF is dropped from the output. *)
Definition stripBOM (s : jsstring) : jsstring :=
  match s with
  | c :: t => if c =? BOM then t else s
  | [] => []
  end.

Definition isError (i : option char) : bool :=
  match i with None => true | Some _ => false end.

(** [new TextDecoder('utf-8', { fatal, ignoreBOM: false }).decode(input)]:
    [None] is the [TypeError] of fatal mode; without [fatal] every error
    becomes U+FFFD. *)
Definition TextDecoder_decode (fatal : bool) (input : bytes) : option jsstring :=
  let items := utf8Items input in
  if fatal && existsb isError items then None
  else Some (stripBOM (map (default REPLACEMENT) items)).

(** A Unicode scalar value: what a well-formed string holds. *)
Definition isScalar (c : char) : bool :=
  (c <? 0xD800) || ((0xDFFF <? c) && (c <=? 0x10FFFF)).

(** The bytes of one code point; [c / 64] is [c >> 6] and [c mod 64] is
    [c & 0x3F]. *)
Definition encodeChar (c : char) : bytes :=
  if c <=? 0x7F then [byteOfN c]
  else if c <=? 0x7FF then [byteOfN (0xC0 + c / 64); byteOfN (0x80 + c mod 64)]
  else if negb (isScalar c) then [xef; xbf; xbd]
  else if c <=? 0xFFFF then
    [byteOfN (0xE0 + c / 64 / 64); byteOfN (0x80 + (c / 64) mod 64);
     byteOfN (0x80 + c mod 64)]
  else
    [byteOfN (0xF0 + c / 64 / 64 / 64); byteOfN (0x80 + (c / 64 / 64) mod 64);
     byteOfN (0x80 + (c / 64) mod 64); byteOfN (0x80 + c mod 64)].

(** [new TextEncoder().encode(s)]; an unpaired surrogate is encoded as
    U+FFFD. *)
Definition TextEncoder_encode (s : jsstring) : bytes := flat_map encodeChar s.

(** ** Regular expressions

    The regular expressions of the worker are written as terms of [regex]
    and run by a backtracking matcher in continuation-passing style, the
    way ECMAScript specifies matching: alternatives are tried in priority
    order, the first complete match wins. *)

Inductive regex : Type :=
| REmpty                      (* the empty pattern *)
| RChar (c : char)            (* a literal character *)
| RClass (p : char → bool)    (* a class: [...], ., \s, \d *)
| RSeq (r1 r2 : regex)        (* r1 r2 *)
| RStar (r : regex)           (* r*   greedy *)
| RStarLazy (r : regex)       (* r*?  lazy *)
| RGroup (i : nat) (r : regex) (* the i-th capturing group *)
| RBol                        (* ^  without the m flag *)
| REol.                       (* $  without the m flag *)

(** r+ *)
Definition RPlus (r : regex) : regex := RSeq r (RStar r).

(** A literal string. *)
Fixpoint RLit (s : jsstring) : regex :=
  match s with
  | [] => REmpty
  | [c] => RChar c
  | c :: t => RSeq (RChar c) (RLit t)
  end.

Record mstate : Type := MState {
  pos : nat;                    (* characters consumed since the start *)
  rest : jsstring;              (* the input still ahead *)
  caps : gmap nat jsstring      (* the captures made so far *)
}.

(** Canonicalisation under the [i] flag (no [u] flag): a code point outside
    Basic Latin never folds onto a Basic Latin letter. *)
Definition canon (ignoreCase : bool) (c : char) : char :=
  if ignoreCase && isLower c then c - 32 else c.

Definition step1 (ok : char → bool) (k : mstate → option mstate) (s : mstate)
  : option mstate :=
  match rest s with
  | x :: t => if ok x then k (MState (S (pos s)) t (caps s)) else None
  | [] => None
  end.

Fixpoint rmatch (ic : bool) (r : regex) (k : mstate → option mstate)
  (s : mstate) : option mstate :=
  match r with
  | REmpty => k s
  | RChar c => step1 (λ x, canon ic x =? canon ic c) k s
  | RClass p => step1 p k s
  | RSeq a b => rmatch ic a (rmatch ic b k) s
  | RStar a =>
      (fix star (fuel : nat) (s : mstate) : option mstate :=
         match fuel with
         | O => k s
         | S fuel' =>
             match rmatch ic a
                     (λ s', if decide (length (rest s') < length (rest s))%nat
                            then star fuel' s' else None) s with
             | Some m => Some m
             | None => k s
             end
         end) (length (rest s)) s
  | RStarLazy a =>
      (fix star (fuel : nat) (s : mstate) : option mstate :=
         match fuel with
         | O => k s
         | S fuel' =>
             match k s with
             | Some m => Some m
             | None =>
                 rmatch ic a
                   (λ s', if decide (length (rest s') < length (rest s))%nat
                          then star fuel' s' else None) s
             end
         end) (length (rest s)) s
  | RGroup i a =>
      rmatch ic a
        (λ s', k (MState (pos s') (rest s')
                    (<[i := take (pos s' - pos s) (rest s)]> (caps s')))) s
  | RBol => if decide (pos s = 0%nat) then k s else None
  | REol => match rest s with [] => k s | _ :: _ => None end
  end.

(** The search of [RegExp.prototype.exec] (no [g], no [y] flag): the
    leftmost start position at which the pattern matches. *)
Fixpoint searchFrom (ic : bool) (r : regex) (p : nat) (s : jsstring)
  : option mstate :=
  match rmatch ic r Some (MState p s ∅) with
  | Some m => Some m
  | None =>
      match s with
      | [] => None
      | _ :: t => searchFrom ic r (S p) t
      end
  end.

(** [s.match(r)]; the flag is [true] for [/r/i]. *)
Definition exec (ic : bool) (r : regex) (s : jsstring) : option mstate :=
  searchFrom ic r 0 s.

(** [m[i]] of a match result (every group of the worker's patterns takes
    part in every match). *)
Definition group (i : nat) (m : mstate) : jsstring := default [] (caps m !! i).

(** [r.test(s)] *)
Definition test (ic : bool) (r : regex) (s : jsstring) : bool :=
  match exec ic r s with Some _ => true | None => false end.

Definition notChar (c : char) : char → bool := λ x, negb (x =? c).
Definition anyChar : char → bool := λ _, true.
(** [.] *)
Definition dot : char → bool := λ x, negb (isLineTerminator x).

(** A character literal. *)
Definition ch (a : ascii) : char := N_of_ascii a.

#[global] Arguments js : simpl never.
#[global] Arguments ch : simpl never.

(** JavaScript truthiness of a string: non-empty. *)
Definition truthy (s : jsstring) : bool :=
  match s with [] => false | _ :: _ => true end.

(** [o || d] for an optional string. *)
Definition orDefault (o : option jsstring) (d : jsstring) : jsstring :=
  match o with
  | Some s => if truthy s then s else d
  | None => d
  end.

(** A completed call: a normal return or a thrown [Error(message)]. *)
Inductive Completion (A : Type) : Type :=
| Normal (a : A)
| Throw (message : jsstring).
#[global] Arguments Normal {A} a.
#[global] Arguments Throw {A} message.

(** ** Data model *)

Record ProcessingResult : Type := {
  canContinue : bool;
  rejectReason : option jsstring
}.

Record Header : Type := { raw : jsstring; name : jsstring; value : jsstring }.

Record ParsedEmail : Type := { headers : list Header; body : bytes }.

(** The raw stream of a message as its reader presents it: the chunks it
    hands out, and how the reading ends after them, with [done] (or a
    missing value) or with a failure ([getReader()] or a [read()] throws).
    A stream that never ends is not modelled. *)
Record ReadableStream : Type := {
  chunks : list bytes;
  readFails : bool
}.

(** The inbound message as the worker uses it: header lookup, the raw
    stream and its declared size.  [rawSize] is the length that
    [new Uint8Array(rawSize)] allocates, [None] when the number is one for
    which the allocation throws a [RangeError]. *)
Record ForwardableEmailMessage : Type := {
  headers_get : jsstring → option jsstring;
  message_raw : ReadableStream;
  rawSize : option nat
}.

Record Env : Type := {
  ODOO_DATABASE : option jsstring;
  ODOO_USERID : option jsstring;
  ODOO_PASSWORD : option jsstring;
  ODOO_HOST : option jsstring;
  ODOO_PORT : option jsstring;
  ODOO_PROTOCOL : option jsstring;
  DOMAIN_COLLAPSE_MAPPING : option jsstring
}.

Record EmailPipelineContext : Type := {
  message : ForwardableEmailMessage;
  env : Env;
  rawEmail : option bytes;
  parsedEmail : option ParsedEmail;
  finalRawEmail : option bytes
}.

Definition continue : ProcessingResult :=
  {| canContinue := true; rejectReason := None |}.

Definition reject (reason : jsstring) : ProcessingResult :=
  {| canContinue := false; rejectReason := Some reason |}.

(** ** [base64ArrayBuffer] *)

Definition encodings : jsstring :=
  js "ABCDEFGHIJKLMNOPQRSTUVWXYZabcdefghijklmnopqrstuvwxyz0123456789+/".

Definition enc (i : N) : jsstring :=
  match encodings !! N.to_nat i with Some c => [c] | None => [] end.

Fixpoint base64ArrayBuffer (arrayBuffer : bytes) : jsstring :=
  match arrayBuffer with
  | b0 :: b1 :: b2 :: more =>
      let chunk :=
        N.lor (N.lor (N.shiftl (Byte.to_N b0) 16) (N.shiftl (Byte.to_N b1) 8))
              (Byte.to_N b2) in
      let a := N.shiftr (N.land chunk 0xff0000) 16 in
      let b := N.shiftr (N.land chunk 0xff00) 8 in
      let c := N.land chunk 0xff in
      enc (N.shiftr a 2)
        ++ enc (N.lor (N.shiftl (N.land a 3) 4) (N.shiftr b 4))
        ++ enc (N.lor (N.shiftl (N.land b 15) 2) (N.shiftr c 6))
        ++ enc (N.land c 63)
        ++ base64ArrayBuffer more
  | [b0] =>
      let a := Byte.to_N b0 in
      enc (N.shiftr a 2) ++ enc (N.shiftl (N.land a 3) 4) ++ js "=="
  | [b0; b1] =>
      let a := Byte.to_N b0 in
      let b := Byte.to_N b1 in
      enc (N.shiftr a 2)
        ++ enc (N.lor (N.shiftl (N.land a 3) 4) (N.shiftr b 4))
        ++ enc (N.shiftl (N.land b 15) 2) ++ js "="
  | [] => []
  end.

(** ** [SpamCheckProcessor] *)

Definition blocklist : list jsstring :=
  [js "spam@example.com"; js "blocked@example.com"].

Definition spamKeywords : list jsstring :=
  [js "viagra"; js "prince"; js "winner"; js "quick discussion";
   js "intro call"; js "exploratory call"; js "domaine expirera";
   js "market trends"; js "collaboration"; js "website builder";
   js "running ads"; js "website error"; js "content error";
   js "full proposal"; js "cost your business"; js "send you a quote";
   js "get a sample"; js "market research"; js "confirm your delivery";
   js "re: proposal"; js "urgent notice"; js "tax discrepancy"].

(** The pattern [< ( [^>]+ ) >] (written here with its tokens spaced out). *)
Definition emailRegex : regex :=
  RSeq (RChar (ch "<"))
    (RSeq (RGroup 1 (RPlus (RClass (notChar (ch ">"))))) (RChar (ch ">"))).

(** The pattern [^ ( .* ) < [^>]+ >]. *)
Definition nameRegex : regex :=
  RSeq RBol
    (RSeq (RGroup 1 (RStar (RClass dot)))
       (RSeq (RChar (ch "<"))
          (RSeq (RPlus (RClass (notChar (ch ">")))) (RChar (ch ">"))))).

(** The pattern [^ [A-Za-z0-9]+ $]. *)
Definition alnumRegex : regex :=
  RSeq RBol (RSeq (RPlus (RClass (λ c, isLetter c || isDigit c))) REol).

(** The Gmail sender-name analysis.  The percentages are compared as exact
    fractions: [40 <= 100 * count / total <= 60].  The source computes them
    in double precision, which gives the same outcome for every name a
    string can hold (the two boundaries 2/5 and 3/5 round to 40 and 60). *)
Definition balanced (count total : nat) : bool :=
  bool_decide (40 * total ≤ 100 * count)%nat
  && bool_decide (100 * count ≤ 60 * total)%nat.

Definition gmailCheck (fromHeader : jsstring) : option ProcessingResult :=
  let nameMatch := exec false nameRegex fromHeader in
  let senderName :=
    match nameMatch with Some m => trim (group 1 m) | None => [] end in
  if negb (truthy senderName) then Some (reject (js "Sender name is missing."))
  else if test false alnumRegex senderName then
    let letters := filter (λ c, isLetter c = true) senderName in
    let totalLetters := length letters in
    if bool_decide (8 ≤ totalLetters)%nat then
      let uppercaseLetters := filter (λ c, isUpper c = true) senderName in
      let lowercaseLetters := filter (λ c, isLower c = true) senderName in
      let uppercaseCount := length uppercaseLetters in
      let lowercaseCount := length lowercaseLetters in
      if balanced uppercaseCount totalLetters
         && balanced lowercaseCount totalLetters
      then Some (reject (js "Sender name resembles spam pattern."))
      else None
    else None
  else None.

Definition SpamCheckProcessor_process (context : EmailPipelineContext)
  : ProcessingResult :=
  let fromHeader := orDefault (headers_get (message context) (js "from")) [] in
  let emailMatch := exec false emailRegex fromHeader in
  let senderEmail :=
    match emailMatch with Some m => group 1 m | None => fromHeader end in
  let senderEmailLower := toLowerCase senderEmail in
  if bool_decide (senderEmailLower ∈ blocklist)
  then reject (js "Sender is blocked.")
  else
    match (if endsWith (js "@gmail.com") senderEmailLower
           then gmailCheck fromHeader else None) with
    | Some rejection => rejection
    | None =>
        let subject :=
          orDefault (headers_get (message context) (js "subject")) [] in
        let lowercaseSubject := toLowerCase subject in
        if existsb (λ keyword, includes keyword lowercaseSubject) spamKeywords
        then reject (js "Message contains spam keywords.")
        else continue
    end.

(** ** [parseEmail] *)

(** [text.replace(/\r?\n/g, '\n')]: a CR directly before an LF is dropped. *)
Fixpoint replaceCRLF (text : jsstring) : jsstring :=
  match text with
  | [] => []
  | c :: t =>
      if (c =? CR) && match t with d :: _ => d =? LF | [] => false end
      then replaceCRLF t
      else c :: replaceCRLF t
  end.

(** The pattern [^ [ \t]]: the line starts with a space or a tab. *)
Definition foldRegex : regex :=
  RSeq RBol (RClass (λ c, (c =? SP) || (c =? TAB))).

(** The local variables of the parsing loop. *)
Record ParseState : Type := {
  st_headers : list Header;
  st_bodyLines : list jsstring;
  isHeaderSection : bool;
  currentHeaderName : jsstring;
  currentHeaderValue : jsstring
}.

Definition mkHeader (n v : jsstring) : Header :=
  {| raw := n ++ js ": " ++ v; name := n; value := v |}.

(** [if (currentHeaderName) headers.push({...})] *)
Definition pushCurrent (st : ParseState) : list Header :=
  if truthy (currentHeaderName st)
  then st_headers st ++ [mkHeader (currentHeaderName st) (currentHeaderValue st)]
  else st_headers st.

(** One iteration of [for (const line of allLines)]. *)
Definition parseLine (st : ParseState) (line : jsstring) : ParseState :=
  if isHeaderSection st then
    if negb (truthy (trim line)) then
      {| st_headers := pushCurrent st;
         st_bodyLines := st_bodyLines st;
         isHeaderSection := false;
         currentHeaderName := currentHeaderName st;
         currentHeaderValue := currentHeaderValue st |}
    else if test false foldRegex line then
      {| st_headers := st_headers st;
         st_bodyLines := st_bodyLines st;
         isHeaderSection := true;
         currentHeaderName := currentHeaderName st;
         currentHeaderValue := currentHeaderValue st ++ [SP] ++ trim line |}
    else
      match indexOf (ch ":") line with
      | Some idx =>
          {| st_headers := pushCurrent st;
             st_bodyLines := st_bodyLines st;
             isHeaderSection := true;
             currentHeaderName := trim (take idx line);
             currentHeaderValue := trim (drop (idx + 1) line) |}
      | None =>
          {| st_headers := pushCurrent st;
             st_bodyLines := st_bodyLines st;
             isHeaderSection := true;
             currentHeaderName := trim line;
             currentHeaderValue := [] |}
      end
  else
    {| st_headers := st_headers st;
       st_bodyLines := st_bodyLines st ++ [line];
       isHeaderSection := false;
       currentHeaderName := currentHeaderName st;
       currentHeaderValue := currentHeaderValue st |}.

Definition initialParseState : ParseState :=
  {| st_headers := []; st_bodyLines := []; isHeaderSection := true;
     currentHeaderName := []; currentHeaderValue := [] |}.

(** The part of [parseEmail] after the text has been decoded. *)
Definition parseText (text : jsstring) : ParsedEmail :=
  let allLines := split LF (replaceCRLF text) in
  let st := fold_left parseLine allLines initialParseState in
  let headers :=
    if truthy (currentHeaderName st) && isHeaderSection st
    then st_headers st ++ [mkHeader (currentHeaderName st) (currentHeaderValue st)]
    else st_headers st in
  let bodyText := join [LF] (st_bodyLines st) in
  {| headers := headers; body := TextEncoder_encode bodyText |}.

(** [None] would be an exception escaping the function. *)
Definition parseEmail (rawEmail : bytes) : option ParsedEmail :=
  text ← TextDecoder_decode false rawEmail;
  Some (parseText text).

(** ** Address utilities *)

(** The loop of [splitAddresses]: [parts], [current] and [inQuotes] after
    the remaining characters have been scanned. *)
Fixpoint splitAddressesLoop (headerValue : jsstring) (parts : list jsstring)
  (current : jsstring) (inQuotes : bool) : list jsstring * jsstring :=
  match headerValue with
  | [] => (parts, current)
  | c :: more =>
      if c =? DQUOTE then
        splitAddressesLoop more parts (current ++ [c]) (negb inQuotes)
      else if (c =? ch ",") && negb inQuotes then
        splitAddressesLoop more (parts ++ [trim current]) [] inQuotes
      else
        splitAddressesLoop more parts (current ++ [c]) inQuotes
  end.

Definition splitAddresses (headerValue : jsstring) : list jsstring :=
  let '(parts, current) := splitAddressesLoop headerValue [] [] false in
  if truthy (trim current) then parts ++ [trim current] else parts.

(** [str.slice(1, -1)] *)
Definition slice_1_m1 (str : jsstring) : jsstring := removelast (tail str).

Definition stripQuotes (str : jsstring) : jsstring :=
  if (startsWith [DQUOTE] str && endsWith [DQUOTE] str)
     || (startsWith [SQUOTE] str && endsWith [SQUOTE] str)
  then slice_1_m1 str
  else str.

(** The pattern [^ ( .* ) < ( [^>]+ ) > .* $]. *)
Definition angleRegex : regex :=
  RSeq RBol
    (RSeq (RGroup 1 (RStar (RClass dot)))
       (RSeq (RChar (ch "<"))
          (RSeq (RGroup 2 (RPlus (RClass (notChar (ch ">")))))
             (RSeq (RChar (ch ">")) (RSeq (RStar (RClass dot)) REol))))).

Record Address : Type := { displayName : jsstring; address : jsstring }.

Definition parseAddress (addrStr : jsstring) : Address :=
  match exec false angleRegex addrStr with
  | Some angleMatch =>
      let rawName := trim (group 1 angleMatch) in
      let rawAddr := trim (group 2 angleMatch) in
      {| displayName := stripQuotes rawName; address := rawAddr |}
  | None => {| displayName := []; address := trim addrStr |}
  end.

Definition formatAddress (displayName address : jsstring) : jsstring :=
  if truthy displayName
  then [DQUOTE] ++ displayName ++ [DQUOTE] ++ js " <" ++ address ++ js ">"
  else address.

(** ** [parseDomainCollapseMap] *)

(** [str.split(/[,;]+/)]: the pieces between maximal runs of separators.
    [inRun] tells that the previous character was a separator. *)
Fixpoint splitSeparatorsLoop (str : jsstring) (current : jsstring) (inRun : bool)
  : list jsstring :=
  match str with
  | [] => [current]
  | c :: more =>
      if (c =? ch ",") || (c =? ch ";") then
        if inRun then splitSeparatorsLoop more [] true
        else current :: splitSeparatorsLoop more [] true
      else splitSeparatorsLoop more (current ++ [c]) false
  end.

Definition splitSeparators (str : jsstring) : list jsstring :=
  splitSeparatorsLoop str [] false.

(** [map[key] = target] on a plain object: the key [__proto__] is the
    inherited accessor, whose setter ignores a string. *)
Definition setProperty (map : gmap jsstring jsstring) (key target : jsstring)
  : gmap jsstring jsstring :=
  if bool_decide (key = js "__proto__") then map else <[key := target]> map.

(** The body of [for (const entry of entries)]. *)
Definition collapseEntry (map : gmap jsstring jsstring) (entry : jsstring)
  : gmap jsstring jsstring :=
  match indexOf (ch "=") entry with
  | None => map
  | Some eqIndex =>
      let domainPart := toLowerCase (trim (take eqIndex entry)) in
      let targetAddress := trim (drop (eqIndex + 1) entry) in
      if truthy domainPart && truthy targetAddress
      then setProperty map domainPart targetAddress
      else map
  end.

Definition collapseEntries (str : jsstring) : list jsstring :=
  filter (λ s, truthy s = true) (map trim (splitSeparators str)).

Definition parseDomainCollapseMap (str : jsstring) : gmap jsstring jsstring :=
  fold_left collapseEntry (collapseEntries str) ∅.

(** The names under which a plain object inherits a function from
    [Object.prototype]. *)
Definition prototypeFunctions : list jsstring :=
  [js "hasOwnProperty"; js "isPrototypeOf"; js "propertyIsEnumerable";
   js "toLocaleString"; js "toString"; js "valueOf";
   js "__defineGetter__"; js "__defineSetter__";
   js "__lookupGetter__"; js "__lookupSetter__"].

(** What a plain object gives under a name that is not a property of its
    own: the accessor [__proto__] gives the prototype, [constructor] the
    function [Object], the other inherited names their functions.  In a
    template literal or a [join] they render as the texts below.  (Of
    these names only [constructor] and [__proto__] are written without a
    capital letter.) *)
Definition inherited (key : jsstring) : option jsstring :=
  if bool_decide (key = js "__proto__") then Some (js "[object Object]")
  else if bool_decide (key = js "constructor")
  then Some (js "function Object() { [native code] }")
  else if bool_decide (key ∈ prototypeFunctions)
  then Some (js "function " ++ key ++ js "() { [native code] }")
  else None.

(** [map[key]] on a plain object: an own property, or else what
    [Object.prototype] provides. *)
Definition getProperty (map : gmap jsstring jsstring) (key : jsstring)
  : option jsstring :=
  match map !! key with
  | Some v => Some v
  | None => inherited key
  end.

(** ** [DomainCollapseProcessor] *)

Definition setHeaders (context : EmailPipelineContext) (hs : list Header)
  : EmailPipelineContext :=
  match parsedEmail context with
  | Some parsed =>
      {| message := message context; env := env context;
         rawEmail := rawEmail context;
         parsedEmail := Some {| headers := hs; body := body parsed |};
         finalRawEmail := finalRawEmail context |}
  | None => context
  end.

(** The callback of [addresses.map] in the domain-collapse stage. *)
Definition collapseAddress (domainMap : gmap jsstring jsstring)
  (addrStr : jsstring) : jsstring :=
  let parsed := parseAddress addrStr in
  let domainPart := default [] (split (ch "@") (address parsed) !! 1%nat) in
  let domainLower := toLowerCase domainPart in
  match getProperty domainMap domainLower with
  | Some target => formatAddress (displayName parsed) target
  | None => addrStr
  end.

(** The callback of [parsedEmail.headers.map]. *)
Definition collapseHeader (domainMap : gmap jsstring jsstring) (header : Header)
  : Header :=
  let hName := toLowerCase (name header) in
  if bool_decide (hName ∈ [js "to"; js "cc"; js "bcc"]) then
    let addresses := splitAddresses (value header) in
    let transformed := map (collapseAddress domainMap) addresses in
    let newValue := join (js ", ") transformed in
    {| raw := name header ++ js ": " ++ newValue;
       name := name header;
       value := newValue |}
  else header.

(** The stage returns its result together with the context it leaves. *)
Definition DomainCollapseProcessor_process (context : EmailPipelineContext)
  : ProcessingResult * EmailPipelineContext :=
  match parsedEmail context with
  | None => (continue, context)
  | Some parsed =>
      let domainCollapseStr := orDefault (DOMAIN_COLLAPSE_MAPPING (env context)) [] in
      if negb (truthy (trim domainCollapseStr)) then (continue, context)
      else
        let domainMap := parseDomainCollapseMap domainCollapseStr in
        if bool_decide (size domainMap = 0%nat) then (continue, context)
        else
          let updatedHeaders := map (collapseHeader domainMap) (headers parsed) in
          (continue, setHeaders context updatedHeaders)
  end.

(** ** [SubaddressingProcessor] *)

(** [l.map(f)] for a callback that also updates a captured variable. *)
Fixpoint mapAccum {S A B : Type} (f : S → A → S * B) (s : S) (l : list A)
  : S * list B :=
  match l with
  | [] => (s, [])
  | a :: rest =>
      let '(s1, b) := f s a in
      let '(s2, bs) := mapAccum f s1 rest in
      (s2, b :: bs)
  end.

(** The pattern [^ ( [^+]+ ) \+ ( [^@]+ ) @ ( .* ) $]. *)
Definition plusRegex : regex :=
  RSeq RBol
    (RSeq (RGroup 1 (RPlus (RClass (notChar (ch "+")))))
       (RSeq (RChar (ch "+"))
          (RSeq (RGroup 2 (RPlus (RClass (notChar (ch "@")))))
             (RSeq (RChar (ch "@"))
                (RSeq (RGroup 3 (RStar (RClass dot))) REol))))).

(** The callback of [addressParts.map]; the state is [subaddressTag]. *)
Definition stripAddress (subaddressTag : jsstring) (addr : jsstring)
  : jsstring * jsstring :=
  let parsed := parseAddress addr in
  match exec false plusRegex (address parsed) with
  | Some m =>
      let localPart := group 1 m in
      let tag := group 2 m in
      let domainPart := group 3 m in
      let subaddressTag' :=
        if negb (truthy subaddressTag) then tag else subaddressTag in
      let newValue := localPart ++ js "@" ++ domainPart in
      (subaddressTag', formatAddress (displayName parsed) newValue)
  | None => (subaddressTag, addr)
  end.

(** The callback of [headers.map]. *)
Definition stripHeader (subaddressTag : jsstring) (h : Header)
  : jsstring * Header :=
  if bool_decide (toLowerCase (name h) = js "to") then
    let addressParts := splitAddresses (value h) in
    let '(subaddressTag', updatedAddressParts) :=
      mapAccum stripAddress subaddressTag addressParts in
    let newValue := join (js ", ") updatedAddressParts in
    (subaddressTag',
     {| raw := name h ++ js ": " ++ newValue; name := name h; value := newValue |})
  else (subaddressTag, h).

(** Returns [(subaddressTag, updatedHeaders)]. *)
Definition processSubaddressing (headers : list Header)
  : jsstring * list Header :=
  mapAccum stripHeader [] headers.

Definition prependSubjectTag (headers : list Header) (tag : jsstring)
  : list Header :=
  if negb (truthy tag) then headers
  else
    let bracketTag := js "[" ++ tag ++ js "]" in
    map (λ h,
           if bool_decide (toLowerCase (name h) = js "subject")
              && negb (includes (toLowerCase bracketTag) (toLowerCase (value h)))
           then
             let newValue := bracketTag ++ js " " ++ value h in
             {| raw := name h ++ js ": " ++ newValue;
                name := name h; value := newValue |}
           else h) headers.

Definition SubaddressingProcessor_process (context : EmailPipelineContext)
  : ProcessingResult * EmailPipelineContext :=
  match parsedEmail context with
  | None => (continue, context)
  | Some parsed =>
      let '(subaddressTag, updatedHeaders) := processSubaddressing (headers parsed) in
      let finalHeaders := prependSubjectTag updatedHeaders subaddressTag in
      (continue, setHeaders context finalHeaders)
  end.

(** ** [reSerialiseEmail] and [PreDeliveryProcessor] *)

Definition reSerialiseEmail (headers : list Header) (body : bytes)
  : option bytes :=
  let headerLines := map (λ h, name h ++ js ": " ++ value h) headers in
  let textHead := join [CR; LF] headerLines in
  bodyText ← TextDecoder_decode false body;
  let textFinal := textHead ++ [CR; LF; CR; LF] ++ bodyText in
  Some (TextEncoder_encode textFinal).

(** ** [CrmServerHandler] *)

Record Response : Type := { ok : bool; status : N; statusText : jsstring }.

Record CrmOptions : Type := {
  database : jsstring; userid : jsstring; password : jsstring;
  host : jsstring; port : jsstring; protocol : jsstring
}.

(** A sequence of patterns. *)
Fixpoint RSeqs (rs : list regex) : regex :=
  match rs with
  | [] => REmpty
  | [r] => r
  | r :: more => RSeq r (RSeqs more)
  end.

(** [\s*] *)
Definition ws : regex := RStar (RClass isWhiteSpace).

(** The fault-string pattern, with the [i] flag: the literal tags and the
    word faultString separated by optional white space, then the lazily
    captured payload [( [\s\S]*? )], optional white space and the closing
    string tag. *)
Definition faultStringRegex : regex :=
  RSeqs [RLit (js "<name>"); ws; RLit (js "faultString"); ws;
         RLit (js "</name>"); ws; RLit (js "<value>"); ws;
         RLit (js "<string>"); ws; RGroup 1 (RStarLazy (RClass anyChar)); ws;
         RLit (js "</string>")].

(** The pattern [<int> \s* ( \d+ ) \s* </int>], with the [i] flag. *)
Definition intRegex : regex :=
  RSeqs [RLit (js "<int>"); ws; RGroup 1 (RPlus (RClass isDigit)); ws;
         RLit (js "</int>")].

(** The pattern [<boolean> \s* ( \d ) \s* </boolean>], with the [i] flag. *)
Definition booleanRegex : regex :=
  RSeqs [RLit (js "<boolean>"); ws; RGroup 1 (RClass isDigit); ws;
         RLit (js "</boolean>")].

(** [parseInt(digits, 10)] on a run of decimal digits.  The source holds the
    value in a double; rounding keeps a positive integer positive. *)
Definition parseInt (digits : jsstring) : N :=
  fold_left (λ acc d, 10 * acc + (d - 48)) digits 0.

(** A non-negative integer in a template literal. *)
Definition numberToString (n : N) : jsstring :=
  js (NilZero.string_of_uint (N.to_uint n)).

Definition noRouteFault : jsstring :=
  js "ValueError: No possible route found for incoming message".

Definition validateResponse (response : Response) (data : jsstring)
  : Completion unit :=
  if negb (ok response) then
    Throw (js "HTTP Error: " ++ numberToString (status response)
             ++ js " " ++ statusText response)
  else if includes (js "<fault>") data then
    let faultStringMatch := exec true faultStringRegex data in
    let faultString :=
      match faultStringMatch with
      | Some m => trim (group 1 m)
      | None => js "Unknown fault"
      end in
    if includes noRouteFault faultString then
      Throw (js "Mailbox not found or no valid route. Please check the mail alias or CRM configuration.")
    else Throw (js "CRM Error: " ++ faultString)
  else
    let intMatch := exec true intRegex data in
    let booleanMatch := exec true booleanRegex data in
    match intMatch with
    | Some m =>
        let recordId := parseInt (group 1 m) in
        if 0 <? recordId then Normal tt
        else Throw (js "Invalid record ID received from CRM.")
    | None =>
        match booleanMatch with
        | Some m =>
            let booleanValue := group 1 m in
            if bool_decide (booleanValue = js "0")
            then Throw (js "Email rejected by CRM.")
            else Normal tt
        | None => Throw (js "Unexpected response format from CRM.")
        end
    end.

Definition requestUrl (options : CrmOptions) : jsstring :=
  protocol options ++ js "://" ++ host options ++ js ":" ++ port options
    ++ js "/xmlrpc/2/object".

Definition requestXml (options : CrmOptions) (rawEmail : bytes) : jsstring :=
  join [LF]
    [js "<?xml version=" ++ [DQUOTE] ++ js "1.0" ++ [DQUOTE] ++ js "?>";
     js "<methodCall>";
     js "  <methodName>execute_kw</methodName>";
     js "  <params>";
     js "    <param><value><string>" ++ database options
       ++ js "</string></value></param>";
     js "    <param><value><int>" ++ userid options ++ js "</int></value></param>";
     js "    <param><value><string>" ++ password options
       ++ js "</string></value></param>";
     js "    <param><value><string>mail.thread</string></value></param>";
     js "    <param><value><string>message_process</string></value></param>";
     js "    <param>";
     js "      <value>";
     js "        <array>";
     js "          <data>";
     js "            <value><boolean>0</boolean></value>";
     js "            <value><base64>" ++ base64ArrayBuffer rawEmail
       ++ js "</base64></value>";
     js "          </data>";
     js "        </array>";
     js "      </value>";
     js "    </param>";
     js "    <param><value><struct></struct></value></param>";
     js "  </params>";
     js "</methodCall>"].

(** ** The pipeline runner

    A processor consumes the context and either returns a result or throws;
    in both cases it may have changed the context. *)

Inductive Outcome (C : Type) : Type :=
| Returned (result : ProcessingResult) (context : C)
| Raised (err : jsstring) (context : C).
#[global] Arguments Returned {C} result context.
#[global] Arguments Raised {C} err context.

Record Processor (C : Type) : Type := {
  constructorName : jsstring;
  process : C → Outcome C
}.
#[global] Arguments constructorName {C} p.
#[global] Arguments process {C} p.

Inductive LogEntry : Type :=
| console_log (text : jsstring)
| console_warn (text : jsstring)
| console_error (text : jsstring) (err : jsstring).

(** What one run leaves behind: the context, the argument of
    [message.setReject] if it was called, the runner's console lines and
    the processors whose [process] was called, in call order. *)
Record Run (C : Type) : Type := {
  finalContext : C;
  setReject : option jsstring;
  console : list LogEntry;
  executed : list jsstring
}.
#[global] Arguments finalContext {C} r.
#[global] Arguments setReject {C} r.
#[global] Arguments console {C} r.
#[global] Arguments executed {C} r.

Definition rejectionWarning {C : Type} (p : Processor C) (result : ProcessingResult)
  : LogEntry :=
  console_warn (js "Email rejected by " ++ orDefault (Some (constructorName p)) (js "Unknown")
                  ++ js ": " ++ orDefault (rejectReason result) (js "No reason")).

Definition faultError {C : Type} (p : Processor C) (err : jsstring) : LogEntry :=
  console_error (js "Error in " ++ orDefault (Some (constructorName p)) (js "Unknown")) err.

(** [for (const processor of processors) { try { ... } catch (err) { ... } }] *)
Fixpoint runProcessors {C : Type} (processors : list (Processor C)) (context : C)
  : Run C :=
  match processors with
  | [] =>
      {| finalContext := context; setReject := None;
         console := [console_log (js "Email processed successfully through all processors.")];
         executed := [] |}
  | processor :: later =>
      match process processor context with
      | Returned result context' =>
          if negb (canContinue result) then
            {| finalContext := context';
               setReject :=
                 Some (orDefault (rejectReason result) (js "Message rejected by processor."));
               console := [rejectionWarning processor result];
               executed := [constructorName processor] |}
          else
            let run := runProcessors later context' in
            {| finalContext := finalContext run; setReject := setReject run;
               console := console run;
               executed := constructorName processor :: executed run |}
      | Raised err context' =>
          let run := runProcessors later context' in
          {| finalContext := finalContext run; setReject := setReject run;
             console := faultError processor err :: console run;
             executed := constructorName processor :: executed run |}
      end
  end.

(** ** The processors of the worker and its [email] handler *)

Section Worker.

(** The platform's [fetch] followed by [response.text()]: either the
    response with its body, or a network fault. *)
Variable fetch : jsstring → jsstring → Completion (Response * jsstring).

Definition sendEmail (options : CrmOptions) (rawEmail : bytes) : Completion unit :=
  let url := requestUrl options in
  let xml := requestXml options rawEmail in
  let attempt :=
    match fetch url xml with
    | Normal (response, data) => validateResponse response data
    | Throw msg => Throw msg
    end in
  match attempt with
  | Normal _ => Normal tt
  | Throw msg => Throw (js "Unable to communicate with CRM server: " ++ msg)
  end.

(** [await streamToArrayBuffer(message.raw, message.rawSize)] as the [try]
    of the parsing stage sees it; [None] is an exception of any kind: the
    buffer cannot be allocated, a chunk does not fit, or the reader
    fails. *)
Definition readRaw (message : ForwardableEmailMessage) : option bytes :=
  streamSize ← rawSize message;
  result ← streamToArrayBuffer (chunks (message_raw message)) streamSize;
  if readFails (message_raw message) then None else Some result.

(** [parseEmail] and [reSerialiseEmail] are called outside any [try] of
    their processor: an exception escaping them would reach the runner. *)
Definition ParsingProcessor_process (context : EmailPipelineContext)
  : Outcome EmailPipelineContext :=
  match readRaw (message context) with
  | None => Returned (reject (js "Unable to process email data.")) context
  | Some rawEmail =>
      let context1 :=
        {| message := message context; env := env context;
           rawEmail := Some rawEmail; parsedEmail := parsedEmail context;
           finalRawEmail := finalRawEmail context |} in
      match parseEmail rawEmail with
      | Some parsed =>
          Returned continue
            {| message := message context; env := env context;
               rawEmail := Some rawEmail; parsedEmail := Some parsed;
               finalRawEmail := finalRawEmail context |}
      | None => Raised (js "TypeError") context1
      end
  end.

Definition PreDeliveryProcessor_process (context : EmailPipelineContext)
  : Outcome EmailPipelineContext :=
  match parsedEmail context with
  | None => Returned (reject (js "No parsed email to deliver.")) context
  | Some parsed =>
      match reSerialiseEmail (headers parsed) (body parsed) with
      | Some final =>
          Returned continue
            {| message := message context; env := env context;
               rawEmail := rawEmail context; parsedEmail := parsedEmail context;
               finalRawEmail := Some final |}
      | None => Raised (js "TypeError") context
      end
  end.

Definition DeliveryProcessor_process (context : EmailPipelineContext)
  : ProcessingResult * EmailPipelineContext :=
  match finalRawEmail context with
  | None => (reject (js "No final email data to deliver."), context)
  | Some final =>
      let e := env context in
      let options :=
        {| database := orDefault (ODOO_DATABASE e) (js "company");
           userid := orDefault (ODOO_USERID e) (js "2");
           password := orDefault (ODOO_PASSWORD e) (js "password");
           host := orDefault (ODOO_HOST e) (js "crm.example.com");
           port := orDefault (ODOO_PORT e) (js "443");
           protocol := orDefault (ODOO_PROTOCOL e) (js "https") |} in
      match sendEmail options final with
      | Normal _ => (continue, context)
      | Throw msg => (reject (js "Unable to deliver to CRM. " ++ msg), context)
      end
  end.

Definition returning (f : EmailPipelineContext → ProcessingResult * EmailPipelineContext)
  : EmailPipelineContext → Outcome EmailPipelineContext :=
  λ context, let '(result, context') := f context in Returned result context'.

Definition processors : list (Processor EmailPipelineContext) :=
  [ {| constructorName := js "SpamCheckProcessor";
       process := returning (λ c, (SpamCheckProcessor_process c, c)) |};
    {| constructorName := js "ParsingProcessor";
       process := ParsingProcessor_process |};
    {| constructorName := js "DomainCollapseProcessor";
       process := returning DomainCollapseProcessor_process |};
    {| constructorName := js "SubaddressingProcessor";
       process := returning SubaddressingProcessor_process |};
    {| constructorName := js "PreDeliveryProcessor";
       process := PreDeliveryProcessor_process |};
    {| constructorName := js "DeliveryProcessor";
       process := returning DeliveryProcessor_process |} ].

Definition email (message : ForwardableEmailMessage) (env : Env)
  : Run EmailPipelineContext :=
  let context :=
    {| message := message; env := env; rawEmail := None;
       parsedEmail := None; finalRawEmail := None |} in
  runProcessors processors context.

End Worker.

(** ** The parser as the specification words it

    These definitions follow the prose description of the parser; they are
    compared with [parseEmail] below. *)

Definition spec_isBlank (line : jsstring) : bool := negb (truthy (trim line)).

Definition spec_isContinuation (line : jsstring) : bool :=
  match line with
  | c :: _ => (c =? SP) || (c =? TAB)
  | [] => false
  end.

Definition spec_hasColon (line : jsstring) : bool :=
  bool_decide (ch ":" ∈ line).

(** The lines before the first blank line. *)
Fixpoint spec_headerSection (lines : list jsstring) : list jsstring :=
  match lines with
  | [] => []
  | line :: more =>
      if spec_isBlank line then [] else line :: spec_headerSection more
  end.

(** The lines after the first blank line. *)
Fixpoint spec_bodySection (lines : list jsstring) : list jsstring :=
  match lines with
  | [] => []
  | line :: more => if spec_isBlank line then more else spec_bodySection more
  end.

(** A header line split at its first colon; without a colon the whole
    trimmed line is the name and the value is empty. *)
Definition spec_splitColon (line : jsstring) : jsstring * jsstring :=
  match indexOf (ch ":") line with
  | Some idx => (trim (take idx line), trim (drop (idx + 1) line))
  | None => (trim line, [])
  end.

(** Every line that starts a header, with the continuation lines that
    follow it; the first component collects continuation lines that have no
    header before them. *)
Definition spec_group (lines : list jsstring)
  : list jsstring * list (jsstring * list jsstring) :=
  fold_right
    (λ line acc,
       if spec_isContinuation line then (line :: acc.1, acc.2)
       else ([], (line, acc.1) :: acc.2))
    ([], []) lines.

(** The value of a header after its continuation lines are appended. *)
Definition spec_unfold (v : jsstring) (continuations : list jsstring) : jsstring :=
  fold_left (λ acc line, acc ++ [SP] ++ trim line) continuations v.

Definition spec_header (block : jsstring * list jsstring) : jsstring * jsstring :=
  let '(n, v) := spec_splitColon block.1 in (n, spec_unfold v block.2).

(** The name and value of every header of a header section, in order; a
    header without a name is not kept. *)
Definition spec_pairs (section : list jsstring) : list (jsstring * jsstring) :=
  filter (λ nv, truthy nv.1 = true) (map spec_header (spec_group section).2).

(** The header records with these names and values, the raw form of each
    being its name, a colon, a space and its value. *)
Definition spec_headers (section : list jsstring) : list Header :=
  map (λ nv, {| raw := nv.1 ++ js ": " ++ nv.2; name := nv.1; value := nv.2 |})
    (spec_pairs section).

(** The headers that a run of header lines yields when the loop enters it
    with the current header [(n, v)]. *)
Definition headersFrom (n v : jsstring) (section : list jsstring) : list Header :=
  map (λ nv, mkHeader nv.1 nv.2)
    (filter (λ nv, truthy nv.1 = true)
       ((n, spec_unfold v (spec_group section).1)
          :: map spec_header (spec_group section).2)).

(** The lines of a raw message. *)
Definition linesOf (rawEmail : bytes) : list jsstring :=
  split LF (replaceCRLF (stripBOM (map (default REPLACEMENT) (utf8Items rawEmail)))).

(** ** The mailbox domain as the specification words it: the text after the
    first [@]. *)
Definition spec_domain (mailbox : jsstring) : jsstring :=
  match indexOf (ch "@") mailbox with
  | Some idx => drop (idx + 1) mailbox
  | None => []
  end.

(** The mailbox domain as the worker takes it: [address.split('@')[1] || '']. *)
Definition domainOf (mailbox : jsstring) : jsstring :=
  default [] (split (ch "@") mailbox !! 1%nat).


(** ** Runs of the pipeline

    [passes pre c c'] : started in context [c], every processor of [pre]
    either returns a result that lets the run continue or throws, and the
    last of them leaves the context [c']. *)
Inductive passes {C : Type} : list (Processor C) → C → C → Prop :=
| passes_nil (c : C) : passes [] c c
| passes_continue (p : Processor C) (later : list (Processor C))
    (c c1 c2 : C) (result : ProcessingResult) :
    process p c = Returned result c1 →
    canContinue result = true →
    passes later c1 c2 →
    passes (p :: later) c c2
| passes_raise (p : Processor C) (later : list (Processor C))
    (c c1 c2 : C) (err : jsstring) :
    process p c = Raised err c1 →
    passes later c1 c2 →
    passes (p :: later) c c2.

(** A processor over a counter, for examples: it adds [n] to the context
    and then behaves as told. *)
Inductive Behaviour : Type := Continues | Rejects (reason : option jsstring) | Throws.

Definition counting (label : string) (n : nat) (b : Behaviour) : Processor nat :=
  {| constructorName := js label;
     process := λ c,
       match b with
       | Continues => Returned continue (c + n)%nat
       | Rejects reason =>
           Returned {| canContinue := false; rejectReason := reason |} (c + n)%nat
       | Throws => Raised (js "boom") (c + n)%nat
       end |}.

(** ** Header pairs that serialise to a clean header line

    The name is non-empty; name and value are trimmed; the name holds no
    colon; neither holds a line feed. *)
Definition canonical (nv : jsstring * jsstring) : Prop :=
  nv.1 ≠ [] ∧ trim nv.1 = nv.1 ∧ trim nv.2 = nv.2
  ∧ (ch ":" ∉ nv.1) ∧ (LF ∉ nv.1) ∧ (LF ∉ nv.2).

(** The line the serialiser writes for a header. *)
Definition headerLine (nv : jsstring * jsstring) : jsstring :=
  nv.1 ++ js ": " ++ nv.2.

Definition nameValue (h : Header) : jsstring * jsstring := (name h, value h).

Definition scalarString (s : jsstring) : Prop := Forall (λ c, isScalar c = true) s.

(** ** Example messages *)

Definition crlf (lines : list jsstring) : jsstring := join [CR; LF] lines.

Definition exampleRaw : bytes :=
  TextEncoder_encode
    (crlf [js "From: Alice <alice@example.com>";
           js "To: bob+newsletter@example.com";
           js "Subject: Hello"; []; js "Hi Bob,"; js "see you soon."]).

Definition exampleParsed : ParsedEmail :=
  {| headers := [mkHeader (js "From") (js "Alice <alice@example.com>");
                 mkHeader (js "To") (js "bob+newsletter@example.com");
                 mkHeader (js "Subject") (js "Hello")];
     body := TextEncoder_encode (js "Hi Bob," ++ [LF] ++ js "see you soon.") |}.

(** The sender of the specification's example, display name in quotes. *)
Definition quotedFrom : jsstring :=
  [DQUOTE] ++ js "XyZaBcDe" ++ [DQUOTE] ++ js " <xyzabcde@gmail.com>".

(** The same sender with the display name written without quotes. *)
Definition bareFrom : jsstring := js "XyZaBcDe <xyzabcde@gmail.com>".

(** The keyword test of the spam check on a Subject value. *)
Definition subjectVerdict (subject : option jsstring) : ProcessingResult :=
  if existsb (λ keyword, includes keyword (toLowerCase (orDefault subject [])))
       spamKeywords
  then reject (js "Message contains spam keywords.")
  else continue.

(** An inbound message: its From and Subject as the platform reports them,
    the chunks of its raw stream, which ends with [done], and the declared
    size. *)
Definition inbound (from subject : jsstring) (chunks : list bytes) (size : nat)
  : ForwardableEmailMessage :=
  {| headers_get := λ n,
       if bool_decide (n = js "from") then Some from
       else if bool_decide (n = js "subject") then Some subject
       else None;
     message_raw := {| chunks := chunks; readFails := false |};
     rawSize := Some size |}.

(** A CRM that answers every request with the given status and body. *)
Definition crmAnswering (response : Response) (data : jsstring)
  : jsstring → jsstring → Completion (Response * jsstring) :=
  λ _ _, Normal (response, data).

Definition messageWith (from subject : jsstring) : ForwardableEmailMessage :=
  {| headers_get := λ n,
       if bool_decide (n = js "from") then Some from
       else if bool_decide (n = js "subject") then Some subject
       else None;
     message_raw := {| chunks := []; readFails := false |};
     rawSize := Some 0%nat |}.

Definition noEnv : Env :=
  {| ODOO_DATABASE := None; ODOO_USERID := None; ODOO_PASSWORD := None;
     ODOO_HOST := None; ODOO_PORT := None; ODOO_PROTOCOL := None;
     DOMAIN_COLLAPSE_MAPPING := None |}.

Definition freshContext (m : ForwardableEmailMessage) (e : Env)
  : EmailPipelineContext :=
  {| message := m; env := e; rawEmail := None; parsedEmail := None;
     finalRawEmail := None |}.

(** Example responses of the CRM. *)
Definition response200 : Response :=
  {| ok := true; status := 200; statusText := js "OK" |}.

Definition response502 : Response :=
  {| ok := false; status := 502; statusText := js "Bad Gateway" |}.

Definition faultBody (faultString : jsstring) : jsstring :=
  join [LF]
    [js "<methodResponse><fault><value><struct>";
     js "<member><name>faultCode</name><value><int>1</int></value></member>";
     js "<member><name>faultString</name><value><string>" ++ faultString
       ++ js "</string></value></member>";
     js "</struct></value></fault></methodResponse>"].

Definition resultBody (tag value : jsstring) : jsstring :=
  js "<methodResponse><params><param><value><" ++ tag ++ js ">" ++ value
    ++ js "</" ++ tag ++ js "></value></param></params></methodResponse>".

(** ** Subaddressing: examples for a second pass *)

(** The mailbox of the address does not match the tag pattern. *)
Definition plainAddress (addr : jsstring) : bool :=
  match exec false plusRegex (address (parseAddress addr)) with
  | None => true
  | Some _ => false
  end.

(** A To header value with a quoted name that contains the address. *)
Definition quotedAddressValue : jsstring :=
  [DQUOTE] ++ js "A <a+t@b.c> " ++ [DQUOTE] ++ js ", "
    ++ [DQUOTE] ++ js "x,y" ++ [DQUOTE].

(** ** Domain collapse: example context *)

Definition collapseEnv (mapping : jsstring) : Env :=
  {| ODOO_DATABASE := None; ODOO_USERID := None; ODOO_PASSWORD := None;
     ODOO_HOST := None; ODOO_PORT := None; ODOO_PROTOCOL := None;
     DOMAIN_COLLAPSE_MAPPING := Some mapping |}.

Definition parsedContext (mapping : jsstring) (hs : list Header)
  : EmailPipelineContext :=
  {| message := messageWith [] []; env := collapseEnv mapping;
     rawEmail := None;
     parsedEmail := Some {| headers := hs; body := [] |};
     finalRawEmail := None |}.

(** ** Proof automation for the decoder *)

(** Rewrites the tests of the goal whose outcome follows from the
    hypotheses, and reduces the conditionals they decide. *)
Ltac settle_tests :=
  repeat first
    [ match goal with
      | |- context [?a =? ?b] =>
          first [ rewrite (proj2 (N.eqb_eq a b)) by lia
                | rewrite (proj2 (N.eqb_neq a b)) by lia
                | destruct (N.eqb_spec a b) ]
      | |- context [?a <=? ?b] =>
          first [ rewrite (proj2 (N.leb_le a b)) by lia
                | rewrite (proj2 (N.leb_gt a b)) by lia ]
      end
    | progress cbn [andb] ];
  cbv match.

(** One unfolding of the decoder, its recursive calls left folded. *)
Ltac decoder_step :=
  match goal with
  | |- context [utf8Items (_ :: ?q)] =>
      let q0 := fresh "q0" in
      let E := fresh "E" in
      remember q as q0 eqn:E; cbn [utf8Items]; cbv zeta; unfold inRange;
      subst q0
  end.


(** ** Vocabulary for facts about the matcher

    [greedy p k pos rest caps] is what the matcher does for a starred class
    [p*] followed by the continuation [k]: it takes the longest run of
    characters of the class and gives characters back one by one until the
    continuation succeeds. *)
Fixpoint greedy (p : char → bool) (k : mstate → option mstate) (pos : nat)
  (rest : jsstring) (caps : gmap nat jsstring) : option mstate :=
  match rest with
  | x :: t =>
      if p x then
        match greedy p k (S pos) t caps with
        | Some m => Some m
        | None => k (MState pos rest caps)
        end
      else k (MState pos rest caps)
  | [] => k (MState pos [] caps)
  end.

(** What the matcher does for a lazily starred [[\s\S]] followed by the
    continuation [k]: it tries the continuation and takes one more
    character each time the continuation fails. *)
Fixpoint lazy (k : mstate → option mstate) (pos : nat) (rest : jsstring)
  (caps : gmap nat jsstring) : option mstate :=
  match k (MState pos rest caps) with
  | Some m => Some m
  | None =>
      match rest with
      | _ :: t => lazy k (S pos) t caps
      | [] => None
      end
  end.

(** The continuation [k] fails on every input that starts with a character
    of the class [p]. *)
Definition refuses (p : char → bool) (k : mstate → option mstate) : Prop :=
  ∀ pos x t caps, p x = true → k (MState pos (x :: t) caps) = None.

(** ** Vocabulary for facts about addresses *)

(** The state of the quote flag of [splitAddresses] after the characters of
    [s], entered with the flag [inQuotes]; [None] when [s] holds a comma at
    which the scan would split. *)
Fixpoint quoteScan (inQuotes : bool) (s : jsstring) : option bool :=
  match s with
  | [] => Some inQuotes
  | c :: more =>
      if c =? DQUOTE then quoteScan (negb inQuotes) more
      else if (c =? ch ",") && negb inQuotes then None
      else quoteScan inQuotes more
  end.

(** An address string that the scan passes over in one piece: trimmed, its
    quotes balanced, every comma inside quotes. *)
Definition addressPiece (s : jsstring) : Prop :=
  trim s = s ∧ quoteScan false s = Some false.

(** A character of a plain mailbox: no white space, and none of the
    characters the address utilities treat specially. *)
Definition mailboxChar (c : char) : bool :=
  negb (isWhiteSpace c) && negb (c =? ch ",") && negb (c =? DQUOTE)
  && negb (c =? ch "<") && negb (c =? ch ">").

(** ** The sender-name rule of the spam check, read without its patterns *)

Definition alphanumeric (c : char) : bool := isLetter c || isDigit c.

(** The verdict of the Gmail rule on a trimmed sender name. *)
Definition nameVerdict (senderName : jsstring) : option ProcessingResult :=
  if negb (truthy senderName) then Some (reject (js "Sender name is missing."))
  else
    let totalLetters := length (filter (λ c, isLetter c = true) senderName) in
    let uppercaseCount := length (filter (λ c, isUpper c = true) senderName) in
    let lowercaseCount := length (filter (λ c, isLower c = true) senderName) in
    if forallb alphanumeric senderName
       && bool_decide (8 ≤ totalLetters)%nat
       && balanced uppercaseCount totalLetters
       && balanced lowercaseCount totalLetters
    then Some (reject (js "Sender name resembles spam pattern."))
    else None.

(** ** Recipients, for facts about the To header

    A recipient as a sender's mail program writes it: an optional display
    name, in double quotes or not, and a mailbox [local@domain] or
    [local+tag@domain]. *)
Record Recipient : Type := {
  rName : jsstring;
  rQuoted : bool;
  rLocal : jsstring;
  rTag : option jsstring;
  rDomain : jsstring
}.

Definition mailboxOf (r : Recipient) : jsstring :=
  rLocal r
    ++ match rTag r with Some t => ch "+" :: t | None => [] end
    ++ ch "@" :: rDomain r.

(** The address as it stands in the header: the mailbox alone, or the
    display name, as it is or in double quotes, a space and the mailbox
    in angle brackets. *)
Definition written (r : Recipient) : jsstring :=
  if truthy (rName r) then
    (if rQuoted r then [DQUOTE] ++ rName r ++ [DQUOTE] else rName r)
      ++ js " <" ++ mailboxOf r ++ js ">"
  else mailboxOf r.

(** The address after subaddressing: one without a tag stays as written;
    one with a tag loses it, and its display name then stands in double
    quotes. *)
Definition untagged (r : Recipient) : jsstring :=
  match rTag r with
  | Some _ =>
      if truthy (rName r) then
        [DQUOTE] ++ rName r ++ [DQUOTE] ++ js " <"
          ++ (rLocal r ++ ch "@" :: rDomain r) ++ js ">"
      else rLocal r ++ ch "@" :: rDomain r
  | None => written r
  end.

(** The tag of the first recipient that has one. *)
Fixpoint firstTag (rs : list Recipient) : jsstring :=
  match rs with
  | [] => []
  | r :: more => match rTag r with Some t => t | None => firstTag more end
  end.

(** A character of a display name: no line terminator, no double quote. *)
Definition nameChar (c : char) : bool := dot c && negb (c =? DQUOTE).

(** A display name that can stand without double quotes: it is trimmed,
    holds no comma and is not wrapped in single quotes. *)
Definition bareName (n : jsstring) : bool :=
  bool_decide (trim n = n) && forallb (notChar (ch ",")) n
  && negb (startsWith [SQUOTE] n && endsWith [SQUOTE] n).

(** The parts of the recipient are made of the characters they may hold:
    a display name without double quotes around it can stand so; the local
    part is not empty and holds no plus sign; a tag is not empty and holds
    no at sign; without a tag the domain holds no plus sign. *)
Definition wellFormed (r : Recipient) : bool :=
  forallb nameChar (rName r)
  && (rQuoted r || bareName (rName r))
  && truthy (rLocal r) && forallb mailboxChar (rLocal r)
  && forallb (notChar (ch "+")) (rLocal r)
  && forallb mailboxChar (rDomain r)
  && match rTag r with
     | Some t => truthy t && forallb mailboxChar t && forallb (notChar (ch "@")) t
     | None => forallb (notChar (ch "+")) (rDomain r)
     end.

(** What the characters of a mailbox have in common. *)
Definition addressChar (c : char) : Prop :=
  isWhiteSpace c = false ∧ c ≠ ch "," ∧ c ≠ DQUOTE ∧ c ≠ ch "<" ∧ c ≠ ch ">".

(** ** What a rewriting stage may change

    [retouched names h h'] : the header [h'] stands where [h] stood, under
    the same name, and differs from it only if its name, in lower case, is
    one of [names]. *)
Definition retouched (names : list jsstring) (h h' : Header) : Prop :=
  name h' = name h ∧ (toLowerCase (name h) ∉ names → h' = h).

(** The context [out] differs from [context] in the headers of the parsed
    message at most, and there only as [retouched] allows. *)
Definition headersRetouched (names : list jsstring)
  (context out : EmailPipelineContext) : Prop :=
  message out = message context ∧ env out = env context
  ∧ rawEmail out = rawEmail context ∧ finalRawEmail out = finalRawEmail context
  ∧ match parsedEmail context, parsedEmail out with
    | Some parsed, Some parsed' =>
        body parsed' = body parsed
        ∧ Forall2 (retouched names) (headers parsed) (headers parsed')
    | None, None => True
    | _, _ => False
    end.

(** ** Entries of a domain-collapse configuration *)

Definition separator (c : char) : bool := (c =? ch ",") || (c =? ch ";").

(** The entry [domain=target]. *)
Definition configEntry (pair : jsstring * jsstring) : jsstring :=
  pair.1 ++ ch "=" :: pair.2.

(** A pair that can be written as an entry: both parts are trimmed, not
    empty and free of separators, the domain holds no equals sign, and in
    lower case it is not empty and not the one key that a plain object
    refuses. *)
Definition configPair (pair : jsstring * jsstring) : bool :=
  truthy pair.1 && truthy pair.2
  && bool_decide (trim pair.1 = pair.1) && bool_decide (trim pair.2 = pair.2)
  && forallb (λ c, negb (separator c) && negb (c =? ch "=")) pair.1
  && forallb (λ c, negb (separator c)) pair.2
  && negb (bool_decide (toLowerCase pair.1 = js "__proto__"))
  && truthy (toLowerCase pair.1).

(** ** A configuration, item by item

    A configuration string is a first item followed by further items, each
    behind one separator.  An item is an entry, written as the text before
    its first equals sign, the equals sign and the text after it, or a
    text without an equals sign.  Every string is of this form, in one
    way. *)
Inductive ConfigItem : Type :=
| entryItem (domain target : jsstring)
| malformedItem (text : jsstring).

Definition itemText (i : ConfigItem) : jsstring :=
  match i with
  | entryItem domain target => domain ++ ch "=" :: target
  | malformedItem text => text
  end.

(** No part of the item holds a separator; the domain of an entry and a
    malformed text hold no equals sign. *)
Definition itemOk (i : ConfigItem) : bool :=
  match i with
  | entryItem domain target =>
      forallb (λ c, negb (separator c) && negb (c =? ch "=")) domain
      && forallb (λ c, negb (separator c)) target
  | malformedItem text =>
      forallb (λ c, negb (separator c) && negb (c =? ch "=")) text
  end.

Definition isMalformed (i : ConfigItem) : bool :=
  match i with malformedItem _ => true | entryItem _ _ => false end.

Definition configText (first : ConfigItem) (more : list (char * ConfigItem))
  : jsstring :=
  itemText first ++ flat_map (λ ci, ci.1 :: itemText ci.2) more.

(** What an item adds to the map: an entry whose trimmed domain, in lower
    case, and trimmed target are not empty sets the target for that key
    (the key that a plain object refuses aside); any other item adds
    nothing. *)
Definition loadItem (m : gmap jsstring jsstring) (i : ConfigItem)
  : gmap jsstring jsstring :=
  match i with
  | entryItem domain target =>
      let key := toLowerCase (trim domain) in
      if truthy key && truthy (trim target)
         && negb (bool_decide (key = js "__proto__"))
      then <[key := trim target]> m
      else m
  | malformedItem _ => m
  end.

(** ** Responses of the CRM, read without patterns

    The rules by which a response is classified, written as a scan of the
    body.  A tag is recognised in any letter case; white space may stand
    between a tag and what it encloses. *)

(** The longest run of characters of the class [p] at the start of [s],
    and what stands behind it. *)
Fixpoint leading (p : char → bool) (s : jsstring) : jsstring :=
  match s with
  | c :: t => if p c then c :: leading p t else []
  | [] => []
  end.

Fixpoint behind (p : char → bool) (s : jsstring) : jsstring :=
  match s with
  | c :: t => if p c then behind p t else s
  | [] => []
  end.

(** The same character, the case of a Basic Latin letter ignored. *)
Definition sameLetter (a b : char) : bool := lowerChar a =? lowerChar b.

(** [s] starts with the text [tag], in any letter case: what follows it. *)
Fixpoint spec_after (tag s : jsstring) : option jsstring :=
  match tag, s with
  | [], _ => Some s
  | a :: tag', b :: s' => if sameLetter a b then spec_after tag' s' else None
  | _ :: _, [] => None
  end.

(** The first place in [s], from the left, at which [f] finds something. *)
Fixpoint spec_first {A : Type} (f : jsstring → option A) (s : jsstring)
  : option A :=
  match f s with
  | Some a => Some a
  | None =>
      match s with
      | _ :: t => spec_first f t
      | [] => None
      end
  end.

(** An integer result at the start of [s]: the opening tag, a run of
    decimal digits, the closing tag.  The result is the run of digits. *)
Definition spec_intAt (s : jsstring) : option jsstring :=
  s1 ← spec_after (js "<int>") s;
  let digits := leading isDigit (trimStart s1) in
  if truthy digits then
    s2 ← spec_after (js "</int>") (trimStart (behind isDigit (trimStart s1)));
    Some digits
  else None.

(** A boolean result at the start of [s]: the opening tag, one decimal
    digit, the closing tag. *)
Definition spec_booleanAt (s : jsstring) : option jsstring :=
  s1 ← spec_after (js "<boolean>") s;
  match trimStart s1 with
  | d :: s2 =>
      if isDigit d then
        s3 ← spec_after (js "</boolean>") (trimStart s2);
        Some [d]
      else None
  | [] => None
  end.

(** The payload at the start of [s]: the text up to the first place from
    which only white space stands before the closing string tag. *)
Fixpoint spec_payload (s : jsstring) : option jsstring :=
  match spec_after (js "</string>") (trimStart s), s with
  | Some _, _ => Some []
  | None, c :: t => cons c <$> spec_payload t
  | None, [] => None
  end.

(** A fault string at the start of [s]: the member name [faultString]
    between name tags, then a value tag, a string tag and the payload up to
    the closing string tag. *)
Definition spec_faultAt (s : jsstring) : option jsstring :=
  s1 ← spec_after (js "<name>") s;
  s2 ← spec_after (js "faultString") (trimStart s1);
  s3 ← spec_after (js "</name>") (trimStart s2);
  s4 ← spec_after (js "<value>") (trimStart s3);
  s5 ← spec_after (js "<string>") (trimStart s4);
  spec_payload (trimStart s5).

(** A run of decimal digits that denotes a positive number: one of the
    digits is not 0. *)
Definition spec_positive (digits : jsstring) : bool :=
  existsb (λ d, negb (d =? ch "0")) digits.

(** The classification of a response, rule by rule. *)
Definition spec_validate (response : Response) (data : jsstring)
  : Completion unit :=
  if negb (ok response) then
    Throw (js "HTTP Error: " ++ numberToString (status response)
             ++ js " " ++ statusText response)
  else if includes (js "<fault>") data then
    let faultString :=
      match spec_first spec_faultAt data with
      | Some payload => trim payload
      | None => js "Unknown fault"
      end in
    if includes (js "ValueError: No possible route found for incoming message")
         faultString
    then Throw (js "Mailbox not found or no valid route. Please check the mail alias or CRM configuration.")
    else Throw (js "CRM Error: " ++ faultString)
  else
    match spec_first spec_intAt data with
    | Some digits =>
        if spec_positive digits then Normal tt
        else Throw (js "Invalid record ID received from CRM.")
    | None =>
        match spec_first spec_booleanAt data with
        | Some digit =>
            if bool_decide (digit = js "0")
            then Throw (js "Email rejected by CRM.")
            else Normal tt
        | None => Throw (js "Unexpected response format from CRM.")
        end
    end.

(** ** Headers as the parser leaves them

    The name is not empty, is trimmed and holds no colon; neither the name
    nor the value holds a line feed; the raw text is the name, a colon, a
    space and the value. *)
Definition wellShaped (h : Header) : Prop :=
  name h ≠ [] ∧ trim (name h) = name h ∧ (ch ":" ∉ name h)
  ∧ (LF ∉ name h) ∧ (LF ∉ value h)
  ∧ raw h = name h ++ js ": " ++ value h.

(** ** Reading Base64 back (RFC 4648)

    The decoder that the receiving side applies to the payload: four
    characters of the alphabet give three bytes, and a final group may be
    padded with one or two equals signs. *)
Definition PAD : char := ch "=".

(** The position of a character in the alphabet. *)
Definition sextet (c : char) : option N := N.of_nat <$> indexOf c encodings.

Fixpoint rfc4648_decode (s : jsstring) : option bytes :=
  match s with
  | [] => Some []
  | c0 :: c1 :: c2 :: c3 :: more =>
      s0 ← sextet c0;
      s1 ← sextet c1;
      let b0 := byteOfN (s0 * 4 + s1 / 16) in
      if c2 =? PAD then
        if (c3 =? PAD) && bool_decide (more = []) then Some [b0] else None
      else
        s2 ← sextet c2;
        let b1 := byteOfN ((s1 mod 16) * 16 + s2 / 4) in
        if c3 =? PAD then
          if bool_decide (more = []) then Some [b0; b1] else None
        else
          s3 ← sextet c3;
          let b2 := byteOfN ((s2 mod 4) * 64 + s3) in
          decoded ← rfc4648_decode more;
          Some (b0 :: b1 :: b2 :: decoded)
  | _ => None
  end.

(** ** The worker's run, stage by stage *)

(** The connection options the delivery stage builds from the
    environment. *)
Definition crmOptions (e : Env) : CrmOptions :=
  {| database := orDefault (ODOO_DATABASE e) (js "company");
     userid := orDefault (ODOO_USERID e) (js "2");
     password := orDefault (ODOO_PASSWORD e) (js "password");
     host := orDefault (ODOO_HOST e) (js "crm.example.com");
     port := orDefault (ODOO_PORT e) (js "443");
     protocol := orDefault (ODOO_PROTOCOL e) (js "https") |}.

(** The bytes the stream of the message delivers. *)
Definition delivered (m : ForwardableEmailMessage) : bytes :=
  concat (chunks (message_raw m)).

(** The raw message can be read: the declared size is one a buffer can
    have, the bytes delivered fit into it, and the reader does not fail. *)
Definition readable (m : ForwardableEmailMessage) : bool :=
  match rawSize m with
  | Some size =>
      bool_decide (length (delivered m) ≤ size)%nat
      && negb (readFails (message_raw m))
  | None => false
  end.

(** The bytes the parsing stage reads: what the stream delivers, padded
    with zeros up to the declared size. *)
Definition paddedRaw (m : ForwardableEmailMessage) : bytes :=
  delivered m ++ replicate (default 0%nat (rawSize m) - length (delivered m)) x00.

(** The names of the six processors, in the order of the run. *)
Definition stageNames : list jsstring :=
  [js "SpamCheckProcessor"; js "ParsingProcessor"; js "DomainCollapseProcessor";
   js "SubaddressingProcessor"; js "PreDeliveryProcessor"; js "DeliveryProcessor"].

(** The reasons with which the spam check rejects. *)
Definition spamReasons : list jsstring :=
  [js "Sender is blocked."; js "Sender name is missing.";
   js "Sender name resembles spam pattern."; js "Message contains spam keywords."].

Definition isErrorLine (entry : LogEntry) : bool :=
  match entry with console_error _ _ => true | _ => false end.

(** The recipient as subaddressing leaves it: without a tag, and with the
    display name in double quotes if a tag was removed. *)
Definition untag (r : Recipient) : Recipient :=
  {| rName := rName r;
     rQuoted := match rTag r with Some _ => true | None => rQuoted r end;
     rLocal := rLocal r;
     rTag := None;
     rDomain := rDomain r |}.

(** The domain holds no plus sign. *)
Definition plainDomain (r : Recipient) : bool :=
  forallb (notChar (ch "+")) (rDomain r).

(** The text of [s] before its first [c]; all of [s] when it holds none. *)
Definition upTo (c : char) (s : jsstring) : jsstring :=
  match indexOf c s with Some i => take i s | None => s end.

(** The key under which the domain-collapse stage looks a recipient up:
    its domain up to the next at sign, if there is one, in lower case. *)
Definition collapseKey (r : Recipient) : jsstring :=
  toLowerCase (upTo (ch "@") (rDomain r)).

(** What a lookup in the map gives: the target of the key, or else what
    a plain object inherits under that name. *)
Definition lookupTarget (domainMap : gmap jsstring jsstring) (key : jsstring)
  : option jsstring :=
  match domainMap !! key with
  | Some target => Some target
  | None => inherited key
  end.

(** The address that the domain-collapse stage writes for a recipient: the
    target found for its key, alone or behind the display name in double
    quotes, or the address as it stood. *)
Definition collapsed (domainMap : gmap jsstring jsstring) (r : Recipient)
  : jsstring :=
  match lookupTarget domainMap (collapseKey r) with
  | Some target =>
      if truthy (rName r)
      then [DQUOTE] ++ rName r ++ [DQUOTE] ++ js " <" ++ target ++ js ">"
      else target
  | None => written r
  end.

(** The local part holds no at sign. *)
Definition plainLocal (r : Recipient) : bool :=
  forallb (notChar (ch "@")) (rLocal r).

(** ** Address lists, read without patterns

    The pieces of a header value between the commas that stand outside
    double quotes; a double quote switches the scan into a quoted part or
    out of it. *)
Fixpoint spec_pieces (inQuotes : bool) (s : jsstring) : list jsstring :=
  match s with
  | [] => [[]]
  | c :: t =>
      if (c =? ch ",") && negb inQuotes then [] :: spec_pieces inQuotes t
      else
        match spec_pieces (if c =? DQUOTE then negb inQuotes else inQuotes) t with
        | piece :: more => (c :: piece) :: more
        | [] => [[c]]
        end
  end.

(** The addresses of a header value: its pieces, trimmed; a last piece
    that is blank is left out. *)
Definition spec_addresses (value : jsstring) : list jsstring :=
  let pieces := map trim (spec_pieces false value) in
  if truthy (default [] (last pieces)) then pieces else removelast pieces.

(** An angle-bracket pair at the start of [s]: an opening bracket, the
    text up to the next closing bracket, which is not empty, and behind
    the closing bracket no line terminator.  The text inside the pair. *)
Definition spec_bracket (s : jsstring) : option jsstring :=
  match s with
  | c :: t =>
      let inside := leading (notChar (ch ">")) t in
      match behind (notChar (ch ">")) t with
      | _ :: after =>
          if (c =? ch "<") && truthy inside && forallb dot after
          then Some inside
          else None
      | [] => None
      end
  | [] => None
  end.

(** The angle-bracket pair of an address string, the last one if there
    are several: the text before it, in which no line terminator stands,
    and the text inside it. *)
Fixpoint spec_angle (s : jsstring) : option (jsstring * jsstring) :=
  match s with
  | [] => None
  | c :: t =>
      match (if dot c then spec_angle t else None) with
      | Some (before, inside) => Some (c :: before, inside)
      | None => (λ inside, ([], inside)) <$> spec_bracket s
      end
  end.

(** A display name without the quotes around it: one pair of double or
    of single quotes is taken off a name that starts and ends with it. *)
Definition spec_unquote (n : jsstring) : jsstring :=
  match n with
  | q :: t =>
      if ((q =? DQUOTE) || (q =? SQUOTE)) && bool_decide (last n = Some q)
      then removelast t
      else n
  | [] => []
  end.

(** Display name and mailbox of an address string: with an angle-bracket
    pair, the trimmed text before it, unquoted, and the trimmed text
    inside it; without one, no display name and the trimmed string. *)
Definition spec_parse (piece : jsstring) : jsstring * jsstring :=
  match spec_angle piece with
  | Some (before, inside) => (spec_unquote (trim before), trim inside)
  | None => ([], trim piece)
  end.

(** The domain of a mailbox as the stage takes it: of the text after the
    first at sign, the part before the next one. *)
Definition spec_key (mailbox : jsstring) : jsstring :=
  upTo (ch "@") (spec_domain mailbox).

(** What the stage writes for an address string: if a target is found for
    its domain in lower case, the target, alone or behind the display name
    in double quotes; or else the address string as it stood. *)
Definition spec_collapse (domainMap : gmap jsstring jsstring) (piece : jsstring)
  : jsstring :=
  match lookupTarget domainMap (toLowerCase (spec_key (spec_parse piece).2)) with
  | Some target =>
      if truthy (spec_parse piece).1
      then [DQUOTE] ++ (spec_parse piece).1 ++ [DQUOTE]
             ++ js " <" ++ target ++ js ">"
      else target
  | None => piece
  end.

(** What domain collapse with the map [domainMap] makes of a header [h]:
    the header [h'] has the name of [h]; if the name is To, Cc or Bcc in
    any letter case, its raw form is made of its name and value, its value
    lists, joined with a comma and a space, what [spec_collapse] gives for
    the addresses of [h], and so, if [h] lists recipients, what
    [collapsed] gives for them; any other header is left as it is. *)
Definition collapsedHeader (domainMap : gmap jsstring jsstring) (h h' : Header)
  : Prop :=
  name h' = name h
  ∧ if bool_decide (toLowerCase (name h) ∈ [js "to"; js "cc"; js "bcc"])
    then raw h' = name h ++ js ": " ++ value h'
         ∧ value h'
           = join (js ", ")
               (map (spec_collapse domainMap) (spec_addresses (value h)))
         ∧ ∀ rs, value h = join (js ", ") (map written rs) →
                 forallb wellFormed rs = true →
                 forallb plainLocal rs = true →
                 value h' = join (js ", ") (map (collapsed domainMap) rs)
    else h' = h.

(** ** Messages in serialised form *)

(** A header pair that serialises to a clean line of well-formed text. *)
Definition plainPair (nv : jsstring * jsstring) : Prop :=
  canonical nv ∧ scalarString nv.1 ∧ scalarString nv.2.

(** The text of a message: its header lines, an empty line, its body. *)
Definition messageText (pairs : list (jsstring * jsstring)) (bodyText : jsstring)
  : jsstring :=
  join [CR; LF] (map headerLine pairs) ++ [CR; LF; CR; LF] ++ bodyText.

Definition headerOf (nv : jsstring * jsstring) : Header := mkHeader nv.1 nv.2.

(** The bytes that the stages before delivery make of a message: it is
    read, parsed, passed through the two rewriting stages and serialised
    again. *)
Definition preparedMessage (m : ForwardableEmailMessage) (e : Env)
  : option bytes :=
  parsed ← parseEmail (paddedRaw m);
  let c1 :=
    {| message := m; env := e; rawEmail := Some (paddedRaw m);
       parsedEmail := Some parsed; finalRawEmail := None |} in
  let c2 := (DomainCollapseProcessor_process c1).2 in
  let c3 := (SubaddressingProcessor_process c2).2 in
  rewritten ← parsedEmail c3;
  reSerialiseEmail (headers rewritten) (body rewritten).

(** An example: a message to a tagged recipient, as it arrives. *)
Definition taggedRaw : bytes :=
  TextEncoder_encode
    (messageText
       [(js "From", js "Alice <alice@example.org>");
        (js "To", js "bob+news@example.com");
        (js "Subject", js "Hello")]
       (js "Hi Bob," ++ [CR; LF] ++ js "bye.")).

Definition taggedMessage : ForwardableEmailMessage :=
  inbound (js "Alice <alice@example.org>") (js "Hello") [taggedRaw]
    (length taggedRaw).
(** * Properties *)

(** ** [streamToArrayBuffer] *)

Lemma typedArraySet_fits (pre value : bytes) (k : nat) :
  (length value ≤ k)%nat →
  typedArraySet (pre ++ replicate k x00) value (length pre)
  = Some ((pre ++ value) ++ replicate (k - length value) x00).
Proof.
  intros Hfit. unfold typedArraySet.
  rewrite length_app, length_replicate.
  destruct (decide _) as [_|Hno]; [|lia].
  f_equal.
  replace (length pre) with (length pre + 0)%nat at 1 by lia.
  rewrite list_inserts_app_r, <- (assoc_L (++)). f_equal.
  replace k with (length value + (k - length value))%nat at 1 by lia.
  rewrite replicate_add.
  apply list_inserts_0_r. by rewrite length_replicate.
Qed.

Lemma typedArraySet_overflow (pre value : bytes) (k : nat) :
  (k < length value)%nat →
  typedArraySet (pre ++ replicate k x00) value (length pre) = None.
Proof.
  intros Hover. unfold typedArraySet.
  rewrite length_app, length_replicate.
  destruct (decide _); [lia|done].
Qed.

(** The loop invariant: the buffer is the bytes copied so far followed by
    the zeros it was created with. *)
Lemma readLoop_spec (chunks : list bytes) (pre : bytes) (k : nat) :
  readLoop chunks (pre ++ replicate k x00) (length pre)
  = if decide (length (concat chunks) ≤ k)%nat
    then Some (pre ++ concat chunks
                 ++ replicate (k - length (concat chunks)) x00)
    else None.
Proof.
  revert pre k. induction chunks as [|value rest IH]; intros pre k; simpl.
  - by rewrite Nat.sub_0_r.
  - rewrite length_app.
    destruct (decide (length value ≤ k)%nat) as [Hfit|Hover].
    + rewrite typedArraySet_fits by done. simpl.
      rewrite <- length_app, IH.
      repeat case_decide; try lia; [|done].
      rewrite <- !(assoc_L (++)), Nat.sub_add_distr. done.
    + rewrite typedArraySet_overflow by lia. simpl.
      case_decide; [lia|done].
Qed.

(** C10.  The buffer is created with the declared size and is never
    resized.  When the stream delivers no more bytes than declared, the
    call returns the delivered bytes followed by zero bytes up to the
    declared size, so its length is the declared size; when the stream
    delivers more, the copy faults and nothing is returned. *)
Theorem streamToArrayBuffer_declared_size (stream : list bytes) (streamSize : nat) :
  let delivered := concat stream in
  streamToArrayBuffer stream streamSize
  = (if decide (length delivered ≤ streamSize)%nat
     then Some (delivered ++ replicate (streamSize - length delivered) x00)
     else None)
  ∧ from_option (λ result, length result = streamSize) True
      (streamToArrayBuffer stream streamSize).
Proof.
  intros delivered. unfold streamToArrayBuffer.
  pose proof (readLoop_spec stream [] streamSize) as Hloop.
  simpl in Hloop. rewrite Hloop. split; [done|].
  case_decide; simpl; [|done].
  rewrite length_app, length_replicate. lia.
Qed.

Example streamToArrayBuffer_short :
  streamToArrayBuffer [[x41; x42]; [x43]] 5 = Some [x41; x42; x43; x00; x00].
Proof. reflexivity. Qed.

Example streamToArrayBuffer_long :
  streamToArrayBuffer [[x41; x42]; [x43]] 2 = None.
Proof. reflexivity. Qed.

(** ** The pipeline runner *)

Section Runner.
Context {C : Type}.
Implicit Types (p : Processor C) (ps pre later : list (Processor C)) (c : C).

Lemma runProcessors_reject p later c result c1 :
  process p c = Returned result c1 →
  canContinue result = false →
  runProcessors (p :: later) c
  = {| finalContext := c1;
       setReject := Some (orDefault (rejectReason result)
                            (js "Message rejected by processor."));
       console := [rejectionWarning p result];
       executed := [constructorName p] |}.
Proof. intros Hp Hr. simpl. by rewrite Hp, Hr. Qed.

Lemma runProcessors_continue p later c result c1 :
  process p c = Returned result c1 →
  canContinue result = true →
  let run := runProcessors later c1 in
  runProcessors (p :: later) c
  = {| finalContext := finalContext run; setReject := setReject run;
       console := console run;
       executed := constructorName p :: executed run |}.
Proof. intros Hp Hr. simpl. by rewrite Hp, Hr. Qed.

Lemma runProcessors_raise p later c err c1 :
  process p c = Raised err c1 →
  let run := runProcessors later c1 in
  runProcessors (p :: later) c
  = {| finalContext := finalContext run; setReject := setReject run;
       console := faultError p err :: console run;
       executed := constructorName p :: executed run |}.
Proof. intros Hp. simpl. by rewrite Hp. Qed.

(** The processors that ran are an initial segment of the list. *)
Lemma executed_prefix ps c :
  executed (runProcessors ps c) `prefix_of` map constructorName ps.
Proof.
  revert c. induction ps as [|p later IH]; intros c; simpl; [done|].
  destruct (process p c) as [result c1|err c1].
  - destruct (canContinue result); simpl.
    + by apply prefix_cons.
    + apply prefix_cons, prefix_nil.
  - simpl. by apply prefix_cons.
Qed.

Lemma passes_run pre later c c1 :
  passes pre c c1 →
  let run := runProcessors later c1 in
  let whole := runProcessors (pre ++ later) c in
  finalContext whole = finalContext run
  ∧ setReject whole = setReject run
  ∧ executed whole = map constructorName pre ++ executed run.
Proof.
  induction 1 as [c|p ps c c1 c2 result Hp Hr _ IH|p ps c c1 c2 err Hp _ IH];
    simpl; [done| |].
  - rewrite Hp, Hr. simpl. destruct IH as (-> & -> & ->). done.
  - rewrite Hp. simpl. destruct IH as (-> & -> & ->). done.
Qed.

End Runner.



(** The worker's own chain on example messages: a blocked sender stops at
    the first processor; a stream longer than its declared size stops at
    the second; a clean message runs through all six. *)
Example email_blocked_sender :
  let run :=
    email (crmAnswering {| ok := true; status := 200; statusText := js "OK" |} [])
      (inbound (js "Test <spam@example.com>") (js "Hi") [exampleRaw]
         (length exampleRaw))
      noEnv in
  setReject run = Some (js "Sender is blocked.")
  ∧ executed run = [js "SpamCheckProcessor"].
Proof. vm_compute. done. Qed.

Example email_oversized_stream :
  let run :=
    email (crmAnswering {| ok := true; status := 200; statusText := js "OK" |} [])
      (inbound (js "Alice <alice@example.com>") (js "Hello") [exampleRaw] 10)
      noEnv in
  setReject run = Some (js "Unable to process email data.")
  ∧ executed run = [js "SpamCheckProcessor"; js "ParsingProcessor"].
Proof. vm_compute. done. Qed.

(** A reader that fails after the last chunk, and a declared size for
    which no buffer can be allocated, stop the run at the second processor
    as well. *)
Example email_unreadable_stream :
  let fetch :=
    crmAnswering {| ok := true; status := 200; statusText := js "OK" |} [] in
  let arrived :=
    inbound (js "Alice <alice@example.com>") (js "Hello") [exampleRaw]
      (length exampleRaw) in
  let failing :=
    {| headers_get := headers_get arrived;
       message_raw := {| chunks := [exampleRaw]; readFails := true |};
       rawSize := rawSize arrived |} in
  let unsized :=
    {| headers_get := headers_get arrived;
       message_raw := message_raw arrived;
       rawSize := None |} in
  setReject (email fetch failing noEnv) = Some (js "Unable to process email data.")
  ∧ setReject (email fetch unsized noEnv) = Some (js "Unable to process email data.")
  ∧ executed (email fetch failing noEnv)
    = [js "SpamCheckProcessor"; js "ParsingProcessor"].
Proof. vm_compute. done. Qed.

Example email_delivered :
  let run :=
    email (crmAnswering {| ok := true; status := 200; statusText := js "OK" |}
             (js "<value><int>42</int></value>"))
      (inbound (js "Alice <alice@example.com>") (js "Hello") [exampleRaw]
         (length exampleRaw))
      noEnv in
  setReject run = None
  ∧ executed run = map constructorName (processors
                     (crmAnswering {| ok := true; status := 200; statusText := js "OK" |} []))
  ∧ (headers <$> parsedEmail (finalContext run))
    = Some [mkHeader (js "From") (js "Alice <alice@example.com>");
            mkHeader (js "To") (js "bob@example.com");
            mkHeader (js "Subject") (js "[newsletter] Hello")].
Proof. vm_compute. done. Qed.

Example email_delivery_refused :
  let run :=
    email (crmAnswering {| ok := true; status := 200; statusText := js "OK" |}
             (js "<value><boolean>0</boolean></value>"))
      (inbound (js "Alice <alice@example.com>") (js "Hello") [exampleRaw]
         (length exampleRaw))
      noEnv in
  setReject run
  = Some (js "Unable to deliver to CRM. Unable to communicate with CRM server: Email rejected by CRM.").
Proof. vm_compute. done. Qed.

(** ** Facts about the string operations *)

Lemma truthy_true (s : jsstring) : truthy s = true ↔ s ≠ [].
Proof. destruct s; simpl; split; congruence. Qed.

Lemma trimStart_length (s : jsstring) : (length (trimStart s) ≤ length s)%nat.
Proof.
  induction s as [|c t IH]; simpl; [done|].
  destruct (isWhiteSpace c); simpl; lia.
Qed.

Lemma trimStart_idemp (s : jsstring) : trimStart (trimStart s) = trimStart s.
Proof.
  induction s as [|c t IH]; simpl; [done|].
  destruct (isWhiteSpace c) eqn:Hc; [done|]. simpl. by rewrite Hc.
Qed.

Lemma trimStart_app (a b : jsstring) :
  trimStart (a ++ b)
  = if truthy (trimStart a) then trimStart a ++ b else trimStart b.
Proof.
  induction a as [|c t IH]; simpl; [done|].
  destruct (isWhiteSpace c); [done|]. done.
Qed.

(** [trimEnd] by recursion from the front. *)
Lemma trimEnd_cons (c : char) (t : jsstring) :
  trimEnd (c :: t)
  = if truthy (trimEnd t) || negb (isWhiteSpace c) then c :: trimEnd t else [].
Proof.
  unfold trimEnd. simpl. rewrite trimStart_app.
  destruct (trimStart (rev t)) as [|x r] eqn:Hr; simpl.
  - destruct (isWhiteSpace c); done.
  - rewrite rev_app_distr. simpl.
    destruct (rev r ++ [x]) eqn:Hx; [|done].
    by destruct (rev r).
Qed.

Lemma trimEnd_idemp (s : jsstring) : trimEnd (trimEnd s) = trimEnd s.
Proof. unfold trimEnd. by rewrite rev_involutive, trimStart_idemp. Qed.

Lemma trimStart_trimEnd_swap (s : jsstring) :
  trimStart (trimEnd (trimStart s)) = trimEnd (trimStart s).
Proof.
  destruct (trimStart s) as [|c t] eqn:Hs; [done|].
  assert (isWhiteSpace c = false) as Hc.
  { clear -Hs. induction s as [|x s IH]; simpl in Hs; [done|].
    destruct (isWhiteSpace x) eqn:Hx; [by apply IH|]. congruence. }
  rewrite trimEnd_cons, Hc, orb_true_r. simpl. by rewrite Hc.
Qed.

Lemma trim_idemp (s : jsstring) : trim (trim s) = trim s.
Proof. unfold trim. by rewrite trimStart_trimEnd_swap, trimEnd_idemp. Qed.

Lemma trimStart_trim (s : jsstring) : trimStart (trim s) = trim s.
Proof. apply trimStart_trimEnd_swap. Qed.

(** A trimmed, non-empty string starts with a character that is not white
    space. *)
Lemma trim_head (s : jsstring) (c : char) (t : jsstring) :
  trim s = c :: t → isWhiteSpace c = false.
Proof.
  intros Hs. pose proof (trimStart_trim s) as Hfix. rewrite Hs in Hfix.
  simpl in Hfix. destruct (isWhiteSpace c); [|done].
  pose proof (trimStart_length t) as Hlen. rewrite Hfix in Hlen.
  simpl in Hlen. lia.
Qed.

Lemma trim_space (v : jsstring) : trim (SP :: v) = trim v.
Proof. done. Qed.

Lemma Forall_trimStart (P : char → Prop) (s : jsstring) :
  Forall P s → Forall P (trimStart s).
Proof.
  induction 1 as [|c t Hc Ht IH]; simpl; [done|].
  destruct (isWhiteSpace c); [done|]. by constructor.
Qed.

Lemma Forall_trim (P : char → Prop) (s : jsstring) :
  Forall P s → Forall P (trim s).
Proof.
  intros Hs. unfold trim, trimEnd.
  apply Forall_rev, Forall_trimStart, Forall_rev. by apply Forall_trimStart.
Qed.

Lemma indexOf_Some (c : char) (s : jsstring) (i : nat) :
  indexOf c s = Some i →
  (c ∉ take i s) ∧ s = take i s ++ c :: drop (i + 1) s.
Proof.
  revert i. induction s as [|x t IH]; intros i; simpl; [done|].
  destruct (N.eqb_spec x c) as [->|Hne].
  - intros [= <-]. simpl. split; [apply not_elem_of_nil|]. by rewrite drop_0.
  - destruct (indexOf c t) as [j|] eqn:Hj; simpl; [|done].
    intros [= <-]. destruct (IH j eq_refl) as [Hnot Heq]. simpl. split.
    + rewrite not_elem_of_cons. split; [congruence|done].
    + congruence.
Qed.

Lemma indexOf_None (c : char) (s : jsstring) :
  indexOf c s = None ↔ c ∉ s.
Proof.
  induction s as [|x t IH]; simpl.
  - split; [intros _; apply not_elem_of_nil|done].
  - destruct (N.eqb_spec x c) as [->|Hne].
    + split; [done|]. intros []. by left.
    + rewrite not_elem_of_cons. destruct (indexOf c t); simpl.
      * split; [done|]. intros [_ H]. by apply IH in H.
      * split; [|done]. intros _. split; [congruence|]. by apply IH.
Qed.

Lemma indexOf_app (c : char) (a b : jsstring) :
  c ∉ a → indexOf c (a ++ c :: b) = Some (length a).
Proof.
  induction a as [|x t IH]; simpl; intros Hnot.
  - by rewrite N.eqb_refl.
  - apply not_elem_of_cons in Hnot as [Hne Hnot].
    destruct (N.eqb_spec x c) as [->|_]; [done|].
    by rewrite IH.
Qed.

Lemma splitAcc_app (c : char) (cur a b : jsstring) :
  c ∉ a →
  splitAcc c cur (a ++ c :: b) = (rev cur ++ a) :: splitAcc c [] b.
Proof.
  revert cur. induction a as [|x t IH]; intros cur Hnot; simpl.
  - by rewrite N.eqb_refl, app_nil_r.
  - apply not_elem_of_cons in Hnot as [Hne Hnot].
    destruct (N.eqb_spec x c) as [->|_]; [done|].
    rewrite IH by done. simpl. by rewrite <- (assoc_L (++)).
Qed.

Lemma split_app (c : char) (a b : jsstring) :
  c ∉ a → split c (a ++ c :: b) = a :: split c b.
Proof. intros. unfold split. by rewrite splitAcc_app. Qed.

Lemma split_cons_sep (c : char) (b : jsstring) :
  split c (c :: b) = [] :: split c b.
Proof. apply (split_app c [] b), not_elem_of_nil. Qed.

Lemma elem_of_rev (c : char) (s : jsstring) : c ∈ rev s ↔ c ∈ s.
Proof. rewrite !list_elem_of_In. symmetry. apply in_rev. Qed.

(** The pieces of a split do not contain the separator. *)
Lemma splitAcc_pieces (c : char) (cur s : jsstring) :
  c ∉ cur → Forall (λ piece, c ∉ piece) (splitAcc c cur s).
Proof.
  revert cur. induction s as [|x t IH]; intros cur Hcur; simpl.
  - constructor; [|done]. by rewrite elem_of_rev.
  - destruct (N.eqb_spec x c) as [->|Hne].
    + constructor; [by rewrite elem_of_rev|]. apply IH, not_elem_of_nil.
    + apply IH. rewrite not_elem_of_cons. split; [congruence|done].
Qed.

Lemma split_pieces (c : char) (s : jsstring) :
  Forall (λ piece, c ∉ piece) (split c s).
Proof. apply splitAcc_pieces, not_elem_of_nil. Qed.

Lemma replaceCRLF_line (l rest : jsstring) :
  LF ∉ l →
  replaceCRLF (l ++ CR :: LF :: rest) = l ++ LF :: replaceCRLF rest.
Proof.
  induction l as [|c t IH]; intros Hnot.
  - done.
  - apply not_elem_of_cons in Hnot as [Hne Hnot]. simpl.
    rewrite IH by done.
    destruct (N.eqb_spec c CR) as [->|_]; [|done]. simpl.
    destruct t as [|d t']; simpl; [done|].
    apply not_elem_of_cons in Hnot as [Hd _].
    destruct (N.eqb_spec d LF) as [->|_]; [done|]. done.
Qed.

(** ** The parsing loop and the parser as specified *)

Lemma searchFrom_foldRegex_later (p : nat) (s : jsstring) :
  searchFrom false foldRegex (S p) s = None.
Proof.
  revert p. induction s as [|c t IH]; intros p; simpl; [done|]. apply IH.
Qed.

Lemma foldRegex_test (line : jsstring) :
  test false foldRegex line = spec_isContinuation line.
Proof.
  unfold test, exec. destruct line as [|c t]; simpl; [done|].
  unfold step1. simpl.
  destruct ((c =? SP) || (c =? TAB)); [done|].
  by rewrite searchFrom_foldRegex_later.
Qed.

Lemma pushCurrent_headersFrom (st : ParseState) :
  pushCurrent st
  = st_headers st ++ headersFrom (currentHeaderName st) (currentHeaderValue st) [].
Proof.
  unfold pushCurrent, headersFrom. simpl.
  rewrite filter_cons. simpl.
  destruct (truthy (currentHeaderName st)) eqn:Hn.
  - rewrite decide_True by done. done.
  - rewrite decide_False by congruence. by rewrite app_nil_r.
Qed.

(** One iteration on a header line that is not blank. *)
Lemma parseLine_header_line (st : ParseState) (line : jsstring) :
  isHeaderSection st = true →
  spec_isBlank line = false →
  parseLine st line
  = if spec_isContinuation line then
      {| st_headers := st_headers st;
         st_bodyLines := st_bodyLines st;
         isHeaderSection := true;
         currentHeaderName := currentHeaderName st;
         currentHeaderValue := currentHeaderValue st ++ [SP] ++ trim line |}
    else
      {| st_headers := pushCurrent st;
         st_bodyLines := st_bodyLines st;
         isHeaderSection := true;
         currentHeaderName := (spec_splitColon line).1;
         currentHeaderValue := (spec_splitColon line).2 |}.
Proof.
  intros Hmode Hline. unfold spec_isBlank in Hline.
  unfold parseLine. rewrite Hmode, Hline, foldRegex_test.
  destruct (spec_isContinuation line); [done|].
  unfold spec_splitColon. by destruct (indexOf (ch ":") line).
Qed.

Lemma parseLine_header_section (section : list jsstring) (st : ParseState) :
  isHeaderSection st = true →
  Forall (λ line, spec_isBlank line = false) section →
  isHeaderSection (fold_left parseLine section st) = true
  ∧ st_bodyLines (fold_left parseLine section st) = st_bodyLines st
  ∧ pushCurrent (fold_left parseLine section st)
    = st_headers st
        ++ headersFrom (currentHeaderName st) (currentHeaderValue st) section.
Proof.
  revert st. induction section as [|line more IH]; intros st Hmode Hlines.
  - simpl. split; [done|]. split; [done|]. apply pushCurrent_headersFrom.
  - apply Forall_cons in Hlines as [Hline Hmore].
    cbn [fold_left]. rewrite (parseLine_header_line st line Hmode Hline).
    destruct (spec_isContinuation line) eqn:Hcont.
    + match goal with |- context [fold_left parseLine more ?s] =>
        destruct (IH s eq_refl Hmore) as (H1 & H2 & H3) end.
      split; [exact H1|]. split; [exact H2|]. rewrite H3. simpl.
      unfold headersFrom. simpl. by rewrite Hcont.
    + match goal with |- context [fold_left parseLine more ?s] =>
        destruct (IH s eq_refl Hmore) as (H1 & H2 & H3) end.
      split; [exact H1|]. split; [exact H2|]. rewrite H3.
      cbn [st_headers currentHeaderName currentHeaderValue].
      rewrite pushCurrent_headersFrom, <- (assoc_L (++)). f_equal.
      unfold headersFrom. rewrite <- map_app, <- filter_app. do 2 f_equal.
      cbn [spec_group fold_right]. fold (spec_group more). rewrite Hcont.
      cbn [fst snd map app spec_unfold fold_left]. f_equal.
      unfold spec_header. cbn [fst snd].
      by destruct (spec_splitColon line).
Qed.

Lemma parseLine_body_section (lines : list jsstring) (st : ParseState) :
  isHeaderSection st = false →
  fold_left parseLine lines st
  = {| st_headers := st_headers st;
       st_bodyLines := st_bodyLines st ++ lines;
       isHeaderSection := false;
       currentHeaderName := currentHeaderName st;
       currentHeaderValue := currentHeaderValue st |}.
Proof.
  revert st. induction lines as [|line more IH]; intros st Hmode.
  - simpl. rewrite app_nil_r. destruct st; simpl in *; by subst.
  - cbn [fold_left]. unfold parseLine at 2. rewrite Hmode.
    rewrite IH by done. simpl. by rewrite <- (assoc_L (++)).
Qed.

Lemma spec_headerSection_nonblank (lines : list jsstring) :
  Forall (λ line, spec_isBlank line = false) (spec_headerSection lines).
Proof.
  induction lines as [|line more IH]; simpl; [done|].
  destruct (spec_isBlank line) eqn:Hb; [done|]. by constructor.
Qed.

Lemma lines_sections (lines : list jsstring) :
  let section := spec_headerSection lines in
  let rest := spec_bodySection lines in
  (lines = section ∧ rest = [])
  ∨ ∃ blank, spec_isBlank blank = true ∧ lines = section ++ blank :: rest.
Proof.
  induction lines as [|line more IH]; simpl; [by left|].
  destruct (spec_isBlank line) eqn:Hb.
  - right. by exists line.
  - destruct IH as [[IH1 IH2]|(blank & Hblank & IH)].
    + left. split; [by f_equal|done].
    + right. exists blank. split; [done|]. simpl. by f_equal.
Qed.

Lemma headersFrom_start (section : list jsstring) :
  headersFrom [] [] section = spec_headers section.
Proof. unfold headersFrom, spec_headers. by rewrite filter_cons. Qed.

Lemma parseText_spec (text : jsstring) :
  let lines := split LF (replaceCRLF text) in
  parseText text
  = {| headers := spec_headers (spec_headerSection lines);
       body := TextEncoder_encode (join [LF] (spec_bodySection lines)) |}.
Proof.
  intros lines. unfold parseText. fold lines. clearbody lines.
  pose proof (spec_headerSection_nonblank lines) as Hnb.
  pose proof (lines_sections lines) as Hsec. simpl in Hsec.
  revert Hnb Hsec.
  generalize (spec_headerSection lines) (spec_bodySection lines).
  intros section rest Hnb [[-> ->]|(blank & Hblank & ->)].
  - destruct (parseLine_header_section section initialParseState eq_refl Hnb)
      as (H1 & H2 & H3).
    simpl in H2, H3. rewrite H1, H2, andb_true_r. f_equal.
    by rewrite <- headersFrom_start, <- H3.
  - destruct (parseLine_header_section section initialParseState eq_refl Hnb)
      as (H1 & H2 & H3).
    simpl in H2, H3. rewrite fold_left_app. cbn [fold_left].
    set (st1 := fold_left parseLine section initialParseState) in *.
    assert (parseLine st1 blank
            = {| st_headers := pushCurrent st1;
                 st_bodyLines := st_bodyLines st1;
                 isHeaderSection := false;
                 currentHeaderName := currentHeaderName st1;
                 currentHeaderValue := currentHeaderValue st1 |}) as ->.
    { unfold parseLine. unfold spec_isBlank in Hblank.
      by rewrite H1, Hblank. }
    rewrite parseLine_body_section by done. simpl.
    by rewrite andb_false_r, H2, H3, headersFrom_start.
Qed.

Lemma parseEmail_sections (rawEmail : bytes) :
  parseEmail rawEmail
  = Some {| headers := spec_headers (spec_headerSection (linesOf rawEmail));
            body := TextEncoder_encode
                      (join [LF] (spec_bodySection (linesOf rawEmail))) |}.
Proof.
  unfold parseEmail, TextDecoder_decode. simpl. f_equal.
  apply parseText_spec.
Qed.



(** ** UTF-8: decoding what was encoded *)

Lemma to_N_byteOfN (n : N) : n < 256 → Byte.to_N (byteOfN n) = n.
Proof.
  intros Hn. unfold byteOfN.
  destruct (Byte.of_N n) as [b|] eqn:Hb; simpl.
  - by apply Byte.to_of_N.
  - apply Byte.of_N_None_iff in Hb. lia.
Qed.

Lemma isScalar_spec (c : char) :
  isScalar c = true ↔ c < 0xD800 ∨ (0xDFFF < c ∧ c <= 0x10FFFF).
Proof.
  unfold isScalar. rewrite orb_true_iff, andb_true_iff.
  rewrite !N.ltb_lt, N.leb_le. done.
Qed.

(** The decoder on a well-formed sequence of one, two, three or four
    bytes. *)
Lemma utf8Items_1 (b0 : byte) (q : bytes) :
  Byte.to_N b0 <= 0x7F →
  utf8Items (b0 :: q) = Some (Byte.to_N b0) :: utf8Items q.
Proof. intros H. decoder_step. by settle_tests. Qed.

Lemma utf8Items_2 (b0 b1 : byte) (q : bytes) :
  0xC2 <= Byte.to_N b0 <= 0xDF →
  0x80 <= Byte.to_N b1 <= 0xBF →
  utf8Items (b0 :: b1 :: q)
  = Some ((Byte.to_N b0 - 0xC0) * 64 + (Byte.to_N b1 - 0x80)) :: utf8Items q.
Proof. intros H0 H1. decoder_step. settle_tests. by settle_tests. Qed.

Lemma utf8Items_3 (b0 b1 b2 : byte) (q : bytes) :
  0xE0 <= Byte.to_N b0 <= 0xEF →
  0x80 <= Byte.to_N b1 <= 0xBF →
  (Byte.to_N b0 = 0xE0 → 0xA0 <= Byte.to_N b1) →
  (Byte.to_N b0 = 0xED → Byte.to_N b1 <= 0x9F) →
  0x80 <= Byte.to_N b2 <= 0xBF →
  utf8Items (b0 :: b1 :: b2 :: q)
  = Some (((Byte.to_N b0 - 0xE0) * 64 + (Byte.to_N b1 - 0x80)) * 64
          + (Byte.to_N b2 - 0x80)) :: utf8Items q.
Proof.
  intros H0 H1 Hlo Hhi H2. decoder_step. do 3 settle_tests; done.
Qed.

Lemma utf8Items_4 (b0 b1 b2 b3 : byte) (q : bytes) :
  0xF0 <= Byte.to_N b0 <= 0xF4 →
  0x80 <= Byte.to_N b1 <= 0xBF →
  (Byte.to_N b0 = 0xF0 → 0x90 <= Byte.to_N b1) →
  (Byte.to_N b0 = 0xF4 → Byte.to_N b1 <= 0x8F) →
  0x80 <= Byte.to_N b2 <= 0xBF →
  0x80 <= Byte.to_N b3 <= 0xBF →
  utf8Items (b0 :: b1 :: b2 :: b3 :: q)
  = Some ((((Byte.to_N b0 - 0xF0) * 64 + (Byte.to_N b1 - 0x80)) * 64
           + (Byte.to_N b2 - 0x80)) * 64 + (Byte.to_N b3 - 0x80))
      :: utf8Items q.
Proof.
  intros H0 H1 Hlo Hhi H2 H3. decoder_step. do 4 settle_tests; done.
Qed.

Lemma utf8Items_encodeChar (c : char) (q : bytes) :
  isScalar c = true →
  utf8Items (encodeChar c ++ q) = Some c :: utf8Items q.
Proof.
  intros Hc. pose proof Hc as Hs. apply isScalar_spec in Hs.
  pose proof (N.div_mod c 64 ltac:(done)) as Hd0.
  pose proof (N.mod_lt c 64 ltac:(done)) as Hm0.
  pose proof (N.div_mod (c / 64) 64 ltac:(done)) as Hd1.
  pose proof (N.mod_lt (c / 64) 64 ltac:(done)) as Hm1.
  pose proof (N.div_mod (c / 64 / 64) 64 ltac:(done)) as Hd2.
  pose proof (N.mod_lt (c / 64 / 64) 64 ltac:(done)) as Hm2.
  unfold encodeChar. rewrite Hc. cbn [negb].
  generalize dependent (c mod 64). generalize dependent (c / 64 mod 64).
  generalize dependent (c / 64 / 64 mod 64).
  generalize dependent (c / 64 / 64 / 64). generalize dependent (c / 64 / 64).
  generalize dependent (c / 64).
  intros a0 a1 a2 r2 Hd2 Hm2 r1 Hd1 Hm1 r0 Hd0 Hm0.
  destruct (N.leb_spec c 0x7F) as [H1|H1];
    [|destruct (N.leb_spec c 0x7FF) as [H2|H2];
       [|destruct (N.leb_spec c 0xFFFF) as [H3|H3]]]; cbn [app].
  - rewrite utf8Items_1; rewrite to_N_byteOfN by lia; [done|lia].
  - rewrite utf8Items_2; rewrite !to_N_byteOfN by lia; [|lia|lia].
    do 2 f_equal. lia.
  - rewrite utf8Items_3; rewrite !to_N_byteOfN by lia; [|lia..].
    do 2 f_equal. lia.
  - rewrite utf8Items_4; rewrite !to_N_byteOfN by lia; [|lia..].
    do 2 f_equal. lia.
Qed.

Lemma utf8Items_encode (s : jsstring) (q : bytes) :
  Forall (λ c, isScalar c = true) s →
  utf8Items (TextEncoder_encode s ++ q) = map Some s ++ utf8Items q.
Proof.
  unfold TextEncoder_encode.
  induction 1 as [|c t Hc _ IH]; cbn [flat_map map app]; [done|].
  by rewrite <- (assoc_L (++)), utf8Items_encodeChar, IH.
Qed.

Lemma decode_encode (s : jsstring) :
  Forall (λ c, isScalar c = true) s →
  TextDecoder_decode false (TextEncoder_encode s) = Some (stripBOM s).
Proof.
  intros Hs. unfold TextDecoder_decode. simpl.
  pose proof (utf8Items_encode s [] Hs) as H.
  rewrite !app_nil_r in H. rewrite H.
  rewrite map_map. simpl. by rewrite map_id.
Qed.

Lemma utf8Items_scalar (q : bytes) :
  Forall (λ c, isScalar c = true) (map (default REPLACEMENT) (utf8Items q)).
Proof.
  remember (length q) as n eqn:Hn.
  revert q Hn. induction (lt_wf n) as [n _ IH]. intros q ->.
  assert (∀ q', (length q' < length q)%nat →
            Forall (λ c, isScalar c = true)
              (map (default REPLACEMENT) (utf8Items q'))) as Hrec.
  { intros q' Hlt. by eapply IH. }
  clear IH.
  assert (∀ c, c < 0xD800 ∨ (0xDFFF < c ∧ c <= 0x10FFFF) → isScalar c = true)
    as Hok by (intros c; apply isScalar_spec).
  destruct q as [|b0 q0]; [constructor|].
  cbn [utf8Items]. cbv zeta. unfold inRange.
  repeat match goal with
    | |- context [?a =? ?b] => destruct (N.eqb_spec a b); cbn [andb]; cbv match
    | |- context [?a <=? ?b] => destruct (N.leb_spec a b); cbn [andb]; cbv match
    | |- context [match ?l with [] => _ | _ :: _ => _ end] =>
        is_var l; destruct l; cbv match
    end;
    cbn [map default from_option id]; repeat constructor;
    try (apply Hok; lia); try (apply Hrec; simpl; lia).
Qed.

Lemma stripBOM_Forall (P : char → Prop) (s : jsstring) :
  Forall P s → Forall P (stripBOM s).
Proof.
  destruct 1 as [|c t Hc Ht]; simpl; [done|].
  destruct (c =? BOM); [done|]. by constructor.
Qed.

(** ** Serialising and parsing again *)

Lemma notin_Forall (c : char) (s : jsstring) :
  c ∉ s ↔ Forall (λ x, x ≠ c) s.
Proof.
  rewrite Forall_forall. split.
  - intros Hnot x Hx ->. done.
  - intros Hall Hin. by apply (Hall c Hin).
Qed.

Lemma notin_trim (c : char) (s : jsstring) : c ∉ s → c ∉ trim s.
Proof. rewrite !notin_Forall. apply Forall_trim. Qed.

Lemma notin_take (c : char) (s : jsstring) (i : nat) : c ∉ s → c ∉ take i s.
Proof. rewrite !notin_Forall. apply Forall_take. Qed.

Lemma notin_drop (c : char) (s : jsstring) (i : nat) : c ∉ s → c ∉ drop i s.
Proof. rewrite !notin_Forall. apply Forall_drop. Qed.

Lemma splitColon_canonical (line : jsstring) :
  LF ∉ line →
  (spec_splitColon line).1 ≠ [] →
  canonical (spec_splitColon line).
Proof.
  intros Hlf Hname. unfold canonical. split; [done|]. revert Hname.
  unfold spec_splitColon.
  destruct (indexOf (ch ":") line) as [idx|] eqn:Hidx; simpl; intros _.
  - apply indexOf_Some in Hidx as [Hcolon _].
    rewrite !trim_idemp.
    auto 10 using notin_trim, notin_take, notin_drop.
  - apply indexOf_None in Hidx. rewrite trim_idemp.
    split; [done|]. split; [done|].
    split; [by apply notin_trim|]. split; [by apply notin_trim|].
    apply not_elem_of_nil.
Qed.

Lemma colon_space : js ": " = [ch ":"; SP].
Proof. reflexivity. Qed.

Lemma not_white_space (c : char) :
  isWhiteSpace c = false →
  ((c =? SP) || (c =? TAB) = false) ∧ ((c =? BOM) = false).
Proof.
  intros Hc.
  destruct (N.eqb_spec c SP) as [->|_]; [by vm_compute in Hc|].
  destruct (N.eqb_spec c TAB) as [->|_]; [by vm_compute in Hc|].
  destruct (N.eqb_spec c BOM) as [->|_]; [by vm_compute in Hc|].
  done.
Qed.

Lemma canonical_line (nv : jsstring * jsstring) :
  canonical nv →
  (LF ∉ headerLine nv)
  ∧ spec_isBlank (headerLine nv) = false
  ∧ spec_isContinuation (headerLine nv) = false
  ∧ spec_splitColon (headerLine nv) = nv.
Proof.
  destruct nv as [n v]. unfold canonical, headerLine. cbn [fst snd].
  rewrite colon_space.
  intros (Hne & Hn & Hv & Hcolon & Hlfn & Hlfv).
  destruct n as [|c t]; [done|].
  pose proof (trim_head _ _ _ Hn) as Hc.
  split; [|split; [|split]].
  - rewrite !not_elem_of_app. split; [done|]. split; [|done].
    apply (bool_decide_unpack _). by vm_compute.
  - unfold spec_isBlank, trim. cbn [app trimStart]. rewrite Hc.
    by rewrite trimEnd_cons, Hc, orb_true_r.
  - cbn [app spec_isContinuation]. by apply not_white_space.
  - unfold spec_splitColon.
    change ((c :: t) ++ [ch ":"; SP] ++ v) with ((c :: t) ++ ch ":" :: SP :: v).
    rewrite indexOf_app by done.
    rewrite take_app_length, <- drop_drop, drop_app_length.
    cbn [drop]. by rewrite Hn, trim_space, Hv.
Qed.

Lemma spec_group_plain (section : list jsstring) :
  Forall (λ line, spec_isContinuation line = false) section →
  spec_group section = ([], map (λ line, (line, [])) section).
Proof.
  induction 1 as [|line more Hline _ IH]; [done|].
  unfold spec_group in *. simpl. by rewrite Hline, IH.
Qed.

Lemma spec_headers_plain (section : list jsstring) :
  Forall (λ line, spec_isContinuation line = false) section →
  spec_headers section
  = map (λ nv, mkHeader nv.1 nv.2)
      (filter (λ nv, truthy nv.1 = true) (map spec_splitColon section)).
Proof.
  intros Hplain. unfold spec_headers, spec_pairs. rewrite spec_group_plain by done.
  simpl. rewrite map_map. do 2 f_equal. apply map_ext. intros line.
  unfold spec_header. simpl. by destruct (spec_splitColon line).
Qed.

Lemma spec_headers_canonical (pairs : list (jsstring * jsstring)) :
  Forall canonical pairs →
  spec_headers (map headerLine pairs) = map (λ nv, mkHeader nv.1 nv.2) pairs.
Proof.
  intros Hcan. rewrite spec_headers_plain.
  - f_equal. induction Hcan as [|nv more Hnv _ IH]; [done|]. simpl.
    destruct (canonical_line nv Hnv) as (_ & _ & _ & ->).
    rewrite filter_cons, IH. destruct Hnv as (Hne & _).
    apply truthy_true in Hne. by rewrite decide_True.
  - apply Forall_map. eapply Forall_impl; [exact Hcan|].
    intros nv Hnv. simpl. by destruct (canonical_line nv Hnv) as (_ & _ & -> & _).
Qed.

Lemma replaceCRLF_blank (rest : jsstring) :
  replaceCRLF (CR :: LF :: CR :: LF :: rest) = LF :: LF :: replaceCRLF rest.
Proof. done. Qed.

Lemma headerSection_serialised (lines : list jsstring) (bodyText : jsstring) :
  Forall (λ line, (LF ∉ line) ∧ spec_isBlank line = false) lines →
  spec_headerSection
    (split LF (replaceCRLF (join [CR; LF] lines ++ [CR; LF; CR; LF] ++ bodyText)))
  = lines.
Proof.
  induction 1 as [|line more [Hlf Hnb] Hmore IH].
  - simpl join. rewrite app_nil_l.
    change ([CR; LF; CR; LF] ++ bodyText) with (CR :: LF :: CR :: LF :: bodyText).
    rewrite replaceCRLF_blank, split_cons_sep. done.
  - destruct more as [|line2 more].
    + simpl join.
      change (line ++ [CR; LF; CR; LF] ++ bodyText)
        with (line ++ CR :: LF :: CR :: LF :: bodyText).
      rewrite replaceCRLF_line by done.
      change (replaceCRLF (CR :: LF :: bodyText)) with (LF :: replaceCRLF bodyText).
      rewrite split_app, split_cons_sep by done.
      cbn [spec_headerSection]. by rewrite Hnb.
    + change (join [CR; LF] (line :: line2 :: more))
        with (line ++ [CR; LF] ++ join [CR; LF] (line2 :: more)).
      rewrite <- !(assoc_L (++)).
      change (line ++ [CR; LF] ++ ?x) with (line ++ CR :: LF :: x).
      rewrite replaceCRLF_line by done.
      rewrite split_app by done. simpl spec_headerSection. rewrite Hnb.
      f_equal. exact IH.
Qed.

Lemma scalar_replaceCRLF (text : jsstring) :
  scalarString text → scalarString (replaceCRLF text).
Proof.
  unfold scalarString. induction 1 as [|c t Hc Ht IH]; simpl; [done|].
  destruct ((c =? CR) && _); [done|]. by constructor.
Qed.

Lemma scalar_splitAcc (c : char) (cur s : jsstring) :
  scalarString cur → scalarString s → Forall scalarString (splitAcc c cur s).
Proof.
  unfold scalarString. intros Hcur Hs. revert cur Hcur.
  induction Hs as [|x t Hx Ht IH]; intros cur Hcur; simpl.
  - constructor; [|done]. by apply Forall_rev.
  - destruct (x =? c).
    + constructor; [by apply Forall_rev|]. by apply IH.
    + apply IH. by constructor.
Qed.

Lemma scalar_split (c : char) (s : jsstring) :
  scalarString s → Forall scalarString (split c s).
Proof. intros. apply scalar_splitAcc; [constructor|done]. Qed.

Lemma scalar_join (sep : jsstring) (parts : list jsstring) :
  scalarString sep → Forall scalarString parts → scalarString (join sep parts).
Proof.
  unfold scalarString. intros Hsep.
  induction 1 as [|p rest Hp Hrest IH]; simpl; [done|].
  destruct rest; [done|]. rewrite !Forall_app. done.
Qed.

Lemma scalar_splitColon (line : jsstring) :
  scalarString line →
  scalarString (spec_splitColon line).1 ∧ scalarString (spec_splitColon line).2.
Proof.
  unfold scalarString, spec_splitColon. intros Hline.
  destruct (indexOf (ch ":") line); simpl.
  - split; apply Forall_trim; [by apply Forall_take|by apply Forall_drop].
  - split; [by apply Forall_trim|done].
Qed.

Lemma scalar_decode (input : bytes) (text : jsstring) :
  TextDecoder_decode false input = Some text → scalarString text.
Proof.
  unfold TextDecoder_decode. simpl. intros [= <-].
  apply stripBOM_Forall, utf8Items_scalar.
Qed.

Lemma headerSection_Forall (P : jsstring → Prop) (lines : list jsstring) :
  Forall P lines → Forall P (spec_headerSection lines).
Proof.
  induction 1 as [|line more Hline _ IH]; simpl; [done|].
  destruct (spec_isBlank line); [done|]. by constructor.
Qed.

(** What the first parse yields when no header line is folded. *)
Lemma parsed_pairs (rawEmail : bytes) :
  Forall (λ line, spec_isContinuation line = false)
    (spec_headerSection (linesOf rawEmail)) →
  ∃ pairs,
    spec_headers (spec_headerSection (linesOf rawEmail))
    = map (λ nv, mkHeader nv.1 nv.2) pairs
    ∧ Forall canonical pairs
    ∧ Forall (λ nv, scalarString nv.1 ∧ scalarString nv.2) pairs.
Proof.
  intros Hplain. eexists. split; [by apply spec_headers_plain|].
  assert (Forall (λ line, (LF ∉ line) ∧ scalarString line)
            (spec_headerSection (linesOf rawEmail))) as Hlines.
  { apply headerSection_Forall. unfold linesOf. apply Forall_and. split.
    - apply split_pieces.
    - apply scalar_split, scalar_replaceCRLF, stripBOM_Forall, utf8Items_scalar. }
  clear Hplain.
  induction Hlines as [|line more [Hlf Hsc] _ [IH1 IH2]]; [done|].
  simpl. rewrite filter_cons. case_decide as Hname; [|done].
  split; constructor; try done.
  - apply splitColon_canonical; [done|]. by apply truthy_true.
  - by apply scalar_splitColon.
Qed.

Lemma stripBOM_serialised (pairs : list (jsstring * jsstring)) (tail : jsstring) :
  Forall canonical pairs →
  stripBOM (join [CR; LF] (map headerLine pairs) ++ CR :: tail)
  = join [CR; LF] (map headerLine pairs) ++ CR :: tail.
Proof.
  intros Hcan. destruct Hcan as [|[n v] more (Hne & Hn & _) _]; [done|].
  simpl in Hne, Hn. destruct n as [|c t]; [done|].
  apply trim_head, not_white_space in Hn as [_ Hc].
  unfold headerLine. destruct more; cbn [map join fst snd app stripBOM];
    by rewrite Hc.
Qed.

Lemma serialised_lines (pairs : list (jsstring * jsstring)) :
  map (λ h, name h ++ js ": " ++ value h) (map (λ nv, mkHeader nv.1 nv.2) pairs)
  = map headerLine pairs.
Proof. rewrite map_map. by apply map_ext. Qed.

(** C7.  When no line of the header section is folded and none lacks a
    colon, parsing, serialising and parsing again gives the header
    name/value pairs of the first parse, in the same order. *)
Theorem parse_serialise_parse (rawEmail : bytes) (p : ParsedEmail) :
  parseEmail rawEmail = Some p →
  Forall (λ line, spec_isContinuation line = false ∧ spec_hasColon line = true)
    (spec_headerSection (linesOf rawEmail)) →
  ∃ final p2,
    reSerialiseEmail (headers p) (body p) = Some final
    ∧ parseEmail final = Some p2
    ∧ map nameValue (headers p2) = map nameValue (headers p).
Proof.
  intros Hparse Hlines.
  rewrite parseEmail_sections in Hparse. injection Hparse as <-.
  cbn [headers body].
  destruct (parsed_pairs rawEmail) as (pairs & -> & Hcan & Hsc).
  { eapply Forall_impl; [exact Hlines|]. by intros line [? _]. }
  set (b := TextEncoder_encode _).
  destruct (TextDecoder_decode false b) as [bodyText|] eqn:Hbody; [|done].
  unfold reSerialiseEmail. rewrite Hbody, serialised_lines.
  cbn [mbind option_bind].
  eexists _, _. split; [reflexivity|].
  unfold parseEmail. rewrite decode_encode.
  - cbn [mbind option_bind]. split; [reflexivity|].
    change ([CR; LF; CR; LF] ++ bodyText) with (CR :: ([LF; CR; LF] ++ bodyText)).
    rewrite stripBOM_serialised by done.
    rewrite parseText_spec. cbn [headers].
    change (CR :: ([LF; CR; LF] ++ bodyText)) with ([CR; LF; CR; LF] ++ bodyText).
    rewrite headerSection_serialised.
    + by rewrite spec_headers_canonical.
    + apply Forall_map. eapply Forall_impl; [exact Hcan|].
      intros nv Hnv. simpl.
      by destruct (canonical_line nv Hnv) as (? & ? & _).
  - unfold scalarString. rewrite !Forall_app. split; [|split].
    + apply scalar_join; [by repeat constructor|].
      apply Forall_map. eapply Forall_impl; [exact Hsc|].
      intros [n v] [Hn Hv]. unfold headerLine, scalarString. cbn [fst snd].
      rewrite colon_space, !Forall_app.
      split; [done|]. split; [by repeat constructor|done].
    + by repeat constructor.
    + by eapply scalar_decode.
Qed.

Example parseEmail_example : parseEmail exampleRaw = Some exampleParsed.
Proof. vm_compute. reflexivity. Qed.

Lemma parse_serialise_parse_witness :
  ∃ final p2,
    reSerialiseEmail (headers exampleParsed) (body exampleParsed) = Some final
    ∧ parseEmail final = Some p2
    ∧ map nameValue (headers p2) = map nameValue (headers exampleParsed).
Proof.
  apply (parse_serialise_parse exampleRaw exampleParsed).
  - vm_compute. reflexivity.
  - vm_compute. repeat constructor.
Defined.

(** A folded header is joined by the first parse and survives the round
    trip; a header line without a colon gets one when serialised. *)
Example parseEmail_folded :
  parseEmail (TextEncoder_encode
                (crlf [js "Subject: a"; js "  b"; js "broken line"; []; js "x"]))
  = Some {| headers := [mkHeader (js "Subject") (js "a b");
                        mkHeader (js "broken line") []];
            body := TextEncoder_encode (js "x") |}.
Proof. vm_compute. reflexivity. Qed.

(** ** The response classification of the CRM client: examples *)

Example validateResponse_http_error :
  validateResponse response502 (resultBody (js "int") (js "42"))
  = Throw (js "HTTP Error: 502 Bad Gateway").
Proof. vm_compute. reflexivity. Qed.

Example validateResponse_no_route :
  validateResponse response200
    (faultBody (js "Traceback: ValueError: No possible route found for incoming message from a@b"))
  = Throw (js "Mailbox not found or no valid route. Please check the mail alias or CRM configuration.").
Proof. vm_compute. reflexivity. Qed.

Example validateResponse_other_fault :
  validateResponse response200 (faultBody (js "  Access Denied "))
  = Throw (js "CRM Error: Access Denied").
Proof. vm_compute. reflexivity. Qed.

Example validateResponse_record_id :
  validateResponse response200 (resultBody (js "int") (js " 42 ")) = Normal tt
  ∧ validateResponse response200 (resultBody (js "int") (js "0"))
    = Throw (js "Invalid record ID received from CRM.").
Proof. split; vm_compute; reflexivity. Qed.

Example validateResponse_boolean :
  validateResponse response200 (resultBody (js "boolean") (js "1")) = Normal tt
  ∧ validateResponse response200 (resultBody (js "boolean") (js "0"))
    = Throw (js "Email rejected by CRM.").
Proof. split; vm_compute; reflexivity. Qed.

Example validateResponse_unexpected :
  validateResponse response200 (js "<methodResponse/>")
  = Throw (js "Unexpected response format from CRM.").
Proof. vm_compute. reflexivity. Qed.

(** ** The spam check on the specification's example sender *)

Lemma quotedFrom_sender :
  match exec false emailRegex quotedFrom with
  | Some m => group 1 m
  | None => quotedFrom
  end = js "xyzabcde@gmail.com".
Proof. vm_compute. reflexivity. Qed.

(** The name the Gmail analysis looks at keeps its quotes, so it is not a
    run of letters and digits. *)
Lemma quotedFrom_name :
  match exec false nameRegex quotedFrom with
  | Some m => trim (group 1 m)
  | None => []
  end = [DQUOTE] ++ js "XyZaBcDe" ++ [DQUOTE]
  ∧ test false alnumRegex ([DQUOTE] ++ js "XyZaBcDe" ++ [DQUOTE]) = false
  ∧ gmailCheck quotedFrom = None.
Proof. repeat split; vm_compute; reflexivity. Qed.

(** C4, on the code.  With the From value of the example, display name in
    quotes, the sender-name rule does not fire: the outcome is that of the
    Subject keyword test alone, so the message continues unless its Subject
    holds a spam keyword. *)
Theorem spam_quoted_name_passes (context : EmailPipelineContext) :
  headers_get (message context) (js "from") = Some quotedFrom →
  SpamCheckProcessor_process context
  = subjectVerdict (headers_get (message context) (js "subject"))
  ∧ rejectReason (SpamCheckProcessor_process context)
    ≠ Some (js "Sender name resembles spam pattern.").
Proof.
  intros Hfrom.
  assert (SpamCheckProcessor_process context
          = subjectVerdict (headers_get (message context) (js "subject")))
    as Heq.
  { unfold SpamCheckProcessor_process. rewrite Hfrom.
    change (orDefault (Some quotedFrom) []) with quotedFrom.
    rewrite quotedFrom_sender.
    change (toLowerCase (js "xyzabcde@gmail.com")) with (js "xyzabcde@gmail.com").
    rewrite bool_decide_eq_false_2
      by (apply (bool_decide_unpack _); by vm_compute).
    change (endsWith (js "@gmail.com") (js "xyzabcde@gmail.com")) with true.
    cbv match. destruct quotedFrom_name as (_ & _ & ->). done. }
  split; [done|]. rewrite Heq. unfold subjectVerdict.
  destruct (existsb _ _); cbn [rejectReason reject continue]; [|done].
  by intros [=].
Qed.

(** Written without quotes, the same sender is rejected by the sender-name
    rule whatever the Subject is. *)
Lemma spam_bare_name_rejected (context : EmailPipelineContext) :
  headers_get (message context) (js "from") = Some bareFrom →
  SpamCheckProcessor_process context
  = reject (js "Sender name resembles spam pattern.").
Proof.
  intros Hfrom. unfold SpamCheckProcessor_process. rewrite Hfrom.
  change (orDefault (Some bareFrom) []) with bareFrom.
  assert (match exec false emailRegex bareFrom with
          | Some m => group 1 m
          | None => bareFrom
          end = js "xyzabcde@gmail.com") as -> by (vm_compute; reflexivity).
  change (toLowerCase (js "xyzabcde@gmail.com")) with (js "xyzabcde@gmail.com").
  rewrite bool_decide_eq_false_2
    by (apply (bool_decide_unpack _); by vm_compute).
  change (endsWith (js "@gmail.com") (js "xyzabcde@gmail.com")) with true.
  cbv match.
  assert (gmailCheck bareFrom
          = Some (reject (js "Sender name resembles spam pattern."))) as ->
    by (vm_compute; reflexivity).
  done.
Qed.

(** ** Subaddressing and duplicate To headers *)

(** C3, on the code.  Every header named To is rewritten, not only the
    first: with two To headers, the second has its tag stripped as well. *)
Theorem subaddressing_rewrites_later_To :
  processSubaddressing
    [mkHeader (js "To") (js "alice@example.com");
     mkHeader (js "To") (js "bob+news@example.com")]
  = (js "news",
     [mkHeader (js "To") (js "alice@example.com");
      mkHeader (js "To") (js "bob@example.com")]).
Proof. vm_compute. reflexivity. Qed.

(** A later To header is re-rendered even when it holds no tag. *)
Example subaddressing_respaces_later_To :
  processSubaddressing
    [mkHeader (js "To") (js "alice@example.com");
     mkHeader (js "To") (js "bob@example.com,carol@example.com")]
  = ([],
     [mkHeader (js "To") (js "alice@example.com");
      mkHeader (js "To") (js "bob@example.com, carol@example.com")]).
Proof. vm_compute. reflexivity. Qed.

(** The example of the specification. *)
Example subaddressing_example :
  let '(tag, hs) :=
    processSubaddressing
      [mkHeader (js "To") (js "bob+newsletter@example.com");
       mkHeader (js "Subject") (js "Hello")] in
  prependSubjectTag hs tag
  = [mkHeader (js "To") (js "bob@example.com");
     mkHeader (js "Subject") (js "[newsletter] Hello")].
Proof. vm_compute. reflexivity. Qed.

(** ** The domain-collapse configuration *)

Lemma trimStart_head (s : jsstring) (c : char) (t : jsstring) :
  trimStart s = c :: t → isWhiteSpace c = false.
Proof.
  induction s as [|x s IH]; simpl; [done|].
  destruct (isWhiteSpace x) eqn:Hx; [done|]. congruence.
Qed.

Lemma trimStart_nil (s : jsstring) :
  trimStart s = [] → Forall (λ c, isWhiteSpace c = true) s.
Proof.
  induction s as [|x s IH]; simpl; [done|].
  destruct (isWhiteSpace x) eqn:Hx; [|done]. intros. constructor; auto.
Qed.

Lemma trim_nil (s : jsstring) :
  trim s = [] → Forall (λ c, isWhiteSpace c = true) s.
Proof.
  unfold trim. intros Hs. apply trimStart_nil.
  destruct (trimStart s) as [|c t] eqn:Ht; [done|].
  apply trimStart_head in Ht.
  by rewrite trimEnd_cons, Ht, orb_true_r in Hs.
Qed.

Lemma splitSeparatorsLoop_plain (s current : jsstring) (inRun : bool) :
  Forall (λ c, isWhiteSpace c = true) s →
  splitSeparatorsLoop s current inRun = [current ++ s].
Proof.
  intros Hs. revert current inRun.
  induction Hs as [|c t Hc _ IH]; intros current inRun;
    cbn [splitSeparatorsLoop].
  - by rewrite app_nil_r.
  - destruct (N.eqb_spec c (ch ",")) as [->|_]; [by vm_compute in Hc|].
    destruct (N.eqb_spec c (ch ";")) as [->|_]; [by vm_compute in Hc|].
    cbn [orb]. by rewrite IH, <- (assoc_L (++)).
Qed.

(** A blank configuration string has no entries. *)
Lemma collapseEntries_blank (str : jsstring) :
  trim str = [] → collapseEntries str = [].
Proof.
  intros Hblank. unfold collapseEntries, splitSeparators.
  rewrite splitSeparatorsLoop_plain by by apply trim_nil.
  simpl. by rewrite Hblank.
Qed.

Lemma collapseEntry_malformed (m : gmap jsstring jsstring) (entry : jsstring) :
  ch "=" ∉ entry → collapseEntry m entry = m.
Proof. intros H. apply indexOf_None in H. unfold collapseEntry. by rewrite H. Qed.

(** ** Lower-casing *)

Lemma isLatin_lowerChar (c : char) : isLatin (lowerChar c) = isLatin c.
Proof.
  unfold isLatin, lowerChar, isUpper.
  destruct (65 <=? c) eqn:H1, (c <=? 90) eqn:H2; cbn [andb]; try done.
  apply N.leb_le in H2. transitivity true; [apply N.ltb_lt|symmetry; apply N.ltb_lt]; lia.
Qed.

Lemma basicLatin_foldLatin (s : jsstring) : basicLatin (foldLatin s) = basicLatin s.
Proof.
  unfold basicLatin, foldLatin. induction s as [|c t IH]; [done|].
  cbn [map forallb]. by rewrite isLatin_lowerChar, IH.
Qed.

Lemma basicLatin_app (a b : jsstring) :
  basicLatin (a ++ b) = basicLatin a && basicLatin b.
Proof. apply forallb_app. Qed.

Lemma lowerChar_idemp (c : char) : lowerChar (lowerChar c) = lowerChar c.
Proof.
  unfold lowerChar, isUpper.
  destruct (65 <=? c) eqn:H1, (c <=? 90) eqn:H2; cbn [andb];
    rewrite ?H1, ?H2; cbn [andb]; try done.
  apply N.leb_le in H1. apply N.leb_le in H2.
  rewrite (proj2 (N.leb_gt (c + 32) 90)) by lia. by rewrite andb_false_r.
Qed.

(** The lower-cased form of a text is made of those of its parts, each
    taken where it stands. *)
Lemma lowerWithin_app (before a b after : jsstring) :
  lowerWithin before (a ++ b) after
  = lowerWithin before a (b ++ after) ++ lowerWithin (before ++ a) b after.
Proof.
  revert before. induction a as [|c t IH]; intros before.
  - by rewrite app_nil_r.
  - cbn [app lowerWithin]. rewrite IH, <- !(assoc_L (++)). done.
Qed.

(** Basic Latin text is lower-cased letter by letter, wherever it
    stands. *)
Lemma lowerWithin_latin (before s after : jsstring) :
  basicLatin s = true → lowerWithin before s after = foldLatin s.
Proof.
  revert before. induction s as [|c t IH]; intros before Hs; [done|].
  cbn [basicLatin forallb] in Hs. apply andb_true_iff in Hs as [Hc Ht].
  cbn [lowerWithin]. rewrite Hc. cbn [app foldLatin map]. f_equal.
  by apply IH.
Qed.

Lemma toLowerCase_latin (s : jsstring) :
  basicLatin s = true → toLowerCase s = foldLatin s.
Proof. apply lowerWithin_latin. Qed.

Lemma toLowerCase_latin_app (a b : jsstring) :
  basicLatin a = true → toLowerCase (a ++ b) = foldLatin a ++ lowerWithin a b [].
Proof.
  intros Ha. unfold toLowerCase. by rewrite lowerWithin_app, lowerWithin_latin.
Qed.

Example parseDomainCollapseMap_example :
  parseDomainCollapseMap (js "Example.ORG = sales@target.test; broken ,b.test=x@y.test")
  = <[js "b.test" := js "x@y.test"]>
      (<[js "example.org" := js "sales@target.test"]> ∅).
Proof. apply (bool_decide_unpack _). by vm_compute. Qed.

(** ** Domain collapse *)

Lemma collapse_config_not_blank (config : jsstring) :
  parseDomainCollapseMap config ≠ ∅ → truthy (trim config) = true.
Proof.
  intros Hmap. apply truthy_true. intros Hblank. apply Hmap.
  unfold parseDomainCollapseMap. by rewrite collapseEntries_blank.
Qed.

(** The map is keyed in lower case and the domain is lower-cased before the
    lookup: the comparison ignores case. *)
Example domain_collapse_ignores_case :
  collapseHeader (parseDomainCollapseMap (js "Example.ORG=sales@target.test"))
    (mkHeader (js "Cc") (js "Alice <alice@EXAMPLE.org>, bob@other.test"))
  = mkHeader (js "Cc")
      ([DQUOTE] ++ js "Alice" ++ [DQUOTE] ++ js " <sales@target.test>, bob@other.test").
Proof. vm_compute. reflexivity. Qed.

(** * Further properties *)

(** ** Facts about the matcher *)

Lemma rmatch_star_class (ic : bool) (p : char → bool)
  (k : mstate → option mstate) (s : mstate) :
  rmatch ic (RStar (RClass p)) k s = greedy p k (pos s) (rest s) (caps s).
Proof.
  cbn [rmatch].
  remember (length (rest s)) as fuel eqn:E.
  assert (length (rest s) ≤ fuel)%nat as Hfuel by lia. clear E.
  revert s Hfuel. induction fuel as [|fuel IH]; intros [ps rs cs] Hfuel;
    cbn [pos rest caps] in *.
  - destruct rs; [done|simpl in Hfuel; lia].
  - destruct rs as [|x t]; [done|]. cbn [greedy step1 rest pos caps].
    destruct (p x); [|done]. cbn [rest length].
    rewrite decide_True by lia. rewrite IH by (simpl in *; lia). done.
Qed.

Lemma greedy_stop (p : char → bool) (k : mstate → option mstate) (pos : nat)
  (pre suf : jsstring) (caps : gmap nat jsstring) (m : mstate) :
  forallb p pre = true →
  k (MState (pos + length pre) suf caps) = Some m →
  match suf with [] => true | x :: _ => negb (p x) end = true →
  greedy p k pos (pre ++ suf) caps = Some m.
Proof.
  revert pos. induction pre as [|c t IH]; intros pos Hpre Hk Hstop.
  - rewrite Nat.add_0_r in Hk. destruct suf as [|x u]; simpl; [done|].
    apply negb_true_iff in Hstop. by rewrite Hstop.
  - cbn [forallb] in Hpre. apply andb_true_iff in Hpre as [Hc Ht].
    cbn [app greedy]. rewrite Hc.
    assert (greedy p k (S pos) (t ++ suf) caps = Some m) as ->; [|done].
    apply IH; [done| |done].
    rewrite <- Hk. simpl. by rewrite <- Nat.add_succ_comm.
Qed.

(** The continuation fails wherever the run could end. *)
Lemma greedy_none (p : char → bool) (k : mstate → option mstate) (pos : nat)
  (s : jsstring) (caps : gmap nat jsstring) :
  (∀ j, (j ≤ length s)%nat → k (MState (pos + j) (drop j s) caps) = None) →
  greedy p k pos s caps = None.
Proof.
  revert pos. induction s as [|x t IH]; intros pos Hk.
  - specialize (Hk 0%nat (Nat.le_refl _)). by rewrite Nat.add_0_r in Hk.
  - pose proof (Hk 0%nat ltac:(simpl; lia)) as H0.
    rewrite Nat.add_0_r, drop_0 in H0. cbn [greedy].
    rewrite H0, (IH (S pos)); [by destruct (p x)|].
    intros j Hj. specialize (Hk (S j) ltac:(simpl; lia)).
    by rewrite <- Nat.add_succ_comm in Hk.
Qed.

(** The run is given back up to the last place where the continuation
    succeeds. *)
Lemma greedy_backtrack (p : char → bool) (k : mstate → option mstate)
  (pos : nat) (pre suf : jsstring) (caps : gmap nat jsstring) (m : mstate) :
  forallb p pre = true →
  k (MState (pos + length pre) suf caps) = Some m →
  (∀ j, (0 < j ≤ length suf)%nat →
        k (MState (pos + length pre + j) (drop j suf) caps) = None) →
  greedy p k pos (pre ++ suf) caps = Some m.
Proof.
  revert pos. induction pre as [|c t IH]; intros pos Hpre Hk Hlater.
  - rewrite Nat.add_0_r in Hk, Hlater. destruct suf as [|x u]; [done|].
    cbn [app greedy]. rewrite Hk.
    assert (greedy p k (S pos) u caps = None) as ->; [|by destruct (p x)].
    apply greedy_none. intros j Hj.
    specialize (Hlater (S j) ltac:(simpl; lia)).
    by rewrite <- Nat.add_succ_comm in Hlater.
  - cbn [forallb] in Hpre. apply andb_true_iff in Hpre as [Hc Ht].
    cbn [app greedy]. rewrite Hc.
    assert (greedy p k (S pos) (t ++ suf) caps = Some m) as ->; [|done].
    apply IH; [done| |].
    + rewrite <- Hk. simpl. by rewrite <- Nat.add_succ_comm.
    + intros j Hj. rewrite <- (Hlater j Hj). simpl.
      by rewrite <- Nat.add_succ_comm.
Qed.

(** A pattern anchored at the start matches at position 0 or nowhere. *)
Lemma searchFrom_anchored (ic : bool) (r : regex) (p : nat) (s : jsstring) :
  searchFrom ic (RSeq RBol r) (S p) s = None.
Proof.
  revert p. induction s as [|c t IH]; intros p; simpl; [done|]. apply IH.
Qed.

Lemma exec_anchored (ic : bool) (r : regex) (s : jsstring) :
  exec ic (RSeq RBol r) s = rmatch ic r Some (MState 0 s ∅).
Proof.
  unfold exec. destruct s as [|c t]; cbn [searchFrom rmatch].
  - rewrite decide_True by done. by destruct (rmatch ic r Some _).
  - rewrite decide_True by done. destruct (rmatch ic r Some _); [done|].
    apply searchFrom_anchored.
Qed.

(** The search skips the positions at which the pattern cannot start. *)
Lemma searchFrom_skip (ic : bool) (r : regex) (p : nat) (pre suf : jsstring) :
  (∀ j, (j < length pre)%nat →
        rmatch ic r Some (MState (p + j) (drop j (pre ++ suf)) ∅) = None) →
  searchFrom ic r p (pre ++ suf) = searchFrom ic r (p + length pre) suf.
Proof.
  revert p. induction pre as [|c t IH]; intros p Hfail.
  - by rewrite Nat.add_0_r.
  - pose proof (Hfail 0%nat ltac:(simpl; lia)) as H0.
    rewrite Nat.add_0_r, drop_0 in H0.
    cbn [app searchFrom]. cbn [app] in H0. rewrite H0.
    rewrite (IH (S p)).
    + simpl. by rewrite <- Nat.add_succ_comm.
    + intros j Hj. specialize (Hfail (S j) ltac:(simpl; lia)).
      by rewrite <- Nat.add_succ_comm in Hfail.
Qed.

Lemma rmatch_seq (ic : bool) (a b : regex) (k : mstate → option mstate) (s : mstate) :
  rmatch ic (RSeq a b) k s = rmatch ic a (rmatch ic b k) s.
Proof. done. Qed.

Lemma rmatch_group (ic : bool) (i : nat) (a : regex)
  (k : mstate → option mstate) (s : mstate) :
  rmatch ic (RGroup i a) k s
  = rmatch ic a
      (λ s', k (MState (pos s') (rest s')
                  (<[i := take (pos s' - pos s) (rest s)]> (caps s')))) s.
Proof. done. Qed.

Lemma rmatch_char (c : char) (k : mstate → option mstate) (p : nat)
  (x : char) (t : jsstring) (cs : gmap nat jsstring) :
  rmatch false (RChar c) k (MState p (x :: t) cs)
  = if x =? c then k (MState (S p) t cs) else None.
Proof. done. Qed.

Lemma rmatch_plus_class (ic : bool) (q : char → bool)
  (k : mstate → option mstate) (p : nat) (x : char) (t : jsstring)
  (cs : gmap nat jsstring) :
  rmatch ic (RPlus (RClass q)) k (MState p (x :: t) cs)
  = if q x then greedy q k (S p) t cs else None.
Proof.
  unfold RPlus. rewrite rmatch_seq. cbn [rmatch step1 rest pos caps].
  destruct (q x); [|done]. apply (rmatch_star_class ic q k (MState (S p) t cs)).
Qed.

Lemma rmatch_eol_end (ic : bool) (k : mstate → option mstate) (p : nat)
  (cs : gmap nat jsstring) :
  rmatch ic REol k (MState p [] cs) = k (MState p [] cs).
Proof. done. Qed.

Lemma notin_forallb_notChar (c : char) (s : jsstring) :
  c ∉ s → forallb (notChar c) s = true.
Proof.
  induction s as [|x t IH]; [done|]. intros [Hx Ht]%not_elem_of_cons.
  cbn [forallb]. rewrite IH by done. unfold notChar.
  destruct (N.eqb_spec x c); [congruence|done].
Qed.

Lemma rmatch_char_notin (c : char) (r : regex) (k : mstate → option mstate)
  (p : nat) (s : jsstring) (cs : gmap nat jsstring) :
  head s ≠ Some c →
  rmatch false (RSeq (RChar c) r) k (MState p s cs) = None.
Proof.
  intros Hhead. rewrite rmatch_seq. destruct s as [|x t]; [done|].
  rewrite rmatch_char. destruct (N.eqb_spec x c) as [->|]; [by destruct Hhead|done].
Qed.

Lemma head_drop_notin (c : char) (s : jsstring) (j : nat) :
  c ∉ s → head (drop j s) ≠ Some c.
Proof.
  intros Hs Hhead. apply (notin_drop c s j) in Hs.
  destruct (drop j s) as [|x t]; [done|]. injection Hhead as ->.
  apply Hs. by left.
Qed.

(** What the address pattern finds in [pre<addr>post]. *)
Lemma angleRegex_match (pre addr post : jsstring) :
  forallb dot pre = true →
  addr ≠ [] →
  ch ">" ∉ addr →
  ch "<" ∉ addr ++ post →
  forallb dot post = true →
  ∃ m, exec false angleRegex (pre ++ ch "<" :: addr ++ ch ">" :: post) = Some m
       ∧ group 1 m = pre ∧ group 2 m = addr.
Proof.
  intros Hpre Hne Hgt Hlt Hpost.
  unfold angleRegex. rewrite exec_anchored, rmatch_seq, rmatch_group.
  rewrite rmatch_star_class. cbn [pos rest caps].
  destruct addr as [|x t]; [done|]. clear Hne.
  apply not_elem_of_cons in Hgt as [Hx Ht].
  eexists. split.
  - apply greedy_backtrack; [done| |].
    + cbn [pos rest caps]. rewrite rmatch_seq, rmatch_char, N.eqb_refl.
      rewrite rmatch_seq, rmatch_group. cbn [app].
      rewrite rmatch_plus_class. unfold notChar at 1.
      rewrite (proj2 (N.eqb_neq x (ch ">"))) by congruence. cbn [negb].
      apply greedy_stop; [by apply notin_forallb_notChar| |done].
      cbn [pos rest caps]. rewrite rmatch_seq, rmatch_char, N.eqb_refl.
      rewrite rmatch_seq, rmatch_star_class. cbn [pos rest caps].
      rewrite <- (app_nil_r post) at 1.
      apply greedy_stop; [done| |done].
      rewrite rmatch_eol_end. reflexivity.
    + intros j Hj. cbn [pos rest caps]. apply rmatch_char_notin.
      destruct j as [|j]; [lia|]. cbn [drop]. apply head_drop_notin.
      rewrite not_elem_of_app in Hlt. destruct Hlt as [Hlt1 Hlt2].
      apply not_elem_of_app. split; [done|].
      apply not_elem_of_cons. split; [by vm_compute|done].
  - unfold group. cbn [caps].
    rewrite lookup_insert_ne, !lookup_insert_eq by done. cbn [default from_option id].
    replace (0 + length pre - 0)%nat with (length pre) by lia.
    replace (S (S (0 + length pre)) + length t - S (0 + length pre))%nat
      with (length (x :: t)) by (simpl; lia).
    rewrite take_app_length. rewrite (app_comm_cons t), take_app_length. done.
Qed.

Lemma angleRegex_no_angle (s : jsstring) :
  ch "<" ∉ s → exec false angleRegex s = None.
Proof.
  intros Hs. unfold angleRegex.
  rewrite exec_anchored, rmatch_seq, rmatch_group, rmatch_star_class.
  apply greedy_none. intros j Hj. cbn [pos rest caps].
  apply rmatch_char_notin. by apply head_drop_notin.
Qed.

(** ** [parseAddress], [formatAddress], [stripQuotes] *)

Lemma parseAddress_bare (s : jsstring) :
  ch "<" ∉ s → parseAddress s = {| displayName := []; address := trim s |}.
Proof. intros Hs. unfold parseAddress. by rewrite angleRegex_no_angle. Qed.

Lemma parseAddress_angle (pre addr post : jsstring) :
  forallb dot pre = true →
  addr ≠ [] →
  ch ">" ∉ addr →
  ch "<" ∉ addr ++ post →
  forallb dot post = true →
  parseAddress (pre ++ ch "<" :: addr ++ ch ">" :: post)
  = {| displayName := stripQuotes (trim pre); address := trim addr |}.
Proof.
  intros Hpre Hne Hgt Hlt Hpost. unfold parseAddress.
  destruct (angleRegex_match pre addr post) as (m & -> & -> & ->); done.
Qed.

Lemma trimEnd_snoc_space (s : jsstring) : trimEnd (s ++ [SP]) = trimEnd s.
Proof. unfold trimEnd. by rewrite rev_app_distr. Qed.

Lemma trimEnd_snoc (s : jsstring) (c : char) :
  isWhiteSpace c = false → trimEnd (s ++ [c]) = s ++ [c].
Proof.
  intros Hc. unfold trimEnd. rewrite rev_app_distr. simpl. rewrite Hc.
  simpl. by rewrite rev_involutive.
Qed.

Lemma stripQuotes_quoted (s : jsstring) :
  stripQuotes (DQUOTE :: s ++ [DQUOTE]) = s.
Proof.
  unfold stripQuotes, endsWith. rewrite (app_comm_cons s), rev_app_distr.
  simpl. unfold slice_1_m1. simpl. apply removelast_last.
Qed.

Lemma parseAddress_formatted (name mailbox : jsstring) :
  forallb dot name = true →
  mailbox ≠ [] →
  trim mailbox = mailbox →
  ch "<" ∉ mailbox →
  ch ">" ∉ mailbox →
  parseAddress (formatAddress name mailbox)
  = {| displayName := name; address := mailbox |}.
Proof.
  intros Hname Hne Htrim Hlt Hgt. unfold formatAddress.
  destruct name as [|c t]; cbn [truthy].
  - rewrite parseAddress_bare by done. by rewrite Htrim.
  - assert ([DQUOTE] ++ (c :: t) ++ [DQUOTE] ++ js " <" ++ mailbox ++ js ">"
            = (DQUOTE :: (c :: t) ++ [DQUOTE; SP])
                ++ ch "<" :: mailbox ++ ch ">" :: []) as ->.
    { change (js " <") with [SP; ch "<"]. change (js ">") with [ch ">"].
      cbn [app]. by rewrite <- !(assoc_L (++)). }
    rewrite parseAddress_angle; try done.
    + f_equal; [|done]. unfold trim. cbn [trimStart].
      change (isWhiteSpace DQUOTE) with false. cbv match.
      rewrite (app_comm_cons _ _ DQUOTE).
      change [DQUOTE; SP] with ([DQUOTE] ++ [SP]).
      rewrite (assoc_L (++)), trimEnd_snoc_space, trimEnd_snoc by done.
      apply stripQuotes_quoted.
    + cbn [forallb]. rewrite forallb_app, Hname. done.
    + by rewrite app_nil_r.
Qed.

(** X1.  Parsing what [formatAddress] renders gives back the display name
    and the mailbox, for a name without line terminators and a non-empty,
    trimmed mailbox without angle brackets. *)
Theorem parseAddress_formatAddress (name mailbox : jsstring) :
  forallb dot name = true →
  mailbox ≠ [] →
  trim mailbox = mailbox →
  ch "<" ∉ mailbox →
  ch ">" ∉ mailbox →
  parseAddress (formatAddress name mailbox)
  = {| displayName := name; address := mailbox |}.
Proof. apply parseAddress_formatted. Qed.

Lemma parseAddress_formatAddress_witness :
  parseAddress (formatAddress (js "Alice Smith") (js "alice@example.com"))
  = {| displayName := js "Alice Smith"; address := js "alice@example.com" |}.
Proof.
  apply parseAddress_formatAddress.
  - reflexivity.
  - discriminate.
  - reflexivity.
  - apply (bool_decide_unpack _). by vm_compute.
  - apply (bool_decide_unpack _). by vm_compute.
Defined.

(** ** [splitAddresses] *)

Lemma splitAddressesLoop_piece (s more : jsstring) (parts : list jsstring)
  (current : jsstring) (q q' : bool) :
  quoteScan q s = Some q' →
  splitAddressesLoop (s ++ more) parts current q
  = splitAddressesLoop more parts (current ++ s) q'.
Proof.
  revert current q. induction s as [|c t IH]; intros current q Hscan.
  - injection Hscan as ->. by rewrite app_nil_r.
  - cbn [quoteScan] in Hscan. cbn [app splitAddressesLoop].
    destruct (c =? DQUOTE).
    + rewrite (IH _ _ Hscan). by rewrite <- (assoc_L (++)).
    + destruct ((c =? ch ",") && negb q); [done|].
      rewrite (IH _ _ Hscan). by rewrite <- (assoc_L (++)).
Qed.

Lemma trim_blank_prefix (blank s : jsstring) :
  forallb isWhiteSpace blank = true → trim (blank ++ s) = trim s.
Proof.
  intros Hblank. unfold trim. f_equal.
  induction blank as [|c t IH]; [done|]. cbn [forallb] in Hblank.
  apply andb_true_iff in Hblank as [Hc Ht]. cbn [app trimStart].
  rewrite Hc. by apply IH.
Qed.

Lemma splitAddressesLoop_join (pieces : list jsstring) (final : jsstring)
  (parts : list jsstring) (blank : jsstring) (q : bool) :
  Forall addressPiece pieces →
  quoteScan false final = Some q →
  forallb isWhiteSpace blank = true →
  splitAddressesLoop (join (js ", ") (pieces ++ [final])) parts blank false
  = (parts ++ pieces,
     match pieces with [] => blank | _ :: _ => [SP] end ++ final).
Proof.
  intros Hpieces Hfinal. revert parts blank.
  induction Hpieces as [|piece more [Htrim Hscan] _ IH]; intros parts blank Hblank.
  - cbn [app join]. rewrite <- (app_nil_r final) at 1.
    rewrite (splitAddressesLoop_piece _ _ _ _ _ _ Hfinal). cbn.
    by rewrite app_nil_r.
  - assert (join (js ", ") ((piece :: more) ++ [final])
            = piece ++ ch "," :: SP :: join (js ", ") (more ++ [final])) as ->.
    { cbn [app join]. by destruct more. }
    rewrite (splitAddressesLoop_piece _ _ _ _ _ _ Hscan).
    cbn [splitAddressesLoop]. change (ch "," =? DQUOTE) with false.
    rewrite N.eqb_refl. cbn [andb negb]. cbv match.
    change (SP =? DQUOTE) with false. change (SP =? ch ",") with false.
    cbn [andb]. cbv match. rewrite IH by done.
    rewrite trim_blank_prefix, Htrim by done.
    rewrite <- (assoc_L (++)). by destruct more.
Qed.

Lemma splitAddresses_pieces (pieces : list jsstring) :
  Forall addressPiece pieces →
  last pieces ≠ Some [] →
  splitAddresses (join (js ", ") pieces) = pieces.
Proof.
  intros Hpieces Hlast.
  destruct (decide (pieces = [])) as [->|Hne]; [done|].
  destruct (exists_last Hne) as (init & final & ->).
  rewrite last_snoc in Hlast.
  apply Forall_app in Hpieces as [Hinit Hfinal].
  apply Forall_cons in Hfinal as [Hfinal _].
  unfold splitAddresses.
  rewrite (splitAddressesLoop_join init final [] [] false)
    by (try done; apply Hfinal).
  cbn [app].
  assert (trim (match init with [] => [] | _ :: _ => [SP] end ++ final) = final)
    as ->.
  { destruct Hfinal as [Htrim _]. by destruct init. }
  by destruct final.
Qed.

(** X2.  Splitting the join of address strings gives the strings back:
    for strings that are trimmed, with balanced quotes and commas only
    inside quotes, the last one not empty,
    [splitAddresses (join ", " pieces) = pieces]. *)
Theorem splitAddresses_join (pieces : list jsstring) :
  Forall addressPiece pieces →
  last pieces ≠ Some [] →
  splitAddresses (join (js ", ") pieces) = pieces.
Proof. apply splitAddresses_pieces. Qed.

Lemma splitAddresses_join_witness :
  splitAddresses
    (join (js ", ")
       [[DQUOTE] ++ js "Smith, Alice" ++ [DQUOTE] ++ js " <alice@example.com>";
        js "bob@example.com"])
  = [[DQUOTE] ++ js "Smith, Alice" ++ [DQUOTE] ++ js " <alice@example.com>";
     js "bob@example.com"].
Proof.
  apply splitAddresses_join.
  - repeat constructor; reflexivity.
  - discriminate.
Defined.

(** ** The tag pattern *)

Lemma searchFrom_none (ic : bool) (r : regex) (p : nat) (s : jsstring) :
  (∀ j, (j ≤ length s)%nat →
        rmatch ic r Some (MState (p + j) (drop j s) ∅) = None) →
  searchFrom ic r p s = None.
Proof.
  revert p. induction s as [|c t IH]; intros p Hfail.
  - pose proof (Hfail 0%nat ltac:(simpl; lia)) as H0.
    rewrite Nat.add_0_r in H0. cbn [searchFrom]. cbn [drop] in H0. by rewrite H0.
  - pose proof (Hfail 0%nat ltac:(simpl; lia)) as H0.
    rewrite Nat.add_0_r, drop_0 in H0. cbn [searchFrom]. rewrite H0.
    apply IH. intros j Hj. specialize (Hfail (S j) ltac:(simpl; lia)).
    by rewrite <- Nat.add_succ_comm in Hfail.
Qed.

Lemma rmatch_plus_class_nil (ic : bool) (q : char → bool)
  (k : mstate → option mstate) (p : nat) (cs : gmap nat jsstring) :
  rmatch ic (RPlus (RClass q)) k (MState p [] cs) = None.
Proof. done. Qed.

Lemma head_drop_app_notin (c : char) (pre suf : jsstring) (j : nat) :
  c ∉ pre → (j < length pre)%nat → head (drop j (pre ++ suf)) ≠ Some c.
Proof.
  intros Hpre Hj Hhead. rewrite drop_app_le in Hhead by lia.
  apply (notin_drop c pre j) in Hpre.
  destruct (drop j pre) as [|x t] eqn:E.
  - apply (f_equal length) in E. rewrite length_drop in E. simpl in E. lia.
  - injection Hhead as ->. apply Hpre. by left.
Qed.

(** What the tag pattern finds in [local+tag@domain]. *)
Lemma plusRegex_match (localPart tag domainPart : jsstring) :
  localPart ≠ [] → ch "+" ∉ localPart →
  tag ≠ [] → ch "@" ∉ tag →
  forallb dot domainPart = true →
  ∃ m, exec false plusRegex (localPart ++ ch "+" :: tag ++ ch "@" :: domainPart)
       = Some m
       ∧ group 1 m = localPart ∧ group 2 m = tag ∧ group 3 m = domainPart.
Proof.
  intros Hl Hplus Ht Hat Hdom.
  unfold plusRegex. rewrite exec_anchored, rmatch_seq, rmatch_group.
  destruct localPart as [|x l]; [done|]. clear Hl.
  destruct tag as [|y t]; [done|]. clear Ht.
  apply not_elem_of_cons in Hplus as [Hx Hplus].
  apply not_elem_of_cons in Hat as [Hy Hat].
  cbn [app]. rewrite rmatch_plus_class. unfold notChar at 1.
  rewrite (proj2 (N.eqb_neq x (ch "+"))) by congruence. cbn [negb].
  eexists. split.
  - apply greedy_stop; [by apply notin_forallb_notChar| |].
    + cbn [pos rest caps]. rewrite rmatch_seq, rmatch_char, N.eqb_refl.
      rewrite rmatch_seq, rmatch_group, rmatch_plus_class. unfold notChar at 1.
      rewrite (proj2 (N.eqb_neq y (ch "@"))) by congruence. cbn [negb].
      apply greedy_stop; [by apply notin_forallb_notChar| |].
      * cbn [pos rest caps]. rewrite rmatch_seq, rmatch_char, N.eqb_refl.
        rewrite rmatch_seq, rmatch_group, rmatch_star_class. cbn [pos rest caps].
        rewrite <- (app_nil_r domainPart) at 1.
        apply greedy_stop; [done| |done].
        rewrite rmatch_eol_end. reflexivity.
      * unfold notChar. by rewrite N.eqb_refl.
    + unfold notChar. by rewrite N.eqb_refl.
  - unfold group. cbn [caps pos rest].
    repeat split.
    + rewrite !lookup_insert_ne, lookup_insert_eq by done.
      cbn [default from_option id].
      replace (1 + length l - 0)%nat with (length (x :: l)) by (simpl; lia).
      by rewrite (app_comm_cons l), take_app_length.
    + rewrite lookup_insert_ne, lookup_insert_eq by done.
      cbn [default from_option id].
      replace (S (S (1 + length l)) + length t - S (1 + length l))%nat
        with (length (y :: t)) by (simpl; lia).
      by rewrite (app_comm_cons t), take_app_length.
    + rewrite lookup_insert_eq. cbn [default from_option id].
      replace (S (S (S (1 + length l)) + length t) + length domainPart
               - S (S (S (1 + length l)) + length t))%nat
        with (length domainPart) by lia.
      by rewrite firstn_all.
Qed.

Lemma plusRegex_no_plus (s : jsstring) :
  ch "+" ∉ s → exec false plusRegex s = None.
Proof.
  intros Hs. unfold plusRegex. rewrite exec_anchored, rmatch_seq, rmatch_group.
  destruct s as [|x t]; [done|]. rewrite rmatch_plus_class.
  destruct (notChar (ch "+") x); [|done].
  apply not_elem_of_cons in Hs as [_ Ht].
  apply greedy_none. intros j Hj. cbn [pos rest caps].
  apply rmatch_char_notin. by apply head_drop_notin.
Qed.
(** ** The patterns of the spam check *)

Lemma searchFrom_here (ic : bool) (r : regex) (p : nat) (s : jsstring)
  (m : mstate) :
  rmatch ic r Some (MState p s ∅) = Some m → searchFrom ic r p s = Some m.
Proof. intros Hm. destruct s; cbn [searchFrom]; by rewrite Hm. Qed.

(** What the sender pattern finds in [pre<mailbox>post]: the first
    bracketed text. *)
Lemma emailRegex_match (pre mailbox post : jsstring) :
  ch "<" ∉ pre → mailbox ≠ [] → ch ">" ∉ mailbox →
  ∃ m, exec false emailRegex (pre ++ ch "<" :: mailbox ++ ch ">" :: post) = Some m
       ∧ group 1 m = mailbox.
Proof.
  intros Hpre Hne Hgt. unfold exec.
  rewrite searchFrom_skip.
  2:{ intros j Hj. unfold emailRegex. apply rmatch_char_notin.
      by apply head_drop_app_notin. }
  destruct mailbox as [|x t]; [done|]. clear Hne.
  apply not_elem_of_cons in Hgt as [Hx Ht].
  eexists. split.
  - apply searchFrom_here. unfold emailRegex.
    rewrite rmatch_seq, rmatch_char, N.eqb_refl.
    rewrite rmatch_seq, rmatch_group. cbn [app].
    rewrite rmatch_plus_class. unfold notChar at 1.
    rewrite (proj2 (N.eqb_neq x (ch ">"))) by congruence. cbn [negb].
    apply greedy_stop; [by apply notin_forallb_notChar| |].
    + cbn [pos rest caps]. rewrite rmatch_char, N.eqb_refl. reflexivity.
    + unfold notChar. by rewrite N.eqb_refl.
  - unfold group. cbn [caps pos rest]. rewrite lookup_insert_eq.
    cbn [default from_option id].
    replace (S (S (0 + length pre)) + length t - S (0 + length pre))%nat
      with (length (x :: t)) by (simpl; lia).
    by rewrite (app_comm_cons t), take_app_length.
Qed.

Lemma emailRegex_no_angle (s : jsstring) :
  ch "<" ∉ s → exec false emailRegex s = None.
Proof.
  intros Hs. apply searchFrom_none. intros j Hj.
  unfold emailRegex. apply rmatch_char_notin. by apply head_drop_notin.
Qed.

(** What the name pattern finds in [pre<mailbox>post]. *)
Lemma nameRegex_match (pre mailbox post : jsstring) :
  forallb dot pre = true → mailbox ≠ [] → ch ">" ∉ mailbox →
  ch "<" ∉ mailbox ++ post →
  ∃ m, exec false nameRegex (pre ++ ch "<" :: mailbox ++ ch ">" :: post) = Some m
       ∧ group 1 m = pre.
Proof.
  intros Hpre Hne Hgt Hlt.
  unfold nameRegex. rewrite exec_anchored, rmatch_seq, rmatch_group.
  rewrite rmatch_star_class. cbn [pos rest caps].
  destruct mailbox as [|x t]; [done|]. clear Hne.
  apply not_elem_of_cons in Hgt as [Hx Ht].
  eexists. split.
  - apply greedy_backtrack; [done| |].
    + cbn [pos rest caps]. rewrite rmatch_seq, rmatch_char, N.eqb_refl.
      rewrite rmatch_seq. cbn [app].
      rewrite rmatch_plus_class. unfold notChar at 1.
      rewrite (proj2 (N.eqb_neq x (ch ">"))) by congruence. cbn [negb].
      apply greedy_stop; [by apply notin_forallb_notChar| |].
      * cbn [pos rest caps]. rewrite rmatch_char, N.eqb_refl. reflexivity.
      * unfold notChar. by rewrite N.eqb_refl.
    + intros j Hj. cbn [pos rest caps]. apply rmatch_char_notin.
      destruct j as [|j]; [lia|]. cbn [drop]. apply head_drop_notin.
      rewrite not_elem_of_app in Hlt. destruct Hlt as [Hlt1 Hlt2].
      apply not_elem_of_app. split; [done|].
      apply not_elem_of_cons. split; [by vm_compute|done].
  - unfold group. cbn [caps]. rewrite lookup_insert_eq.
    cbn [default from_option id].
    replace (0 + length pre - 0)%nat with (length pre) by lia.
    by rewrite take_app_length.
Qed.

Lemma nameRegex_no_angle (s : jsstring) :
  ch "<" ∉ s → exec false nameRegex s = None.
Proof.
  intros Hs. unfold nameRegex.
  rewrite exec_anchored, rmatch_seq, rmatch_group, rmatch_star_class.
  apply greedy_none. intros j Hj. cbn [pos rest caps].
  apply rmatch_char_notin. by apply head_drop_notin.
Qed.

(** A starred class followed by the end of the input: the whole input has
    to be in the class. *)
Lemma greedy_eol (p : char → bool) (pos : nat) (s : jsstring)
  (cs : gmap nat jsstring) :
  greedy p (rmatch false REol Some) pos s cs
  = if forallb p s then Some (MState (pos + length s) [] cs) else None.
Proof.
  revert pos. induction s as [|x t IH]; intros pos.
  - cbn. by rewrite Nat.add_0_r.
  - cbn [greedy forallb]. destruct (p x); [|done]. rewrite IH. cbn [andb].
    destruct (forallb p t); [|done]. cbn [length]. by rewrite Nat.add_succ_r.
Qed.

Lemma alnumRegex_test (s : jsstring) :
  test false alnumRegex s
  = truthy s && forallb (λ c, isLetter c || isDigit c) s.
Proof.
  unfold test, alnumRegex. rewrite exec_anchored, rmatch_seq.
  destruct s as [|x t]; [done|]. rewrite rmatch_plus_class.
  cbn [truthy forallb andb]. destruct (isLetter x || isDigit x); [|done].
  rewrite greedy_eol. cbn [andb]. by destruct (forallb _ t).
Qed.
(** ** [SpamCheckProcessor] *)

Lemma gmailCheck_bracketed (pre mailbox post : jsstring) :
  forallb dot pre = true → mailbox ≠ [] → ch ">" ∉ mailbox →
  ch "<" ∉ mailbox ++ post →
  gmailCheck (pre ++ ch "<" :: mailbox ++ ch ">" :: post) = nameVerdict (trim pre).
Proof.
  intros Hpre Hne Hgt Hlt. unfold gmailCheck, nameVerdict.
  destruct (nameRegex_match pre mailbox post) as (m & -> & ->); [done..|].
  destruct (truthy (trim pre)) eqn:Hname; cbn [negb]; [|done].
  rewrite alnumRegex_test, Hname. cbn [andb]. fold alphanumeric.
  destruct (forallb alphanumeric (trim pre)); cbn [andb]; [|done].
  destruct (bool_decide (8 ≤ _)%nat); cbn [andb]; [|done].
  destruct (balanced _ _); cbn [andb]; [|done]. done.
Qed.

Lemma gmailCheck_bare (s : jsstring) :
  ch "<" ∉ s → gmailCheck s = Some (reject (js "Sender name is missing.")).
Proof. intros Hs. unfold gmailCheck. by rewrite nameRegex_no_angle. Qed.

Lemma orDefault_empty (o : option jsstring) :
  orDefault o [] = default [] o.
Proof. destruct o as [[|c t]|]; done. Qed.

(** X3.  The spam check on a sender written [pre<mailbox>post], the
    bracket of the mailbox being the only one: the mailbox is compared with
    the block list in lower case, whatever the display name; for a Gmail
    mailbox the trimmed text before the bracket is the sender name, which
    is rejected when it is empty, or when it is alphanumeric with at least
    eight letters of which 40 to 60 per cent are upper case; every other
    message is judged by its subject. *)
Theorem spam_check_bracketed_sender (context : EmailPipelineContext)
  (pre mailbox post : jsstring) :
  headers_get (message context) (js "from")
  = Some (pre ++ ch "<" :: mailbox ++ ch ">" :: post) →
  ch "<" ∉ pre → forallb dot pre = true →
  mailbox ≠ [] → ch ">" ∉ mailbox → ch "<" ∉ mailbox ++ post →
  SpamCheckProcessor_process context
  = if bool_decide (toLowerCase mailbox ∈ blocklist)
    then reject (js "Sender is blocked.")
    else
      match (if endsWith (js "@gmail.com") (toLowerCase mailbox)
             then nameVerdict (trim pre) else None) with
      | Some rejection => rejection
      | None => subjectVerdict (headers_get (message context) (js "subject"))
      end.
Proof.
  intros Hfrom Hlt Hpre Hne Hgt Hlater. unfold SpamCheckProcessor_process.
  rewrite Hfrom, orDefault_empty. cbn [default from_option id].
  destruct (emailRegex_match pre mailbox post) as (m & -> & ->); [done..|].
  rewrite gmailCheck_bracketed by done. done.
Qed.

(** X4.  The spam check on a sender written without an opening angle
    bracket: the whole header text is the mailbox; it is compared with the
    block list in lower case and without trimming, and a Gmail address is
    always rejected, as no sender name can be found. *)
Theorem spam_check_bare_sender (context : EmailPipelineContext) :
  let from := default [] (headers_get (message context) (js "from")) in
  ch "<" ∉ from →
  SpamCheckProcessor_process context
  = if bool_decide (toLowerCase from ∈ blocklist)
    then reject (js "Sender is blocked.")
    else if endsWith (js "@gmail.com") (toLowerCase from)
    then reject (js "Sender name is missing.")
    else subjectVerdict (headers_get (message context) (js "subject")).
Proof.
  intros from Hlt. unfold SpamCheckProcessor_process.
  rewrite orDefault_empty. fold from.
  rewrite emailRegex_no_angle, gmailCheck_bare by done.
  destruct (bool_decide _); [done|]. by destruct (endsWith _ _).
Qed.

Lemma startsWith_app (p s : jsstring) : startsWith p (p ++ s) = true.
Proof. induction p as [|c t IH]; [done|]. simpl. by rewrite N.eqb_refl. Qed.

Lemma includes_app (a p b : jsstring) : includes p (a ++ p ++ b) = true.
Proof.
  induction a as [|c t IH].
  - cbn [app]. destruct (p ++ b) eqn:E; cbn [includes]; rewrite <- E;
      by rewrite startsWith_app.
  - cbn [app includes]. rewrite IH. apply orb_true_r.
Qed.

Lemma gmailCheck_rejects (fromHeader : jsstring) (r : ProcessingResult) :
  gmailCheck fromHeader = Some r → canContinue r = false.
Proof.
  unfold gmailCheck. intros H.
  repeat match type of H with
         | (if ?b then _ else _) = _ => destruct b
         end; by simplify_eq.
Qed.

(** A subject whose lower-cased form holds a keyword is refused. *)
Lemma subject_keyword_rejects (context : EmailPipelineContext)
  (subject keyword : jsstring) :
  headers_get (message context) (js "subject") = Some subject →
  keyword ∈ spamKeywords →
  includes keyword (toLowerCase subject) = true →
  canContinue (SpamCheckProcessor_process context) = false.
Proof.
  intros Hsubject Hkeyword Hincludes. unfold SpamCheckProcessor_process.
  destruct (bool_decide _); [done|].
  destruct (if endsWith _ _ then _ else _) as [r|] eqn:Hgmail.
  - destruct (endsWith _ _); [|done]. by apply gmailCheck_rejects in Hgmail.
  - rewrite Hsubject, orDefault_empty. cbn [default from_option id].
    assert (existsb (λ k, includes k (toLowerCase subject)) spamKeywords = true)
      as ->; [|done].
    apply existsb_exists. exists keyword. split; [|done].
    by apply list_elem_of_In.
Qed.

Lemma includes_within (before keyword after : jsstring) :
  includes (lowerWithin before keyword after)
    (toLowerCase (before ++ keyword ++ after)) = true.
Proof.
  unfold toLowerCase. rewrite !lowerWithin_app, !app_nil_r, app_nil_l.
  apply includes_app.
Qed.

(** X5.  A message whose subject holds a spam keyword, in any letter case
    and anywhere in the subject, never passes the spam check: it is enough
    that a part of the subject, lower-cased where it stands, is one of the
    keywords. *)
Theorem spam_check_keyword (context : EmailPipelineContext)
  (before keyword after : jsstring) :
  headers_get (message context) (js "subject")
  = Some (before ++ keyword ++ after) →
  lowerWithin before keyword after ∈ spamKeywords →
  canContinue (SpamCheckProcessor_process context) = false.
Proof.
  intros Hsubject Hkeyword.
  apply (subject_keyword_rejects context _ _ Hsubject Hkeyword).
  apply includes_within.
Qed.

(** So it is for a part of the subject in Basic Latin letters whose
    letters, put in lower case one by one, spell a keyword. *)
Lemma spam_check_keyword_latin (context : EmailPipelineContext)
  (before keyword after : jsstring) :
  headers_get (message context) (js "subject")
  = Some (before ++ keyword ++ after) →
  foldLatin keyword ∈ spamKeywords →
  canContinue (SpamCheckProcessor_process context) = false.
Proof.
  intros Hsubject Hkeyword.
  assert (basicLatin keyword = true) as Hlatin.
  { rewrite <- basicLatin_foldLatin.
    assert (forallb basicLatin spamKeywords = true) as Hall by by vm_compute.
    rewrite forallb_forall in Hall. by apply Hall, list_elem_of_In. }
  apply (subject_keyword_rejects context _ _ Hsubject Hkeyword).
  rewrite <- (lowerWithin_latin before keyword after Hlatin).
  apply includes_within.
Qed.

(** ** Recipients *)

Lemma trim_plain (s : jsstring) :
  Forall (λ c, isWhiteSpace c = false) s → trim s = s.
Proof.
  intros Hs. assert (∀ u, Forall (λ c, isWhiteSpace c = false) u → trimStart u = u)
    as Hstart.
  { intros [|c t] Hu; [done|]. apply Forall_cons in Hu as [Hc _].
    cbn [trimStart]. by rewrite Hc. }
  unfold trim, trimEnd. rewrite (Hstart s Hs), Hstart, rev_involutive; [done|].
  by apply Forall_rev.
Qed.

Lemma trim_between (c d : char) (s : jsstring) :
  isWhiteSpace c = false → isWhiteSpace d = false →
  trim (c :: s ++ [d]) = c :: s ++ [d].
Proof.
  intros Hc Hd. unfold trim. cbn [trimStart]. rewrite Hc.
  rewrite (app_comm_cons s [d] c). by apply trimEnd_snoc.
Qed.

Lemma forallb_Forall_iff {A : Type} (p : A → bool) (l : list A) :
  forallb p l = true ↔ Forall (λ x, p x = true) l.
Proof.
  induction l as [|x t IH]; [by split|]. cbn [forallb].
  rewrite andb_true_iff, Forall_cons, IH. done.
Qed.

Lemma mailboxChar_spec (c : char) : mailboxChar c = true → addressChar c.
Proof.
  unfold mailboxChar, addressChar. rewrite !andb_true_iff, !negb_true_iff, !N.eqb_neq. tauto.
Qed.


Lemma mailboxChars (s : jsstring) :
  forallb mailboxChar s = true → Forall addressChar s.
Proof.
  rewrite forallb_Forall_iff. intros Hs. eapply Forall_impl; [done|].
  intros c. apply mailboxChar_spec.
Qed.

Lemma forallb_notChar_notin (c : char) (s : jsstring) :
  forallb (notChar c) s = true → c ∉ s.
Proof.
  rewrite forallb_Forall_iff, notin_Forall. intros Hs.
  eapply Forall_impl; [done|]. intros x. unfold notChar.
  by rewrite negb_true_iff, N.eqb_neq.
Qed.

Lemma quoteScan_app (q q' : bool) (a b : jsstring) :
  quoteScan q a = Some q' → quoteScan q (a ++ b) = quoteScan q' b.
Proof.
  revert q. induction a as [|c t IH]; intros q H; cbn [quoteScan app] in *.
  - by injection H as ->.
  - destruct (c =? DQUOTE); [by apply IH|].
    destruct ((c =? ch ",") && negb q); [done|by apply IH].
Qed.

Lemma quoteScan_quoted (s : jsstring) :
  DQUOTE ∉ s → quoteScan true s = Some true.
Proof.
  induction s as [|c t IH]; [done|]. intros [Hc Ht]%not_elem_of_cons.
  cbn [quoteScan]. rewrite (proj2 (N.eqb_neq c DQUOTE)) by done.
  cbn [negb]. rewrite andb_false_r. by apply IH.
Qed.

Lemma addressChars (s : jsstring) :
  Forall addressChar s →
  trim s = s ∧ (ch "<" ∉ s) ∧ (ch ">" ∉ s) ∧ ∀ q, quoteScan q s = Some q.
Proof.
  intros Hs. split; [|split; [|split]].
  - apply trim_plain. eapply Forall_impl; [done|]. by intros c [? _].
  - apply notin_Forall. eapply Forall_impl; [done|]. by intros c (_ & _ & _ & ? & _).
  - apply notin_Forall. eapply Forall_impl; [done|]. by intros c (_ & _ & _ & _ & ?).
  - induction Hs as [|c t (_ & Hcomma & Hquote & _) _ IH]; intros q; [done|].
    cbn [quoteScan]. rewrite (proj2 (N.eqb_neq c DQUOTE)) by done.
    rewrite (proj2 (N.eqb_neq c (ch ","))) by done. apply IH.
Qed.

Lemma nameChars (s : jsstring) :
  forallb nameChar s = true → forallb dot s = true ∧ DQUOTE ∉ s.
Proof.
  induction s as [|c t IH]; [by split; [|apply not_elem_of_nil]|].
  cbn [forallb]. unfold nameChar at 1.
  rewrite !andb_true_iff, negb_true_iff, N.eqb_neq.
  intros [[Hdot Hq] Ht]. destruct (IH Ht) as [IH1 IH2]. split.
  - by rewrite Hdot, IH1.
  - apply not_elem_of_cons. by split.
Qed.

(** A rendered address is scanned in one piece. *)
Lemma formatAddress_piece (n s : jsstring) :
  forallb nameChar n = true → Forall addressChar s →
  addressPiece (formatAddress n s).
Proof.
  intros Hn Hs. destruct (nameChars n Hn) as [_ Hquote].
  destruct (addressChars s Hs) as (Htrim & _ & _ & Hscan).
  unfold formatAddress. destruct (truthy n).
  - split.
    + change (js ">") with [ch ">"].
      rewrite !(assoc_L (++)). rewrite <- !(assoc_L (++) [DQUOTE]).
      exact (trim_between DQUOTE (ch ">") (((n ++ [DQUOTE]) ++ js " <") ++ s)
               eq_refl eq_refl).
    + cbn [app quoteScan]. rewrite N.eqb_refl. cbn [negb].
      rewrite (quoteScan_app true true) by by apply quoteScan_quoted.
      cbn [app quoteScan]. rewrite N.eqb_refl. cbn [negb].
      change (js " <") with [SP; ch "<"]. cbn [app quoteScan].
      change (SP =? DQUOTE) with false. change (SP =? ch ",") with false.
      change (ch "<" =? DQUOTE) with false. change (ch "<" =? ch ",") with false.
      cbn [andb]. cbv match.
      rewrite (quoteScan_app false false) by apply Hscan. done.
  - split; [done|apply Hscan].
Qed.

Lemma formatAddress_nonempty (n s : jsstring) : s ≠ [] → formatAddress n s ≠ [].
Proof. intros Hs. unfold formatAddress. by destruct n. Qed.

Lemma wellFormed_parts (r : Recipient) :
  wellFormed r = true →
  forallb nameChar (rName r) = true
  ∧ rLocal r ≠ [] ∧ Forall addressChar (rLocal r) ∧ (ch "+" ∉ rLocal r)
  ∧ Forall addressChar (rDomain r)
  ∧ match rTag r with
    | Some t => t ≠ [] ∧ Forall addressChar t ∧ (ch "@" ∉ t)
    | None => ch "+" ∉ rDomain r
    end.
Proof.
  unfold wellFormed. rewrite !andb_true_iff.
  intros ((((((Hn & _) & Hl) & Hlc) & Hlp) & Hd) & Ht).
  split; [done|]. split; [by apply truthy_true|].
  split; [by apply mailboxChars|].
  split; [by apply forallb_notChar_notin|].
  split; [by apply mailboxChars|].
  destruct (rTag r) as [t|].
  - rewrite !andb_true_iff in Ht. destruct Ht as ((Ht1 & Ht2) & Ht3).
    split; [by apply truthy_true|]. split; [by apply mailboxChars|].
    by apply forallb_notChar_notin.
  - by apply forallb_notChar_notin.
Qed.

Lemma wellFormed_name (r : Recipient) :
  wellFormed r = true →
  rQuoted r = true
  ∨ trim (rName r) = rName r ∧ (ch "," ∉ rName r)
    ∧ startsWith [SQUOTE] (rName r) && endsWith [SQUOTE] (rName r) = false.
Proof.
  unfold wellFormed. rewrite !andb_true_iff.
  intros ((((((_ & Hq) & _) & _) & _) & _) & _).
  apply orb_true_iff in Hq as [Hq|Hbare]; [by left|right].
  unfold bareName in Hbare. rewrite !andb_true_iff in Hbare.
  destruct Hbare as [[Htrim Hcomma] Hquote].
  split; [by apply bool_decide_eq_true in Htrim|].
  split; [by apply forallb_notChar_notin|by apply negb_true_iff].
Qed.

(** The address pattern on a display name without quotes before a mailbox
    in angle brackets. *)
Lemma parseAddress_named (n mailbox : jsstring) :
  forallb nameChar n = true → n ≠ [] → trim n = n →
  startsWith [SQUOTE] n && endsWith [SQUOTE] n = false →
  mailbox ≠ [] → trim mailbox = mailbox →
  ch "<" ∉ mailbox → ch ">" ∉ mailbox →
  parseAddress (n ++ js " <" ++ mailbox ++ js ">")
  = {| displayName := n; address := mailbox |}.
Proof.
  intros Hn Hne Htrim Hsingle Hmne Hmtrim Hlt Hgt.
  destruct (nameChars n Hn) as [Hdot Hquote].
  assert (n ++ js " <" ++ mailbox ++ js ">"
          = (n ++ [SP]) ++ ch "<" :: mailbox ++ ch ">" :: []) as ->.
  { change (js " <") with [SP; ch "<"]. change (js ">") with [ch ">"].
    by rewrite <- (assoc_L (++)). }
  rewrite parseAddress_angle; try done.
  - f_equal; [|done].
    assert (trim (n ++ [SP]) = n) as ->.
    { unfold trim. rewrite trimStart_app.
      assert (trimStart n = n) as ->.
      { destruct n as [|c t]; [done|].
        pose proof (trim_head (c :: t) c t Htrim) as Hc.
        cbn [trimStart]. by rewrite Hc. }
      apply truthy_true in Hne. rewrite Hne, trimEnd_snoc_space.
      destruct n as [|c t]; [done|].
      pose proof (trim_head (c :: t) c t Htrim) as Hc.
      unfold trim in Htrim. cbn [trimStart] in Htrim. by rewrite Hc in Htrim. }
    unfold stripQuotes. rewrite Hsingle, orb_false_r.
    destruct n as [|c t]; [done|]. cbn [startsWith].
    apply not_elem_of_cons in Hquote as [Hc _].
    apply N.eqb_neq in Hc. by rewrite Hc.
  - rewrite forallb_app, Hdot. done.
  - by rewrite app_nil_r.
Qed.

Lemma written_formatted (r : Recipient) :
  rQuoted r = true ∨ rName r = [] →
  written r = formatAddress (rName r) (mailboxOf r).
Proof.
  unfold written, formatAddress. intros [-> | ->]; [|done].
  destruct (truthy (rName r)); [|done]. by rewrite <- !(assoc_L (++)).
Qed.

Lemma untagged_formatted (r : Recipient) :
  rTag r ≠ None →
  untagged r = formatAddress (rName r) (rLocal r ++ ch "@" :: rDomain r).
Proof.
  unfold untagged, formatAddress. destruct (rTag r); [|done]. intros _.
  destruct (truthy (rName r)); [|done]. by rewrite <- !(assoc_L (++)).
Qed.

Lemma addressChar_plus : addressChar (ch "+").
Proof. by vm_compute. Qed.

Lemma addressChar_at : addressChar (ch "@").
Proof. by vm_compute. Qed.

Lemma addressChar_dot (s : jsstring) : Forall addressChar s → forallb dot s = true.
Proof.
  intros Hs. apply forallb_Forall_iff. eapply Forall_impl; [done|].
  intros c [Hc _]. unfold dot, isLineTerminator.
  unfold isWhiteSpace in Hc. rewrite !orb_false_iff in Hc.
  destruct Hc as ((((((((((((((? & H10) & ?) & ?) & H13) & ?) & ?) & ?) & ?) & H1) & H2) & ?) & ?) & ?) & ?).
  by rewrite H10, H13, H1, H2.
Qed.

Lemma mailboxOf_chars (r : Recipient) :
  wellFormed r = true →
  Forall addressChar (mailboxOf r) ∧ mailboxOf r ≠ []
  ∧ Forall addressChar (rLocal r ++ ch "@" :: rDomain r).
Proof.
  intros (_ & Hne & Hl & _ & Hd & Ht)%wellFormed_parts. split; [|split].
  - unfold mailboxOf. apply Forall_app. split; [done|].
    apply Forall_app. split.
    + destruct (rTag r) as [t|]; [|done]. destruct Ht as (_ & Ht & _).
      apply Forall_cons. split; [apply addressChar_plus|done].
    + apply Forall_cons. split; [apply addressChar_at|done].
  - unfold mailboxOf. by destruct (rLocal r).
  - apply Forall_app. split; [done|].
    apply Forall_cons. split; [apply addressChar_at|done].
Qed.

(** The address pattern on a recipient as written. *)
Lemma parseAddress_written (r : Recipient) :
  wellFormed r = true →
  parseAddress (written r)
  = {| displayName := rName r; address := mailboxOf r |}.
Proof.
  intros Hr. destruct (mailboxOf_chars r Hr) as (Hchars & Hne & _).
  destruct (addressChars _ Hchars) as (Htrim & Hlt & Hgt & _).
  pose proof (wellFormed_parts r Hr) as (Hn & _).
  destruct (nameChars _ Hn) as [Hdot _].
  destruct (rName r) as [|c t] eqn:Hname.
  { rewrite written_formatted by (right; done). rewrite Hname.
    by apply parseAddress_formatted. }
  destruct (wellFormed_name r Hr) as [Hq | (Hbare & _ & Hsingle)].
  - rewrite written_formatted by (by left). rewrite Hname.
    by apply parseAddress_formatted.
  - destruct (rQuoted r) eqn:Hq.
    { rewrite written_formatted by (by left). rewrite Hname.
      by apply parseAddress_formatted. }
    unfold written. rewrite Hq, Hname. cbn [truthy]. rewrite Hname in *.
    by apply parseAddress_named.
Qed.

Lemma written_piece (r : Recipient) :
  wellFormed r = true → addressPiece (written r) ∧ written r ≠ [].
Proof.
  intros Hr. destruct (mailboxOf_chars r Hr) as (Hchars & Hne & _).
  pose proof (wellFormed_parts r Hr) as (Hn & _).
  destruct (rName r) as [|c t] eqn:Hname.
  { rewrite written_formatted by (right; done). rewrite Hname. split.
    - by apply formatAddress_piece.
    - by apply formatAddress_nonempty. }
  destruct (rQuoted r) eqn:Hq.
  { rewrite written_formatted by (by left). rewrite Hname. split.
    - by apply formatAddress_piece.
    - by apply formatAddress_nonempty. }
  destruct (wellFormed_name r Hr) as [Hq' | (Hbare & Hcomma & _)]; [congruence|].
  destruct (nameChars _ Hn) as [_ Hquote].
  destruct (addressChars _ Hchars) as (_ & _ & _ & Hscan).
  unfold written. rewrite Hq, Hname. cbn [truthy]. rewrite Hname in *.
  pose proof (trim_head (c :: t) c t Hbare) as Hc.
  split; [split|done].
  - change (js ">") with [ch ">"]. rewrite !(assoc_L (++)).
    cbn [app].
    exact (trim_between c (ch ">") ((t ++ js " <") ++ mailboxOf r) Hc eq_refl).
  - assert (∀ s, DQUOTE ∉ s → ch "," ∉ s → quoteScan false s = Some false)
      as Hplain.
    { induction s as [|x s IH]; [done|].
      intros [Hx Hs]%not_elem_of_cons [Hy Hs']%not_elem_of_cons.
      cbn [quoteScan].
      rewrite (proj2 (N.eqb_neq x DQUOTE)), (proj2 (N.eqb_neq x (ch ","))) by done.
      cbn [andb]. by apply IH. }
    rewrite (quoteScan_app false false) by by apply Hplain.
    change (js " <") with [SP; ch "<"]. cbn [app quoteScan].
    change (SP =? DQUOTE) with false. change (SP =? ch ",") with false.
    change (ch "<" =? DQUOTE) with false. change (ch "<" =? ch ",") with false.
    cbn [andb]. cbv match.
    rewrite (quoteScan_app false false) by apply Hscan. done.
Qed.

(** The callback of the subaddressing stage on a recipient. *)
Lemma stripAddress_written (subaddressTag : jsstring) (r : Recipient) :
  wellFormed r = true →
  stripAddress subaddressTag (written r)
  = (match rTag r with
     | Some t => if truthy subaddressTag then subaddressTag else t
     | None => subaddressTag
     end, untagged r).
Proof.
  intros Hr.
  pose proof (wellFormed_parts r Hr) as (Hn & Hlne & Hl & Hlp & Hd & Ht).
  unfold stripAddress. rewrite parseAddress_written by done.
  cbn [address displayName]. unfold mailboxOf in *.
  destruct (rTag r) as [t|] eqn:Htag.
  - rewrite untagged_formatted by (by rewrite Htag).
    destruct Ht as (Htne & Htc & Hat). cbn [app].
    destruct (plusRegex_match (rLocal r) t (rDomain r))
      as (m & -> & -> & -> & ->); [done..|by apply addressChar_dot|].
    change (js "@") with [ch "@"]. cbn [app].
    by destruct (truthy subaddressTag).
  - unfold untagged. rewrite Htag. cbn [app]. rewrite plusRegex_no_plus; [done|].
    apply not_elem_of_app. split; [done|].
    apply not_elem_of_cons. split; [by vm_compute|done].
Qed.

Lemma mapAccum_stripAddress_written (subaddressTag : jsstring)
  (rs : list Recipient) :
  forallb wellFormed rs = true →
  mapAccum stripAddress subaddressTag (map written rs)
  = (if truthy subaddressTag then subaddressTag else firstTag rs,
     map untagged rs).
Proof.
  revert subaddressTag. induction rs as [|r more IH]; intros tag Hrs.
  - cbn. by destruct tag.
  - cbn [forallb] in Hrs. apply andb_true_iff in Hrs as [Hr Hmore].
    cbn [map mapAccum firstTag]. rewrite stripAddress_written by done.
    rewrite IH by done.
    apply wellFormed_parts in Hr as (_ & _ & _ & _ & _ & Ht).
    destruct (rTag r) as [t|]; [|done].
    destruct Ht as (Hne & _). apply truthy_true in Hne.
    destruct (truthy tag) eqn:Htag; [by rewrite Htag|by rewrite Hne].
Qed.

Lemma stripHeader_other (subaddressTag : jsstring) (h : Header) :
  toLowerCase (name h) ≠ js "to" → stripHeader subaddressTag h = (subaddressTag, h).
Proof. intros Hh. unfold stripHeader. by rewrite bool_decide_false. Qed.

Lemma mapAccum_stripHeader_other (subaddressTag : jsstring) (hs : list Header) :
  Forall (λ h, toLowerCase (name h) ≠ js "to") hs →
  mapAccum stripHeader subaddressTag hs = (subaddressTag, hs).
Proof.
  induction 1 as [|h more Hh _ IH]; [done|].
  cbn [mapAccum]. by rewrite stripHeader_other, IH.
Qed.

Lemma mapAccum_app {S A B : Type} (f : S → A → S * B) (s : S) (l1 l2 : list A) :
  mapAccum f s (l1 ++ l2)
  = let '(s1, b1) := mapAccum f s l1 in
    let '(s2, b2) := mapAccum f s1 l2 in (s2, b1 ++ b2).
Proof.
  revert s. induction l1 as [|a t IH]; intros s; cbn [app mapAccum].
  - by destruct (mapAccum f s l2).
  - destruct (f s a) as [s1 b]. rewrite IH.
    destruct (mapAccum f s1 t) as [s2 bs]. by destruct (mapAccum f s2 l2).
Qed.

Lemma stripHeader_recipients (h : Header) (rs : list Recipient) :
  toLowerCase (name h) = js "to" →
  value h = join (js ", ") (map written rs) →
  forallb wellFormed rs = true →
  stripHeader [] h
  = (firstTag rs, mkHeader (name h) (join (js ", ") (map untagged rs))).
Proof.
  intros Hname Hvalue Hrs. unfold stripHeader.
  rewrite bool_decide_true by done. rewrite Hvalue.
  rewrite splitAddresses_pieces.
  - by rewrite mapAccum_stripAddress_written.
  - apply Forall_map. apply forallb_Forall_iff in Hrs.
    eapply Forall_impl; [done|]. intros r Hr. by apply written_piece.
  - intros Hlast%last_Some_elem_of%list_elem_of_In%in_map_iff.
    destruct Hlast as (r & Hempty & Hr%list_elem_of_In).
    apply forallb_Forall_iff in Hrs. rewrite Forall_forall in Hrs.
    by apply (written_piece r (Hrs r Hr)).
Qed.

Lemma processSubaddressing_recipients (h : Header) (rs : list Recipient)
  (before after : list Header) :
  toLowerCase (name h) = js "to" →
  value h = join (js ", ") (map written rs) →
  forallb wellFormed rs = true →
  Forall (λ other, toLowerCase (name other) ≠ js "to") (before ++ after) →
  processSubaddressing (before ++ h :: after)
  = (firstTag rs,
     before ++ mkHeader (name h) (join (js ", ") (map untagged rs)) :: after).
Proof.
  intros Hname Hvalue Hrs [Hbefore Hafter]%Forall_app.
  unfold processSubaddressing. rewrite mapAccum_app.
  rewrite mapAccum_stripHeader_other by done. cbn [mapAccum].
  rewrite (stripHeader_recipients h rs) by done.
  by rewrite mapAccum_stripHeader_other.
Qed.

(** X6.  Subaddressing on a To header that lists recipients, each with an
    optional quoted display name and a mailbox [local@domain] or
    [local+tag@domain]: every tag is removed, the tag reported is that of
    the first tagged recipient, and the other headers are left as
    they are. *)
Theorem subaddressing_recipients (h : Header) (rs : list Recipient)
  (before after : list Header) :
  toLowerCase (name h) = js "to" →
  value h = join (js ", ") (map written rs) →
  forallb wellFormed rs = true →
  Forall (λ other, toLowerCase (name other) ≠ js "to") (before ++ after) →
  processSubaddressing (before ++ h :: after)
  = (firstTag rs,
     before ++ mkHeader (name h) (join (js ", ") (map untagged rs)) :: after).
Proof. apply processSubaddressing_recipients. Qed.

(** ** [prependSubjectTag] *)

Lemma includes_prefix (p b : jsstring) : includes p (p ++ b) = true.
Proof. apply (includes_app [] p b). Qed.

(** X7.  For a tag of Basic Latin text, tagging the subject is idempotent;
    it keeps the header names, and with a tag every Subject header of its
    output holds the bracketed tag (compared without regard to letter
    case). *)
Theorem prependSubjectTag_idempotent (headers : list Header) (tag : jsstring) :
  basicLatin tag = true →
  let tagged := prependSubjectTag headers tag in
  prependSubjectTag tagged tag = tagged
  ∧ map name tagged = map name headers
  ∧ (tag ≠ [] →
     Forall (λ h, toLowerCase (name h) = js "subject" →
                  includes (toLowerCase (js "[" ++ tag ++ js "]"))
                    (toLowerCase (value h)) = true) tagged).
Proof.
  intros Hlatin tagged. subst tagged. unfold prependSubjectTag.
  destruct (truthy tag) eqn:Htag; cbn [negb].
  2:{ repeat split. intros Hne. apply truthy_true in Hne. congruence. }
  match goal with |- context [map ?g headers] => set (f := g) end.
  assert (basicLatin (js "[" ++ tag ++ js "]") = true) as Hbracket.
  { by rewrite !basicLatin_app, Hlatin. }
  assert (∀ h, toLowerCase (name (f h)) = js "subject" →
               includes (toLowerCase (js "[" ++ tag ++ js "]"))
                 (toLowerCase (value (f h))) = true) as Hf.
  { intros h. unfold f. destruct (bool_decide _) eqn:Hs; cbn [andb].
    - destruct (includes _ (toLowerCase (value h))) eqn:Hi; cbn [negb]; [done|].
      cbn [name value]. intros _.
      rewrite (toLowerCase_latin_app (js "[" ++ tag ++ js "]") (js " " ++ value h))
        by done.
      rewrite toLowerCase_latin by done. apply includes_prefix.
    - intros Hsubject. by rewrite bool_decide_true in Hs. }
  split; [|split].
  - rewrite map_map. apply map_ext. intros h. unfold f at 1.
    destruct (bool_decide _) eqn:Hs; cbn [andb]; [|done].
    apply bool_decide_eq_true in Hs. by rewrite (Hf h Hs).
  - rewrite map_map. apply map_ext. intros h. unfold f.
    by destruct (_ && _).
  - intros _. apply Forall_map, Forall_forall. intros h _. apply Hf.
Qed.

(** ** What the rewriting stages leave alone *)

Lemma retouched_refl (names : list jsstring) (hs : list Header) :
  Forall2 (retouched names) hs hs.
Proof. induction hs; constructor; [by split|done]. Qed.

Lemma headersRetouched_refl (names : list jsstring) (context : EmailPipelineContext) :
  headersRetouched names context context.
Proof.
  unfold headersRetouched. repeat split.
  destruct (parsedEmail context); [|done]. split; [done|apply retouched_refl].
Qed.

Lemma headersRetouched_setHeaders (names : list jsstring)
  (context : EmailPipelineContext) (parsed : ParsedEmail) (hs : list Header) :
  parsedEmail context = Some parsed →
  Forall2 (retouched names) (headers parsed) hs →
  headersRetouched names context (setHeaders context hs).
Proof.
  intros Hparsed Hhs. unfold headersRetouched, setHeaders. rewrite Hparsed.
  by cbn.
Qed.

Lemma retouched_map (names : list jsstring) (f : Header → Header)
  (hs : list Header) :
  (∀ h, retouched names h (f h)) → Forall2 (retouched names) hs (map f hs).
Proof. intros Hf. induction hs; constructor; [apply Hf|done]. Qed.

Lemma retouched_mapAccum {S : Type} (names : list jsstring)
  (f : S → Header → S * Header) (s : S) (hs : list Header) :
  (∀ s h, retouched names h (f s h).2) →
  Forall2 (retouched names) hs (mapAccum f s hs).2.
Proof.
  intros Hf. revert s. induction hs as [|h more IH]; intros s; [constructor|].
  cbn [mapAccum]. pose proof (Hf s h) as Hh. destruct (f s h) as [s1 h'].
  pose proof (IH s1) as Ht. destruct (mapAccum f s1 more) as [s2 hs'].
  cbn [snd] in *. by constructor.
Qed.

Lemma retouched_trans (names1 names2 : list jsstring) (hs1 hs2 hs3 : list Header) :
  Forall2 (retouched names1) hs1 hs2 →
  Forall2 (retouched names2) hs2 hs3 →
  Forall2 (retouched (names1 ++ names2)) hs1 hs3.
Proof.
  intros H12. revert hs3. induction H12 as [|h1 h2 t1 t2 [Hn1 Hk1] _ IH];
    intros hs3 H23; inversion H23 as [|? h3 ? t3 [Hn2 Hk2] Ht]; subst;
    constructor; [|by apply IH].
  split; [congruence|]. intros [Hnot1 Hnot2]%not_elem_of_app.
  rewrite Hn1 in Hk2. rewrite (Hk2 Hnot2). by apply Hk1.
Qed.

Lemma stripHeader_retouched (subaddressTag : jsstring) (h : Header) :
  retouched [js "to"] h (stripHeader subaddressTag h).2.
Proof.
  unfold stripHeader. case_bool_decide as Hto.
  - destruct (mapAccum _ _ _). split; [done|].
    intros Hnot. destruct Hnot. rewrite Hto. by left.
  - by split.
Qed.

Lemma subaddressing_stage (context : EmailPipelineContext) :
  let '(result, out) := SubaddressingProcessor_process context in
  result = continue
  ∧ headersRetouched [js "to"; js "subject"] context out.
Proof.
  unfold SubaddressingProcessor_process.
  destruct (parsedEmail context) as [parsed|] eqn:Hparsed.
  2:{ split; [done|apply headersRetouched_refl]. }
  pose proof (retouched_mapAccum [js "to"] stripHeader [] (headers parsed)
                stripHeader_retouched) as Hstrip.
  unfold processSubaddressing.
  destruct (mapAccum stripHeader [] (headers parsed)) as [tag hs].
  split; [done|]. apply (headersRetouched_setHeaders _ _ parsed); [done|].
  apply (retouched_trans [js "to"] [js "subject"] _ hs); [done|].
  unfold prependSubjectTag. destruct (truthy tag); cbn [negb];
    [|apply retouched_refl].
  apply retouched_map. intros h. case_bool_decide as Hs; cbn [andb]; [|by split].
  destruct (includes _ _); cbn [negb]; [by split|]. split; [done|].
  intros Hnot. destruct Hnot. rewrite Hs. by left.
Qed.

(** X8.  The subaddressing stage always lets the run continue, and leaves
    everything but To and Subject headers as it found it: the message, the
    environment, the raw bytes, the body, the number, order and names of
    the headers, and every header whose name is neither To nor Subject. *)
Theorem subaddressing_frame (context : EmailPipelineContext) :
  let '(result, out) := SubaddressingProcessor_process context in
  result = continue
  ∧ headersRetouched [js "to"; js "subject"] context out.
Proof. apply subaddressing_stage. Qed.

(** ** [DomainCollapseProcessor] *)

Lemma domain_collapse_stage (context : EmailPipelineContext) :
  let '(result, out) := DomainCollapseProcessor_process context in
  result = continue
  ∧ headersRetouched [js "to"; js "cc"; js "bcc"] context out.
Proof.
  unfold DomainCollapseProcessor_process.
  destruct (parsedEmail context) as [parsed|] eqn:Hparsed.
  2:{ split; [done|apply headersRetouched_refl]. }
  destruct (truthy _); cbn [negb]; [|split; [done|apply headersRetouched_refl]].
  case_bool_decide; [split; [done|apply headersRetouched_refl]|].
  split; [done|]. apply (headersRetouched_setHeaders _ _ parsed); [done|].
  apply retouched_map. intros h. unfold collapseHeader.
  case_bool_decide as Hname; by split.
Qed.

(** X9.  The domain-collapse stage always lets the run continue, and leaves
    everything but To, Cc and Bcc headers as it found it. *)
Theorem domain_collapse_frame (context : EmailPipelineContext) :
  let '(result, out) := DomainCollapseProcessor_process context in
  result = continue
  ∧ headersRetouched [js "to"; js "cc"; js "bcc"] context out.
Proof. apply domain_collapse_stage. Qed.
(** ** [parseDomainCollapseMap] *)

Lemma splitSeparatorsLoop_piece (e more current : jsstring) (inRun : bool) :
  forallb (λ c, negb (separator c)) e = true →
  splitSeparatorsLoop (e ++ more) current inRun
  = splitSeparatorsLoop more (current ++ e)
      (match e with [] => inRun | _ :: _ => false end).
Proof.
  revert current inRun. induction e as [|c t IH]; intros current inRun He.
  - by rewrite app_nil_r.
  - cbn [forallb] in He. apply andb_true_iff in He as [Hc Ht].
    cbn [app splitSeparatorsLoop]. fold (separator c).
    apply negb_true_iff in Hc. rewrite Hc. rewrite IH by done.
    rewrite <- (assoc_L (++)). by destruct t.
Qed.

Lemma splitSeparators_join (c : char) (blank : jsstring)
  (e : jsstring) (es : list jsstring) (current : jsstring) (inRun : bool) :
  separator c = true →
  forallb isWhiteSpace blank = true →
  Forall (λ e, e ≠ [] ∧ forallb (λ c, negb (separator c)) e = true) (e :: es) →
  splitSeparatorsLoop (join (c :: blank) (e :: es)) current inRun
  = (current ++ e) :: map (app blank) es.
Proof.
  intros Hc Hblank Hes. revert e current inRun Hes.
  induction es as [|e' es IH]; intros e current inRun Hes.
  - apply Forall_cons in Hes as [[Hne He] _]. cbn [join map].
    rewrite <- (app_nil_r e) at 1. rewrite splitSeparatorsLoop_piece by done.
    by destruct e.
  - apply Forall_cons in Hes as [[Hne He] Hes].
    change (join (c :: blank) (e :: e' :: es))
      with (e ++ (c :: blank) ++ join (c :: blank) (e' :: es)).
    rewrite splitSeparatorsLoop_piece by done.
    destruct e as [|x t]; [done|].
    cbn [app splitSeparatorsLoop]. fold (separator c). rewrite Hc.
    cbn [map]. f_equal.
    assert (forallb (λ c, negb (separator c)) blank = true) as Hplain.
    { apply forallb_Forall_iff. apply forallb_Forall_iff in Hblank.
      eapply Forall_impl; [done|]. intros y Hy. unfold separator.
      destruct (N.eqb_spec y (ch ",")) as [->|]; [by vm_compute in Hy|].
      destruct (N.eqb_spec y (ch ";")) as [->|]; [by vm_compute in Hy|done]. }
    rewrite splitSeparatorsLoop_piece by done. cbn [app].
    by rewrite IH.
Qed.

Lemma trim_nonblank (s : jsstring) (c : char) :
  c ∈ s → isWhiteSpace c = false → trim s ≠ [].
Proof.
  intros Hc Hws Hnil. apply trim_nil in Hnil. rewrite Forall_forall in Hnil.
  specialize (Hnil c Hc). congruence.
Qed.

Lemma configPair_parts (pair : jsstring * jsstring) :
  configPair pair = true →
  pair.1 ≠ [] ∧ pair.2 ≠ [] ∧ trim pair.1 = pair.1 ∧ trim pair.2 = pair.2
  ∧ forallb (λ c, negb (separator c)) (configEntry pair) = true
  ∧ (ch "=" ∉ pair.1)
  ∧ toLowerCase pair.1 ≠ js "__proto__"
  ∧ truthy (toLowerCase pair.1) = true.
Proof.
  unfold configPair. rewrite !andb_true_iff, negb_true_iff, !bool_decide_eq_true,
    bool_decide_eq_false, !(truthy_true pair.1), !(truthy_true pair.2).
  intros (((((((H1 & H2) & H3) & H4) & H5) & H6) & H7) & H8).
  repeat split; try done.
  - unfold configEntry. rewrite forallb_app. cbn [forallb].
    rewrite H6, andb_true_r. apply forallb_Forall_iff.
    apply forallb_Forall_iff in H5. eapply Forall_impl; [done|].
    intros c Hc. by apply andb_true_iff in Hc as [? _].
  - apply notin_Forall. apply forallb_Forall_iff in H5.
    eapply Forall_impl; [done|]. intros c Hc.
    apply andb_true_iff in Hc as [_ Hc]. by apply negb_true_iff, N.eqb_neq in Hc.
Qed.

Lemma trim_last (s t : jsstring) (y : char) :
  trim s = t ++ [y] → isWhiteSpace y = false.
Proof.
  unfold trim, trimEnd. intros H. apply (f_equal (@rev N)) in H.
  rewrite rev_involutive, rev_app_distr in H. cbn [rev app] in H.
  by apply trimStart_head in H.
Qed.

Lemma trim_configEntry (pair : jsstring * jsstring) :
  configPair pair = true → trim (configEntry pair) = configEntry pair.
Proof.
  intros (Hd & Ht & Htd & Htt & _)%configPair_parts.
  destruct pair as [d t]. cbn [fst snd] in *. unfold configEntry. cbn [fst snd].
  destruct d as [|x d]; [done|].
  destruct (exists_last Ht) as (t' & y & ->).
  pose proof (trim_head _ _ _ Htd) as Hx.
  pose proof (trim_last _ _ _ Htt) as Hy.
  assert ((x :: d) ++ ch "=" :: t' ++ [y] = x :: (d ++ ch "=" :: t') ++ [y]) as ->.
  { cbn [app]. by rewrite <- (assoc_L (++)). }
  by apply trim_between.
Qed.

Lemma collapseEntry_configEntry (m : gmap jsstring jsstring)
  (pair : jsstring * jsstring) :
  configPair pair = true →
  collapseEntry m (configEntry pair) = <[toLowerCase pair.1 := pair.2]> m.
Proof.
  intros (Hd & Ht & Htd & Htt & _ & Heq & Hproto & Hlower)%configPair_parts.
  unfold collapseEntry, configEntry.
  rewrite indexOf_app by done.
  rewrite take_app_length.
  replace (length pair.1 + 1)%nat with (length (pair.1 ++ [ch "="])) 
    by (rewrite length_app; simpl; lia).
  rewrite (cons_middle (ch "=") pair.1 pair.2), (assoc_L (++)), drop_app_length.
  rewrite Htd, Htt, Hlower.
  apply truthy_true in Ht. rewrite Ht. cbn [andb].
  unfold setProperty. by rewrite bool_decide_false.
Qed.

(** X10.  A configuration that lists entries [domain=target], separated by
    a comma or a semicolon with optional white space after it, is read as
    the map from each domain in lower case to its target; of two entries
    for one domain the later one counts. *)
Theorem parseDomainCollapseMap_entries (c : char) (blank : jsstring)
  (pairs : list (jsstring * jsstring)) :
  separator c = true →
  forallb isWhiteSpace blank = true →
  forallb configPair pairs = true →
  parseDomainCollapseMap (join (c :: blank) (map configEntry pairs))
  = fold_left (λ m pair, <[toLowerCase pair.1 := pair.2]> m) pairs ∅.
Proof.
  intros Hc Hblank Hpairs. unfold parseDomainCollapseMap, collapseEntries.
  apply forallb_Forall_iff in Hpairs.
  assert (filter (λ s, truthy s = true)
            (map trim (splitSeparators (join (c :: blank) (map configEntry pairs))))
          = map configEntry pairs) as ->.
  { destruct pairs as [|pair more]; [done|]. cbn [map]. unfold splitSeparators.
    rewrite splitSeparators_join; [|done|done|].
    2:{ rewrite <- (map_cons configEntry). apply Forall_map.
        eapply Forall_impl; [done|]. intros p Hp.
        apply configPair_parts in Hp as (Hd & _ & _ & _ & Hsep & _).
        split; [|done]. unfold configEntry. by destruct p.1. }
    apply Forall_cons in Hpairs as [Hpair Hmore].
    cbn [app map]. rewrite trim_configEntry by done.
    rewrite filter_cons_True
      by (apply truthy_true; unfold configEntry; by destruct pair.1).
    f_equal. clear Hpair.
    induction Hmore as [|p l Hp _ IH]; [done|]. cbn [map].
    rewrite trim_blank_prefix, trim_configEntry by done.
    rewrite filter_cons_True
      by (apply truthy_true; unfold configEntry; by destruct p.1).
    by rewrite IH. }
  generalize (∅ : gmap jsstring jsstring).
  induction Hpairs as [|pair more Hpair _ IH]; intros m; [done|].
  cbn [map fold_left]. rewrite collapseEntry_configEntry by done. apply IH.
Qed.

(** ** [parseEmail] *)

Lemma spec_group_Forall (P : jsstring → Prop) (section : list jsstring) :
  Forall P section →
  Forall P (spec_group section).1
  ∧ Forall (λ block, P block.1 ∧ Forall P block.2) (spec_group section).2.
Proof.
  induction 1 as [|line more Hline _ [IH1 IH2]]; [by split|].
  unfold spec_group in *. cbn [fold_right].
  destruct (spec_isContinuation line); cbn [fst snd].
  - split; [by constructor|done].
  - split; [done|]. constructor; [by split|done].
Qed.

Lemma spec_unfold_notin (c : char) (v : jsstring) (continuations : list jsstring) :
  c ≠ SP → c ∉ v → Forall (λ line, c ∉ line) continuations →
  c ∉ spec_unfold v continuations.
Proof.
  intros Hc Hv Hlines. revert v Hv. unfold spec_unfold.
  induction Hlines as [|line more Hline _ IH]; intros v Hv; [done|].
  cbn [fold_left]. apply IH. rewrite !not_elem_of_app. split; [done|].
  split; [|by apply notin_trim]. apply not_elem_of_cons. split; [done|].
  apply not_elem_of_nil.
Qed.

Lemma spec_headers_wellShaped (section : list jsstring) :
  Forall (λ line, LF ∉ line) section →
  Forall wellShaped (spec_headers section).
Proof.
  intros Hsection. unfold spec_headers, spec_pairs.
  destruct (spec_group_Forall _ _ Hsection) as [_ Hblocks].
  induction Hblocks as [|block more [Hfirst Hrest] _ IH]; [constructor|].
  cbn [map]. rewrite filter_cons. case_decide as Hname; [|done].
  cbn [map]. constructor; [|done]. clear IH.
  unfold spec_header in *. apply truthy_true in Hname.
  pose proof (splitColon_canonical block.1 Hfirst) as Hcan.
  destruct (spec_splitColon block.1) as [n v]. cbn [fst snd] in *.
  destruct (Hcan Hname) as (_ & Htrim & _ & Hcolon & Hn & Hv).
  unfold wellShaped, mkHeader. cbn [name value raw].
  repeat split; try done.
  apply spec_unfold_notin; done.
Qed.

Lemma linesOf_plain (rawEmail : bytes) :
  Forall (λ line, (LF ∉ line) ∧ scalarString line) (linesOf rawEmail).
Proof.
  unfold linesOf. apply Forall_and. split.
  - apply split_pieces.
  - apply scalar_split, scalar_replaceCRLF, stripBOM_Forall, utf8Items_scalar.
Qed.

(** X11.  Parsing never fails, and every header it returns is well shaped:
    its name is not empty, trimmed and free of colons; neither name nor
    value holds a line feed; its raw text is the name, a colon, a space and
    the value. *)
Theorem parseEmail_headers_wellShaped (rawEmail : bytes) :
  ∃ parsed, parseEmail rawEmail = Some parsed
            ∧ Forall wellShaped (headers parsed).
Proof.
  eexists. split; [apply parseEmail_sections|]. cbn [headers].
  apply spec_headers_wellShaped, headerSection_Forall.
  eapply Forall_impl; [apply linesOf_plain|]. by intros line [? _].
Qed.

Lemma bodySection_Forall (P : jsstring → Prop) (lines : list jsstring) :
  Forall P lines → Forall P (spec_bodySection lines).
Proof.
  induction 1 as [|line more Hline Hmore IH]; simpl; [done|].
  by destruct (spec_isBlank line).
Qed.

(** X12.  Parsing a message and serialising the result never fails.  The
    bytes produced are the header lines [name: value] joined by CR LF, an
    empty line, and the body: the lines after the first blank line, joined
    by a line feed, without a byte order mark at their start. *)
Theorem parse_reSerialise (rawEmail : bytes) :
  ∃ parsed,
    parseEmail rawEmail = Some parsed
    ∧ reSerialiseEmail (headers parsed) (body parsed)
      = Some (TextEncoder_encode
                (join [CR; LF] (map (λ h, name h ++ js ": " ++ value h) (headers parsed))
                   ++ [CR; LF; CR; LF]
                   ++ stripBOM (join [LF] (spec_bodySection (linesOf rawEmail))))).
Proof.
  eexists. split; [apply parseEmail_sections|]. cbn [headers body].
  unfold reSerialiseEmail. rewrite decode_encode; [done|].
  apply scalar_join; [by repeat constructor|].
  apply bodySection_Forall.
  eapply Forall_impl; [apply linesOf_plain|]. by intros line [_ ?].
Qed.
(** ** [base64ArrayBuffer] *)

Lemma enc_sextet (i : N) :
  i < 64 → ∃ c, enc i = [c] ∧ sextet c = Some i ∧ (c =? PAD) = false.
Proof.
  intros Hi.
  assert (forallb (λ n, match enc (N.of_nat n) with
                        | [c] => bool_decide (sextet c = Some (N.of_nat n))
                                 && negb (c =? PAD)
                        | _ => false
                        end) (seq 0 64) = true) as Hall by (by vm_compute).
  rewrite forallb_forall in Hall.
  assert (In (N.to_nat i) (seq 0 64)) as Hin by (apply in_seq; lia).
  specialize (Hall _ Hin). rewrite N2Nat.id in Hall.
  destruct (enc i) as [|c [|? ?]]; try done.
  exists c. apply andb_true_iff in Hall as [Hc1 Hc2].
  split; [done|].
  split; [by apply bool_decide_eq_true in Hc1|by apply negb_true_iff].
Qed.

Lemma byte_parts (x : byte) :
  let n := Byte.to_N x in
  N.shiftr n 2 < 64 ∧ N.land n 3 < 4 ∧ N.shiftr n 4 < 16 ∧ N.land n 15 < 16
  ∧ N.shiftr n 6 < 4 ∧ N.land n 63 < 64
  ∧ N.shiftr n 2 * 4 + N.land n 3 = n
  ∧ N.shiftr n 4 * 16 + N.land n 15 = n
  ∧ N.shiftr n 6 * 64 + N.land n 63 = n.
Proof. by destruct x; vm_compute. Qed.

(** The three bytes of a chunk are read back from it unchanged. *)
Lemma byte_masks (x : byte) :
  let n := Byte.to_N x in
  N.land (N.shiftl n 16) 0xff0000 = N.shiftl n 16
  ∧ N.land (N.shiftl n 8) 0xff0000 = 0 ∧ N.land n 0xff0000 = 0
  ∧ N.land (N.shiftl n 16) 0xff00 = 0
  ∧ N.land (N.shiftl n 8) 0xff00 = N.shiftl n 8 ∧ N.land n 0xff00 = 0
  ∧ N.land (N.shiftl n 16) 0xff = 0 ∧ N.land (N.shiftl n 8) 0xff = 0
  ∧ N.land n 0xff = n
  ∧ N.shiftr (N.shiftl n 16) 16 = n ∧ N.shiftr (N.shiftl n 8) 8 = n.
Proof. by destruct x; vm_compute. Qed.

Lemma chunk_bytes (x0 x1 x2 : byte) :
  let chunk :=
    N.lor (N.lor (N.shiftl (Byte.to_N x0) 16) (N.shiftl (Byte.to_N x1) 8))
      (Byte.to_N x2) in
  N.shiftr (N.land chunk 0xff0000) 16 = Byte.to_N x0
  ∧ N.shiftr (N.land chunk 0xff00) 8 = Byte.to_N x1
  ∧ N.land chunk 0xff = Byte.to_N x2.
Proof.
  intros chunk. subst chunk. rewrite !N.land_lor_distr_l.
  destruct (byte_masks x0) as (A1 & _ & _ & A4 & _ & _ & A7 & _ & _ & A10 & _).
  destruct (byte_masks x1) as (_ & B2 & _ & _ & B5 & _ & _ & B8 & _ & _ & B11).
  destruct (byte_masks x2) as (_ & _ & C3 & _ & _ & C6 & _ & _ & C9 & _).
  cbv zeta in *.
  rewrite A1, A4, A7, B2, B5, B8, C3, C6, C9.
  rewrite !N.lor_0_r, !N.lor_0_l. by rewrite A10, B11.
Qed.

Lemma sextet_high (u v : N) :
  u < 4 → v < 16 →
  let i := N.lor (N.shiftl u 4) v in i < 64 ∧ i / 16 = u ∧ i mod 16 = v.
Proof.
  intros Hu Hv.
  assert (forallb (λ a, forallb (λ b,
            let i := N.lor (N.shiftl (N.of_nat a) 4) (N.of_nat b) in
            (i <? 64) && (i / 16 =? N.of_nat a) && (i mod 16 =? N.of_nat b))
            (seq 0 16)) (seq 0 4) = true) as Hall by (by vm_compute).
  rewrite forallb_forall in Hall.
  specialize (Hall (N.to_nat u) ltac:(apply in_seq; lia)).
  rewrite forallb_forall in Hall.
  specialize (Hall (N.to_nat v) ltac:(apply in_seq; lia)).
  rewrite !N2Nat.id in Hall. cbv zeta in *.
  rewrite !andb_true_iff, N.ltb_lt, !N.eqb_eq in Hall. tauto.
Qed.

Lemma sextet_low (u v : N) :
  u < 16 → v < 4 →
  let i := N.lor (N.shiftl u 2) v in i < 64 ∧ i / 4 = u ∧ i mod 4 = v.
Proof.
  intros Hu Hv.
  assert (forallb (λ a, forallb (λ b,
            let i := N.lor (N.shiftl (N.of_nat a) 2) (N.of_nat b) in
            (i <? 64) && (i / 4 =? N.of_nat a) && (i mod 4 =? N.of_nat b))
            (seq 0 4)) (seq 0 16) = true) as Hall by (by vm_compute).
  rewrite forallb_forall in Hall.
  specialize (Hall (N.to_nat u) ltac:(apply in_seq; lia)).
  rewrite forallb_forall in Hall.
  specialize (Hall (N.to_nat v) ltac:(apply in_seq; lia)).
  rewrite !N2Nat.id in Hall. cbv zeta in *.
  rewrite !andb_true_iff, N.ltb_lt, !N.eqb_eq in Hall. tauto.
Qed.

Lemma byteOfN_to_N (x : byte) : byteOfN (Byte.to_N x) = x.
Proof. unfold byteOfN. by rewrite Byte.of_to_N. Qed.

(** The four alphabet positions of a group of three bytes, and what the
    decoder computes from them. *)
Lemma group_sextets (x0 x1 x2 : byte) :
  let n0 := Byte.to_N x0 in
  let n1 := Byte.to_N x1 in
  let n2 := Byte.to_N x2 in
  let s0 := N.shiftr n0 2 in
  let s1 := N.lor (N.shiftl (N.land n0 3) 4) (N.shiftr n1 4) in
  let s2 := N.lor (N.shiftl (N.land n1 15) 2) (N.shiftr n2 6) in
  let s3 := N.land n2 63 in
  (s0 < 64 ∧ s1 < 64 ∧ s2 < 64 ∧ s3 < 64)
  ∧ byteOfN (s0 * 4 + s1 / 16) = x0
  ∧ byteOfN ((s1 mod 16) * 16 + s2 / 4) = x1
  ∧ byteOfN ((s2 mod 4) * 64 + s3) = x2.
Proof.
  intros n0 n1 n2 s0 s1 s2 s3.
  destruct (byte_parts x0) as (A1 & A2 & _ & _ & _ & _ & A7 & _).
  destruct (byte_parts x1) as (_ & _ & B3 & B4 & _ & _ & _ & B8 & _).
  destruct (byte_parts x2) as (_ & _ & _ & _ & C5 & C6 & _ & _ & C9).
  cbv zeta in *. fold n0 in A1, A2, A7. fold n1 in B3, B4, B8.
  fold n2 in C5, C6, C9.
  destruct (sextet_high _ _ A2 B3) as (H1 & H1d & H1m).
  destruct (sextet_low _ _ B4 C5) as (H2 & H2d & H2m).
  cbv zeta in *. fold s1 in H1, H1d, H1m. fold s2 in H2, H2d, H2m.
  split; [done|]. subst s0 s3. rewrite H1d, H1m, H2d, H2m.
  rewrite A7, B8, C9. subst n0 n1 n2. by rewrite !byteOfN_to_N.
Qed.

Lemma decode_group (c0 c1 c2 c3 : char) (more : jsstring) (s0 s1 s2 s3 : N) :
  sextet c0 = Some s0 → sextet c1 = Some s1 →
  sextet c2 = Some s2 → sextet c3 = Some s3 →
  (c2 =? PAD) = false → (c3 =? PAD) = false →
  rfc4648_decode (c0 :: c1 :: c2 :: c3 :: more)
  = decoded ← rfc4648_decode more;
    Some (byteOfN (s0 * 4 + s1 / 16) :: byteOfN ((s1 mod 16) * 16 + s2 / 4)
            :: byteOfN ((s2 mod 4) * 64 + s3) :: decoded).
Proof.
  intros H0 H1 H2 H3 P2 P3. cbn [rfc4648_decode].
  rewrite H0, H1, P2, H2, P3, H3. done.
Qed.

Lemma base64_decode_encode (arrayBuffer : bytes) :
  rfc4648_decode (base64ArrayBuffer arrayBuffer) = Some arrayBuffer.
Proof.
  remember (length arrayBuffer) as n eqn:Hn.
  assert (length arrayBuffer ≤ n)%nat as Hlen by lia. clear Hn.
  revert arrayBuffer Hlen. induction n as [|n IH]; intros b Hlen.
  { destruct b; [done|simpl in Hlen; lia]. }
  destruct b as [|x0 [|x1 [|x2 more]]]; [done| | |].
  - cbn [base64ArrayBuffer].
    destruct (byte_parts x0) as (A1 & A2 & _ & _ & _ & _ & A7 & _).
    cbv zeta in *.
    destruct (sextet_high _ 0 A2 ltac:(lia)) as (H1 & H1d & H1m).
    cbv zeta in *. rewrite N.lor_0_r in H1, H1d, H1m.
    destruct (enc_sextet _ A1) as (c0 & -> & E0 & _).
    destruct (enc_sextet _ H1) as (c1 & -> & E1 & _).
    change (js "==") with [PAD; PAD]. cbn [app rfc4648_decode].
    rewrite E0, E1. cbn [mbind option_bind]. rewrite N.eqb_refl.
    cbn [andb]. rewrite bool_decide_true by done.
    by rewrite H1d, A7, byteOfN_to_N.
  - cbn [base64ArrayBuffer].
    destruct (group_sextets x0 x1 x00) as ((A0 & A1 & _) & G0 & G1 & _).
    cbv zeta in *.
    destruct (byte_parts x1) as (_ & _ & _ & B4 & _).
    cbv zeta in *.
    destruct (sextet_low _ 0 B4 ltac:(lia)) as (H2 & H2d & H2m).
    cbv zeta in *. rewrite N.lor_0_r in H2, H2d, H2m.
    change (N.shiftr (Byte.to_N x00) 6) with 0 in G1.
    rewrite N.lor_0_r in G1.
    destruct (enc_sextet _ A0) as (c0 & -> & E0 & _).
    destruct (enc_sextet _ A1) as (c1 & -> & E1 & _).
    destruct (enc_sextet _ H2) as (c2 & -> & E2 & P2).
    change (js "=") with [PAD]. cbn [app rfc4648_decode].
    rewrite E0, E1. cbn [mbind option_bind]. rewrite P2, E2.
    cbn [mbind option_bind]. rewrite N.eqb_refl.
    rewrite bool_decide_true by done. by rewrite G0, G1.
  - cbn [base64ArrayBuffer]. cbv zeta.
    destruct (chunk_bytes x0 x1 x2) as (-> & -> & ->).
    destruct (group_sextets x0 x1 x2) as ((A0 & A1 & A2 & A3) & G0 & G1 & G2).
    cbv zeta in *.
    destruct (enc_sextet _ A0) as (c0 & -> & E0 & _).
    destruct (enc_sextet _ A1) as (c1 & -> & E1 & _).
    destruct (enc_sextet _ A2) as (c2 & -> & E2 & P2).
    destruct (enc_sextet _ A3) as (c3 & -> & E3 & P3).
    cbn [app]. rewrite (decode_group _ _ _ _ _ _ _ _ _ E0 E1 E2 E3 P2 P3).
    rewrite IH by (simpl in Hlen; lia). cbn [mbind option_bind].
    by rewrite G0, G1, G2.
Qed.
(** X13.  The Base64 text of a buffer decodes to the buffer, so two
    different buffers never have the same text. *)
Theorem base64_round_trip (arrayBuffer : bytes) :
  rfc4648_decode (base64ArrayBuffer arrayBuffer) = Some arrayBuffer
  ∧ ∀ other, base64ArrayBuffer other = base64ArrayBuffer arrayBuffer →
             other = arrayBuffer.
Proof.
  split; [apply base64_decode_encode|].
  intros other Hsame. apply (f_equal rfc4648_decode) in Hsame.
  rewrite !base64_decode_encode in Hsame. by injection Hsame.
Qed.

Lemma sextet_alphabet (c : char) (i : N) : sextet c = Some i → c ∈ encodings.
Proof.
  intros Hc. destruct (decide (c ∈ encodings)) as [|Hnot]; [done|].
  apply indexOf_None in Hnot. unfold sextet in Hc. by rewrite Hnot in Hc.
Qed.

(** X14.  The Base64 text has four characters for every three bytes
    started, and holds only characters of the alphabet and the padding
    sign. *)
Theorem base64_length_alphabet (arrayBuffer : bytes) :
  length (base64ArrayBuffer arrayBuffer) = (4 * ((length arrayBuffer + 2) / 3))%nat
  ∧ Forall (λ c, c ∈ encodings ∨ c = PAD) (base64ArrayBuffer arrayBuffer).
Proof.
  assert (∀ n b, (length b ≤ n)%nat →
            length (base64ArrayBuffer b) = (4 * ((length b + 2) / 3))%nat
            ∧ Forall (λ c, c ∈ encodings ∨ c = PAD) (base64ArrayBuffer b)) as H;
    [|by apply (H (length arrayBuffer))].
  clear arrayBuffer. induction n as [|n IH]; intros b Hlen.
  { destruct b; [split; [done|constructor]|simpl in Hlen; lia]. }
  destruct b as [|x0 [|x1 [|x2 more]]]; [split; [done|constructor]| | |].
  - cbn [base64ArrayBuffer].
    destruct (byte_parts x0) as (A1 & A2 & _). cbv zeta in *.
    destruct (sextet_high _ 0 A2 ltac:(lia)) as (H1 & _).
    cbv zeta in *. rewrite N.lor_0_r in H1.
    destruct (enc_sextet _ A1) as (c0 & -> & E0%sextet_alphabet & _).
    destruct (enc_sextet _ H1) as (c1 & -> & E1%sextet_alphabet & _).
    change (js "==") with [PAD; PAD]. split; [done|].
    repeat (constructor; [by auto|]). constructor.
  - cbn [base64ArrayBuffer].
    destruct (group_sextets x0 x1 x00) as ((A0 & A1 & _) & _).
    destruct (byte_parts x1) as (_ & _ & _ & B4 & _). cbv zeta in *.
    destruct (sextet_low _ 0 B4 ltac:(lia)) as (H2 & _).
    cbv zeta in *. rewrite N.lor_0_r in H2.
    destruct (enc_sextet _ A0) as (c0 & -> & E0%sextet_alphabet & _).
    destruct (enc_sextet _ A1) as (c1 & -> & E1%sextet_alphabet & _).
    destruct (enc_sextet _ H2) as (c2 & -> & E2%sextet_alphabet & _).
    change (js "=") with [PAD]. split; [done|].
    repeat (constructor; [by auto|]). constructor.
  - cbn [base64ArrayBuffer]. cbv zeta.
    destruct (chunk_bytes x0 x1 x2) as (-> & -> & ->).
    destruct (group_sextets x0 x1 x2) as ((A0 & A1 & A2 & A3) & _).
    cbv zeta in *.
    destruct (enc_sextet _ A0) as (c0 & -> & E0%sextet_alphabet & _).
    destruct (enc_sextet _ A1) as (c1 & -> & E1%sextet_alphabet & _).
    destruct (enc_sextet _ A2) as (c2 & -> & E2%sextet_alphabet & _).
    destruct (enc_sextet _ A3) as (c3 & -> & E3%sextet_alphabet & _).
    destruct (IH more ltac:(simpl in Hlen; lia)) as [IHlen IHchars].
    cbn [app length]. split.
    + rewrite IHlen.
      replace (S (S (S (length more))) + 2)%nat
        with ((length more + 2) + 1 * 3)%nat by lia.
      rewrite Nat.div_add by done. lia.
    + repeat (constructor; [by auto|]). done.
Qed.
(** ** [ParsingProcessor] *)

Lemma readRaw_padded (m : ForwardableEmailMessage) :
  readRaw m = if readable m then Some (paddedRaw m) else None.
Proof.
  unfold readRaw, readable, paddedRaw, delivered, streamToArrayBuffer.
  destruct (rawSize m) as [size|]; [|done].
  cbn [mbind option_bind default from_option id].
  pose proof (readLoop_spec (chunks (message_raw m)) [] size) as Hread.
  cbn [app length] in Hread. rewrite Hread.
  case_decide as Hfits.
  - rewrite bool_decide_true by done. cbn [option_bind andb].
    by destruct (readFails (message_raw m)).
  - by rewrite bool_decide_false.
Qed.

(** X15.  The parsing stage never throws.  It rejects the message exactly
    when the raw message cannot be read: the declared size is not one a
    buffer can have, the stream delivers more bytes than the declared
    size, or its reader fails.  Otherwise it stores the bytes read, padded
    with zeros up to the declared size, and their parse, and lets the run
    continue. *)
Theorem parsing_stage_outcome (context : EmailPipelineContext) :
  let m := message context in
  if readable m
  then ∃ parsed,
      parseEmail (paddedRaw m) = Some parsed
      ∧ ParsingProcessor_process context
        = Returned continue
            {| message := m; env := env context;
               rawEmail := Some (paddedRaw m); parsedEmail := Some parsed;
               finalRawEmail := finalRawEmail context |}
  else ParsingProcessor_process context
       = Returned (reject (js "Unable to process email data.")) context.
Proof.
  intros m. unfold ParsingProcessor_process. fold m.
  rewrite readRaw_padded. destruct (readable m); [|done].
  eexists. split; [apply parseEmail_sections|].
  by rewrite parseEmail_sections.
Qed.

(** ** The run of the worker *)

Lemma gmailCheck_reasons (fromHeader : jsstring) (r : ProcessingResult) :
  gmailCheck fromHeader = Some r →
  r = reject (js "Sender name is missing.")
  ∨ r = reject (js "Sender name resembles spam pattern.").
Proof.
  unfold gmailCheck. intros H.
  repeat match type of H with
         | (if ?b then _ else _) = _ => destruct b
         end; simplify_eq; auto.
Qed.

Lemma spam_verdicts (context : EmailPipelineContext) :
  SpamCheckProcessor_process context = continue
  ∨ ∃ reason, reason ∈ spamReasons
              ∧ SpamCheckProcessor_process context = reject reason.
Proof.
  unfold SpamCheckProcessor_process, spamReasons.
  destruct (bool_decide _).
  { right. eexists. split; [|done]. set_solver. }
  destruct (if endsWith _ _ then _ else _) as [r|] eqn:Hgmail.
  - destruct (endsWith _ _); [|done].
    apply gmailCheck_reasons in Hgmail as [-> | ->]; right; eexists;
      (split; [|done]); set_solver.
  - destruct (existsb _ _); [|by left].
    right. eexists. split; [|done]. set_solver.
Qed.

Lemma reSerialiseEmail_total (hs : list Header) (b : bytes) :
  ∃ final, reSerialiseEmail hs b = Some final.
Proof. unfold reSerialiseEmail, TextDecoder_decode. cbn. by eexists. Qed.

Lemma ParsingProcessor_fits (context : EmailPipelineContext) :
  readable (message context) = true →
  ∃ parsed,
    parseEmail (paddedRaw (message context)) = Some parsed
    ∧ ParsingProcessor_process context
    = Returned continue
        {| message := message context; env := env context;
           rawEmail := Some (paddedRaw (message context));
           parsedEmail := Some parsed;
           finalRawEmail := finalRawEmail context |}.
Proof.
  intros Hfits. unfold ParsingProcessor_process.
  rewrite readRaw_padded, Hfits.
  rewrite parseEmail_sections. by eexists.
Qed.

Lemma ParsingProcessor_overflow (context : EmailPipelineContext) :
  readable (message context) = false →
  ParsingProcessor_process context
  = Returned (reject (js "Unable to process email data.")) context.
Proof.
  intros Hfits. unfold ParsingProcessor_process.
  by rewrite readRaw_padded, Hfits.
Qed.

Lemma DeliveryProcessor_outcome
  (fetch : jsstring → jsstring → Completion (Response * jsstring))
  (context : EmailPipelineContext) (final : bytes) :
  finalRawEmail context = Some final →
  DeliveryProcessor_process fetch context
  = (match sendEmail fetch (crmOptions (env context)) final with
     | Normal _ => continue
     | Throw msg => reject (js "Unable to deliver to CRM. " ++ msg)
     end, context).
Proof.
  intros Hfinal. unfold DeliveryProcessor_process. rewrite Hfinal.
  fold (crmOptions (env context)). by destruct (sendEmail _ _ _).
Qed.

(** The run of the worker, case by case. *)
Lemma email_cases
  (fetch : jsstring → jsstring → Completion (Response * jsstring))
  (m : ForwardableEmailMessage) (e : Env) :
  let run := email fetch m e in
  let context := freshContext m e in
  let verdict := SpamCheckProcessor_process context in
  if negb (canContinue verdict) then
    setReject run
    = Some (orDefault (rejectReason verdict) (js "Message rejected by processor."))
    ∧ executed run = take 1 stageNames
    ∧ finalContext run = context
    ∧ existsb isErrorLine (console run) = false
  else if readable m then
    ∃ final,
      finalRawEmail (finalContext run) = Some final
      ∧ preparedMessage m e = Some final
      ∧ executed run = stageNames
      ∧ existsb isErrorLine (console run) = false
      ∧ match sendEmail fetch (crmOptions e) final with
        | Normal _ =>
            setReject run = None
            ∧ console run
              = [console_log (js "Email processed successfully through all processors.")]
        | Throw msg =>
            setReject run = Some (js "Unable to deliver to CRM. " ++ msg)
        end
  else
    setReject run = Some (js "Unable to process email data.")
    ∧ executed run = take 2 stageNames
    ∧ finalContext run = context
    ∧ existsb isErrorLine (console run) = false.
Proof.
  intros run context verdict. subst run. unfold email. fold (freshContext m e).
  fold context. unfold processors.
  destruct (canContinue verdict) eqn:Hspam; cbn [negb].
  2:{ erewrite runProcessors_reject; [|reflexivity|done]. done. }
  erewrite runProcessors_continue; [|reflexivity|done].
  cbn [finalContext setReject console executed].
  destruct (readable m) eqn:Hfits.
  2:{ erewrite runProcessors_reject;
        [|by apply ParsingProcessor_overflow|done]. done. }
  destruct (ParsingProcessor_fits context Hfits) as (parsed & Hparsed & Hparse).
  cbn [context freshContext message] in Hparsed.
  erewrite runProcessors_continue; [|exact Hparse|done].
  cbn [finalContext setReject console executed].
  match goal with
  | |- context [runProcessors _ ?c] => remember c as c1 eqn:Hc1
  end.
  pose proof (domain_collapse_stage c1) as H2.
  destruct (DomainCollapseProcessor_process c1) as [r2 c2] eqn:E2.
  destruct H2 as [-> (_ & He2 & _ & Hf2 & Hp2)].
  rewrite Hc1 in He2, Hf2, Hp2.
  cbn [parsedEmail env finalRawEmail context freshContext] in He2, Hf2, Hp2.
  destruct (parsedEmail c2) as [p2|] eqn:Hparsed2; [|done].
  erewrite runProcessors_continue;
    [|cbn [process]; unfold returning; rewrite E2; reflexivity|done].
  cbn [finalContext setReject console executed].
  pose proof (subaddressing_stage c2) as H3.
  destruct (SubaddressingProcessor_process c2) as [r3 c3] eqn:E3.
  destruct H3 as [-> (_ & He3 & _ & Hf3 & Hp3)].
  rewrite Hparsed2 in Hp3.
  destruct (parsedEmail c3) as [p3|] eqn:Hparsed3; [|done].
  erewrite runProcessors_continue;
    [|cbn [process]; unfold returning; rewrite E3; reflexivity|done].
  cbn [finalContext setReject console executed].
  destruct (reSerialiseEmail_total (headers p3) (body p3)) as (final & Hfinal).
  erewrite runProcessors_continue;
    [|cbn [process]; unfold PreDeliveryProcessor_process;
      rewrite Hparsed3, Hfinal; reflexivity|done].
  cbn [finalContext setReject console executed].
  match goal with
  | |- context [runProcessors _ ?c] => remember c as c4 eqn:Hc4
  end.
  assert (crmOptions (env c4) = crmOptions e) as Hoptions.
  { rewrite Hc4. cbn [env]. by rewrite He3, He2. }
  assert (finalRawEmail c4 = Some final) as Hfinal4 by by rewrite Hc4.
  assert (preparedMessage m e = Some final) as Hprepared.
  { unfold preparedMessage. rewrite Hparsed. cbn [mbind option_bind].
    cbn [context freshContext message env finalRawEmail] in Hc1.
    rewrite <- Hc1, E2. cbn [snd]. rewrite E3. cbn [snd].
    by rewrite Hparsed3. }
  exists final.
  destruct (sendEmail fetch (crmOptions e) final) as [[]|msg] eqn:Hsend.
  - erewrite runProcessors_continue;
      [|cbn [process]; unfold returning;
        rewrite (DeliveryProcessor_outcome fetch c4 final Hfinal4), Hoptions, Hsend;
        reflexivity|done].
    cbn [finalContext setReject console executed runProcessors].
    by rewrite Hfinal4.
  - erewrite runProcessors_reject;
      [|cbn [process]; unfold returning;
        rewrite (DeliveryProcessor_outcome fetch c4 final Hfinal4), Hoptions, Hsend;
        reflexivity|done].
    cbn [finalContext setReject console executed]. by rewrite Hfinal4.
Qed.
Lemma sendEmail_succeeds
  (fetch : jsstring → jsstring → Completion (Response * jsstring))
  (options : CrmOptions) (rawEmail : bytes) :
  sendEmail fetch options rawEmail = Normal tt
  ↔ ∃ response data,
      fetch (requestUrl options) (requestXml options rawEmail)
      = Normal (response, data)
      ∧ ok response = true ∧ includes (js "<fault>") data = false
      ∧ validateResponse response data = Normal tt.
Proof.
  unfold sendEmail. split.
  - destruct (fetch _ _) as [[response data]|msg]; [|done].
    destruct (validateResponse response data) as [[]|msg] eqn:Hvalid; [|done].
    intros _. exists response, data. repeat split; [| |done].
    + unfold validateResponse in Hvalid. by destruct (ok response).
    + unfold validateResponse in Hvalid. destruct (ok response); [|done].
      cbn [negb] in Hvalid. destruct (includes (js "<fault>") data); [|done].
      by destruct (includes noRouteFault _).
  - intros (response & data & -> & _ & _ & ->). done.
Qed.

Lemma sendEmail_fails
  (fetch : jsstring → jsstring → Completion (Response * jsstring))
  (options : CrmOptions) (rawEmail : bytes) (msg : jsstring) :
  sendEmail fetch options rawEmail = Throw msg →
  ∃ cause, msg = js "Unable to communicate with CRM server: " ++ cause.
Proof.
  unfold sendEmail.
  destruct (match fetch _ _ with Normal _ => _ | Throw _ => _ end) as [|cause];
    [done|].
  intros [= <-]. by exists cause.
Qed.

(** X16.  The worker accepts a message, calling [setReject] not at all,
    exactly when the spam check lets it pass, the raw message can be read
    (its reader does not fail and its bytes fit the declared size), and
    the CRM answers the request that carries the final message
    with an HTTP success whose body holds no fault and is accepted by
    [validateResponse].  All six processors have then run and the success
    line is the only line the runner logs. *)
Theorem email_accepted_iff_delivered
  (fetch : jsstring → jsstring → Completion (Response * jsstring))
  (m : ForwardableEmailMessage) (e : Env) :
  let run := email fetch m e in
  (setReject run = None
   ↔ canContinue (SpamCheckProcessor_process (freshContext m e)) = true
     ∧ readable m = true
     ∧ ∃ final response data,
         finalRawEmail (finalContext run) = Some final
         ∧ fetch (requestUrl (crmOptions e)) (requestXml (crmOptions e) final)
           = Normal (response, data)
         ∧ ok response = true ∧ includes (js "<fault>") data = false
         ∧ validateResponse response data = Normal tt)
  ∧ (setReject run = None →
     executed run = stageNames
     ∧ console run
       = [console_log (js "Email processed successfully through all processors.")]).
Proof.
  intros run. pose proof (email_cases fetch m e) as Hcases.
  cbv zeta in Hcases. fold run in Hcases.
  destruct (canContinue (SpamCheckProcessor_process (freshContext m e)));
    cbn [negb] in Hcases.
  2:{ destruct Hcases as (Hreject & _). rewrite Hreject.
      split; [split; [done|by intros [? _]]|done]. }
  destruct (readable m) eqn:Hfits.
  2:{ destruct Hcases as (Hreject & _). rewrite Hreject.
      split; [split; [done|by intros (_ & ? & _)]|done]. }
  destruct Hcases as (final & Hfinal & _ & Hexecuted & _ & Hsend).
  destruct (sendEmail fetch (crmOptions e) final) as [[]|msg] eqn:Hcrm.
  - destruct Hsend as [Haccept Hconsole]. rewrite Haccept.
    split; [|done]. split; [|done]. intros _.
    apply sendEmail_succeeds in Hcrm as (response & data & Hcrm).
    split; [done|]. split; [done|]. by exists final, response, data.
  - rewrite Hsend. split; [|done]. split; [done|].
    intros (_ & _ & final' & response & data & Hfinal' & Hcrm').
    rewrite Hfinal in Hfinal'. injection Hfinal' as <-.
    assert (sendEmail fetch (crmOptions e) final = Normal tt) as Hok.
    { apply sendEmail_succeeds. by exists response, data. }
    congruence.
Qed.

Lemma spamReasons_truthy (reason d : jsstring) :
  reason ∈ spamReasons → orDefault (Some reason) d = reason.
Proof.
  unfold spamReasons. rewrite !elem_of_cons, elem_of_nil.
  intros [-> | [-> | [-> | [-> | []]]]]; reflexivity.
Qed.

(** X17.  The runner of the worker never logs a processor error, and a
    rejected message is rejected with one of the four reasons of the spam
    check, with the reason of the parsing stage, or with the reason of the
    delivery stage followed by the cause; the guards of the last two
    stages for missing data never reject. *)
Theorem email_rejection_reasons
  (fetch : jsstring → jsstring → Completion (Response * jsstring))
  (m : ForwardableEmailMessage) (e : Env) :
  let run := email fetch m e in
  existsb isErrorLine (console run) = false
  ∧ executed run `prefix_of` stageNames
  ∧ ∀ reason, setReject run = Some reason →
      (reason ∈ spamReasons
       ∨ reason = js "Unable to process email data."
       ∨ ∃ cause,
           reason = js "Unable to deliver to CRM. "
                      ++ js "Unable to communicate with CRM server: " ++ cause)
      ∧ reason ≠ js "No parsed email to deliver."
      ∧ reason ≠ js "No final email data to deliver.".
Proof.
  intros run. pose proof (email_cases fetch m e) as Hcases.
  cbv zeta in Hcases. fold run in Hcases.
  pose proof (spam_verdicts (freshContext m e)) as Hspam.
  destruct (canContinue (SpamCheckProcessor_process (freshContext m e))) eqn:Hcan;
    cbn [negb] in Hcases.
  2:{ destruct Hcases as (Hreject & Hexecuted & _ & Hconsole).
      split; [done|]. split; [rewrite Hexecuted; by eexists|].
      intros reason Hreason. rewrite Hreject in Hreason.
      destruct Hspam as [Hspam | (r & Hr & Hspam)];
        rewrite Hspam in Hcan, Hreason; [done|].
      cbn [rejectReason reject] in Hreason.
      rewrite spamReasons_truthy in Hreason by done. injection Hreason as <-.
      split; [by left|]. clear -Hr. unfold spamReasons in Hr.
      rewrite !elem_of_cons, elem_of_nil in Hr.
      destruct Hr as [-> | [-> | [-> | [-> | []]]]]; by split. }
  clear Hspam. destruct (readable m) eqn:Hfits.
  2:{ destruct Hcases as (Hreject & Hexecuted & _ & Hconsole).
      split; [done|]. split; [rewrite Hexecuted; by eexists|].
      intros reason Hreason. rewrite Hreject in Hreason. injection Hreason as <-.
      split; [by right; left|by split]. }
  destruct Hcases as (final & Hfinal & _ & Hexecuted & Hconsole & Hsend).
  split; [done|]. split; [by rewrite Hexecuted|].
  intros reason Hreason.
  destruct (sendEmail fetch (crmOptions e) final) as [[]|msg] eqn:Hcrm.
  - destruct Hsend as [Haccept _]. congruence.
  - rewrite Hsend in Hreason. injection Hreason as <-.
    apply sendEmail_fails in Hcrm as (cause & ->).
    split; [right; right; by exists cause|by split].
Qed.
(** ** Domain collapse on recipients *)

Lemma split_none (c : char) (s : jsstring) : c ∉ s → split c s = [s].
Proof.
  intros Hs. unfold split.
  assert (∀ cur, splitAcc c cur s = [rev cur ++ s]) as H; [|by rewrite H].
  induction s as [|x t IH]; intros cur.
  - by rewrite app_nil_r.
  - apply not_elem_of_cons in Hs as [Hx Ht]. cbn [splitAcc].
    rewrite (proj2 (N.eqb_neq x c)) by done. rewrite IH by done.
    cbn [rev]. by rewrite <- (assoc_L (++)).
Qed.

Lemma split_second (c : char) (s : jsstring) :
  default [] (split c s !! 0%nat) = upTo c s.
Proof.
  unfold upTo. destruct (indexOf c s) as [i|] eqn:Hi.
  - apply indexOf_Some in Hi as [Hnotin Hs]. rewrite Hs at 1.
    by rewrite split_app.
  - apply indexOf_None in Hi. by rewrite split_none.
Qed.

Lemma domainOf_mailboxOf (r : Recipient) :
  wellFormed r = true → plainLocal r = true →
  domainOf (mailboxOf r) = upTo (ch "@") (rDomain r).
Proof.
  intros Hr Hl. apply wellFormed_parts in Hr as (_ & _ & _ & _ & _ & Ht).
  apply forallb_notChar_notin in Hl.
  unfold domainOf, mailboxOf. rewrite (assoc_L (++)).
  rewrite split_app.
  - exact (split_second (ch "@") (rDomain r)).
  - apply not_elem_of_app. split; [done|].
    destruct (rTag r) as [t|]; [|apply not_elem_of_nil].
    destruct Ht as (_ & _ & Ht). apply not_elem_of_cons. split; [by vm_compute|done].
Qed.

Lemma collapseAddress_written (domainMap : gmap jsstring jsstring) (r : Recipient) :
  wellFormed r = true → plainLocal r = true →
  collapseAddress domainMap (written r) = collapsed domainMap r.
Proof.
  intros Hr Hone.
  unfold collapseAddress, collapsed, collapseKey.
  rewrite parseAddress_written by done. cbn [address displayName].
  change (default [] (split (ch "@") (mailboxOf r) !! 1%nat))
    with (domainOf (mailboxOf r)).
  rewrite domainOf_mailboxOf by done.
  change (lookupTarget domainMap) with (getProperty domainMap).
  destruct (getProperty _ _) as [target|]; [|done].
  unfold formatAddress. by destruct (truthy (rName r)).
Qed.

Lemma collapseHeader_recipients (domainMap : gmap jsstring jsstring)
  (h : Header) (rs : list Recipient) :
  toLowerCase (name h) ∈ [js "to"; js "cc"; js "bcc"] →
  value h = join (js ", ") (map written rs) →
  forallb wellFormed rs = true →
  forallb plainLocal rs = true →
  collapseHeader domainMap h
  = {| raw := name h ++ js ": " ++ join (js ", ") (map (collapsed domainMap) rs);
       name := name h;
       value := join (js ", ") (map (collapsed domainMap) rs) |}.
Proof.
  intros Hname Hvalue Hrs Hone. unfold collapseHeader.
  rewrite bool_decide_true by done. rewrite Hvalue.
  rewrite splitAddresses_pieces.
  - rewrite map_map.
    assert (map (λ r, collapseAddress domainMap (written r)) rs
            = map (collapsed domainMap) rs) as ->; [|done].
    apply map_ext_in. intros r Hr%list_elem_of_In.
    apply forallb_Forall_iff in Hrs, Hone. rewrite Forall_forall in Hrs, Hone.
    apply collapseAddress_written; auto.
  - apply Forall_map. apply forallb_Forall_iff in Hrs.
    eapply Forall_impl; [done|]. intros r Hr. by apply written_piece.
  - intros Hlast%last_Some_elem_of%list_elem_of_In%in_map_iff.
    destruct Hlast as (r & Hempty & Hr%list_elem_of_In).
    apply forallb_Forall_iff in Hrs. rewrite Forall_forall in Hrs.
    by apply (written_piece r (Hrs r Hr)).
Qed.


(** ** The pieces [splitAddresses] returns *)

Lemma quoteScan_app_eq (q : bool) (a b : jsstring) :
  quoteScan q (a ++ b)
  = match quoteScan q a with Some q' => quoteScan q' b | None => None end.
Proof.
  revert q. induction a as [|c t IH]; intros q; cbn [quoteScan app]; [done|].
  destruct (c =? DQUOTE); [apply IH|].
  destruct ((c =? ch ",") && negb q); [done|apply IH].
Qed.

Lemma quoteScan_blank (q : bool) (blank : jsstring) :
  forallb isWhiteSpace blank = true → quoteScan q blank = Some q.
Proof.
  induction blank as [|c t IH]; [done|]. cbn [forallb quoteScan].
  intros [Hc Ht]%andb_true_iff.
  destruct (N.eqb_spec c DQUOTE) as [->|]; [by vm_compute in Hc|].
  destruct (N.eqb_spec c (ch ",")) as [->|]; [by vm_compute in Hc|].
  by apply IH.
Qed.

Lemma trimStart_split (s : jsstring) :
  ∃ blank, forallb isWhiteSpace blank = true ∧ s = blank ++ trimStart s.
Proof.
  induction s as [|c t (blank & Hblank & IH)]; [by exists []|].
  cbn [trimStart]. destruct (isWhiteSpace c) eqn:Hc; [|by exists []].
  exists (c :: blank). cbn [forallb app]. rewrite Hc, Hblank. by rewrite <- IH.
Qed.

Lemma trimEnd_split (s : jsstring) :
  ∃ blank, forallb isWhiteSpace blank = true ∧ s = trimEnd s ++ blank.
Proof.
  destruct (trimStart_split (rev s)) as (blank & Hblank & Hs).
  exists (rev blank). split.
  - apply forallb_Forall_iff, Forall_rev. by apply forallb_Forall_iff.
  - unfold trimEnd. rewrite <- rev_app_distr, <- Hs. by rewrite rev_involutive.
Qed.

Lemma quoteScan_trim (q : bool) (s : jsstring) :
  quoteScan q (trim s) = quoteScan q s.
Proof.
  destruct (trimStart_split s) as (b1 & Hb1 & Hs).
  destruct (trimEnd_split (trimStart s)) as (b2 & Hb2 & Ht).
  fold (trim s) in Ht. rewrite Hs at 2. rewrite Ht.
  rewrite quoteScan_app_eq, (quoteScan_blank q b1 Hb1).
  rewrite quoteScan_app_eq. destruct (quoteScan q (trim s)) as [q'|]; [|done].
  by rewrite quoteScan_blank.
Qed.

(** The loop keeps the pieces whole: every piece pushed is trimmed and has
    its quotes balanced, and the text collected since the last split
    accounts for the quote flag. *)
Lemma splitAddressesLoop_pieces (s : jsstring) (parts : list jsstring)
  (current : jsstring) (q : bool) :
  Forall addressPiece parts →
  quoteScan false current = Some q →
  let '(parts', current') := splitAddressesLoop s parts current q in
  Forall addressPiece parts' ∧ ∃ q', quoteScan false current' = Some q'.
Proof.
  revert parts current q. induction s as [|c t IH]; intros parts current q Hparts Hq.
  - cbn. split; [done|by exists q].
  - cbn [splitAddressesLoop]. destruct (N.eqb_spec c DQUOTE) as [->|Hquote].
    + apply IH; [done|]. rewrite quoteScan_app_eq, Hq. cbn [quoteScan].
      by rewrite N.eqb_refl.
    + destruct ((c =? ch ",") && negb q) eqn:Hcomma.
      * apply andb_true_iff in Hcomma as [_ Hstate].
        apply negb_true_iff in Hstate. subst q.
        apply IH; [|done]. apply Forall_app. split; [done|].
        constructor; [|done]. split; [apply trim_idemp|].
        by rewrite quoteScan_trim.
      * apply IH; [done|]. rewrite quoteScan_app_eq, Hq. cbn [quoteScan].
        rewrite (proj2 (N.eqb_neq c DQUOTE)) by done. by rewrite Hcomma.
Qed.

(** X19.  Every address string that [splitAddresses] returns is trimmed,
    and unless the last of them is empty, joining them with a comma and a
    space and splitting again gives the same strings. *)
Theorem splitAddresses_normal_form (headerValue : jsstring) :
  let pieces := splitAddresses headerValue in
  Forall (λ piece, trim piece = piece) pieces
  ∧ (last pieces ≠ Some [] →
     splitAddresses (join (js ", ") pieces) = pieces).
Proof.
  intros pieces. subst pieces. unfold splitAddresses at 1 2 4 5.
  pose proof (splitAddressesLoop_pieces headerValue [] [] false
                (List.Forall_nil _) eq_refl) as Hloop.
  destruct (splitAddressesLoop headerValue [] [] false) as [parts current].
  destruct Hloop as (Hparts & q & Hq).
  destruct (truthy (trim current)) eqn:Hlast.
  - split.
    + apply Forall_app. split.
      * eapply Forall_impl; [done|]. by intros piece [? _].
      * constructor; [apply trim_idemp|done].
    + intros _. unfold splitAddresses.
      rewrite (splitAddressesLoop_join parts (trim current) [] [] q);
        [|done|by rewrite quoteScan_trim|done].
      cbn [app].
      assert (trim (match parts with [] => [] | _ :: _ => [SP] end ++ trim current)
              = trim current) as ->.
      { destruct parts; [apply trim_idemp|]. cbn [app].
        by rewrite trim_space, trim_idemp. }
      by rewrite Hlast.
  - split.
    + eapply Forall_impl; [done|]. by intros piece [? _].
    + intros Hne. by apply splitAddresses_pieces.
Qed.
(** ** The runner *)

Lemma passes_console {C : Type} (ps : list (Processor C)) (c c' : C) :
  passes ps c c' →
  last (console (runProcessors ps c))
  = Some (console_log (js "Email processed successfully through all processors.")).
Proof.
  induction 1 as [c|p later c c1 c2 result Hp Hr _ IH|p later c c1 c2 err Hp _ IH].
  - done.
  - rewrite (runProcessors_continue p later c result c1 Hp Hr). by cbn.
  - rewrite (runProcessors_raise p later c err c1 Hp). cbn [console].
    destruct (console (runProcessors later c1)); [done|]. by rewrite last_cons_cons.
Qed.

(** X20.  A run calls [setReject] not at all exactly when every processor
    either returns a result that lets the run continue or throws; all
    processors have then been called, the context is the one the last of
    them left, and the last line logged is the success line. *)
Theorem runner_accepts_iff (C : Type) (ps : list (Processor C)) (c : C) :
  (setReject (runProcessors ps c) = None ↔ ∃ c', passes ps c c')
  ∧ ∀ c', passes ps c c' →
      finalContext (runProcessors ps c) = c'
      ∧ executed (runProcessors ps c) = map constructorName ps
      ∧ last (console (runProcessors ps c))
        = Some (console_log
                  (js "Email processed successfully through all processors.")).
Proof.
  split; [split|].
  - revert c. induction ps as [|p later IH]; intros c Haccept.
    + exists c. constructor.
    + cbn [runProcessors] in Haccept.
      destruct (process p c) as [result c1|err c1] eqn:Hp.
      * destruct (canContinue result) eqn:Hr; cbn [negb setReject] in Haccept;
          [|done].
        destruct (IH c1 Haccept) as (c' & Hlater). exists c'.
        exact (passes_continue p later c c1 c' result Hp Hr Hlater).
      * cbn [setReject] in Haccept.
        destruct (IH c1 Haccept) as (c' & Hlater). exists c'.
        exact (passes_raise p later c c1 c' err Hp Hlater).
  - intros (c' & Hpasses).
    destruct (passes_run ps [] c c' Hpasses) as (_ & Hs & _).
    rewrite app_nil_r in Hs. by rewrite Hs.
  - intros c' Hpasses.
    destruct (passes_run ps [] c c' Hpasses) as (Hf & _ & He).
    rewrite app_nil_r in Hf, He. cbn in Hf, He. rewrite app_nil_r in He.
    split; [done|]. split; [done|]. exact (passes_console ps c c' Hpasses).
Qed.
(** ** Serialising and parsing *)

Lemma splitAcc_nonempty (c : char) (cur s : jsstring) : splitAcc c cur s ≠ [].
Proof.
  revert cur. induction s as [|x t IH]; intros cur; cbn [splitAcc]; [done|].
  destruct (x =? c); [done|apply IH].
Qed.

Lemma join_splitAcc (c : char) (cur s : jsstring) :
  join [c] (splitAcc c cur s) = rev cur ++ s.
Proof.
  revert cur. induction s as [|x t IH]; intros cur; cbn [splitAcc].
  - by rewrite app_nil_r.
  - destruct (N.eqb_spec x c) as [->|Hx].
    + specialize (IH []). cbn [rev app] in IH.
      destruct (splitAcc c [] t) as [|piece more] eqn:E.
      { by apply splitAcc_nonempty in E. }
      change (join [c] (rev cur :: piece :: more))
        with (rev cur ++ [c] ++ join [c] (piece :: more)).
      by rewrite IH.
    + rewrite IH. cbn [rev]. by rewrite <- (assoc_L (++)).
Qed.

Lemma join_split (c : char) (s : jsstring) : join [c] (split c s) = s.
Proof. apply (join_splitAcc c [] s). Qed.

Lemma bodySection_serialised (line : jsstring) (lines : list jsstring)
  (bodyText : jsstring) :
  Forall (λ line, (LF ∉ line) ∧ spec_isBlank line = false) (line :: lines) →
  spec_bodySection
    (split LF (replaceCRLF (join [CR; LF] (line :: lines)
                              ++ [CR; LF; CR; LF] ++ bodyText)))
  = split LF (replaceCRLF bodyText).
Proof.
  revert line. induction lines as [|line2 more IH]; intros line Hlines.
  - apply Forall_cons in Hlines as [[Hlf Hnb] _]. cbn [join].
    change (line ++ [CR; LF; CR; LF] ++ bodyText)
      with (line ++ CR :: LF :: CR :: LF :: bodyText).
    rewrite replaceCRLF_line by done.
    change (replaceCRLF (CR :: LF :: bodyText)) with (LF :: replaceCRLF bodyText).
    rewrite split_app, split_cons_sep by done.
    cbn [spec_bodySection]. by rewrite Hnb.
  - apply Forall_cons in Hlines as [[Hlf Hnb] Hmore].
    change (join [CR; LF] (line :: line2 :: more))
      with (line ++ [CR; LF] ++ join [CR; LF] (line2 :: more)).
    rewrite <- !(assoc_L (++)).
    change (line ++ [CR; LF] ++ ?x) with (line ++ CR :: LF :: x).
    rewrite replaceCRLF_line by done.
    rewrite split_app by done. cbn [spec_bodySection]. rewrite Hnb.
    by apply IH.
Qed.

Lemma plainPair_lines (pairs : list (jsstring * jsstring)) :
  Forall plainPair pairs →
  Forall canonical pairs
  ∧ Forall (λ line, (LF ∉ line) ∧ spec_isBlank line = false) (map headerLine pairs)
  ∧ Forall scalarString (map headerLine pairs).
Proof.
  intros Hpairs. split; [|split].
  - eapply Forall_impl; [done|]. by intros nv [? _].
  - apply Forall_map. eapply Forall_impl; [done|]. intros nv [Hnv _]. simpl.
    by destruct (canonical_line nv Hnv) as (? & ? & _).
  - apply Forall_map. eapply Forall_impl; [done|].
    intros [n v] (_ & Hn & Hv). unfold headerLine, scalarString in *.
    cbn [fst snd] in *. rewrite colon_space, !Forall_app.
    split; [done|]. split; [by repeat constructor|done].
Qed.

Lemma messageText_scalar (pairs : list (jsstring * jsstring)) (bodyText : jsstring) :
  Forall plainPair pairs → scalarString bodyText →
  scalarString (messageText pairs bodyText).
Proof.
  intros (_ & _ & Hlines)%plainPair_lines Hbody.
  unfold messageText, scalarString. rewrite !Forall_app. split; [|split].
  - apply scalar_join; [by repeat constructor|done].
  - by repeat constructor.
  - done.
Qed.

(** Parsing a serialised message. *)
Lemma parseEmail_messageText (pairs : list (jsstring * jsstring))
  (bodyText : jsstring) :
  pairs ≠ [] → Forall plainPair pairs → scalarString bodyText →
  parseEmail (TextEncoder_encode (messageText pairs bodyText))
  = Some {| headers := map headerOf pairs;
            body := TextEncoder_encode (replaceCRLF bodyText) |}.
Proof.
  intros Hne Hpairs Hbody.
  destruct (plainPair_lines pairs Hpairs) as (Hcan & Hlines & _).
  unfold parseEmail. rewrite decode_encode by by apply messageText_scalar.
  cbn [mbind option_bind]. unfold messageText.
  change ([CR; LF; CR; LF] ++ bodyText) with (CR :: ([LF; CR; LF] ++ bodyText)).
  rewrite stripBOM_serialised by done.
  change (CR :: ([LF; CR; LF] ++ bodyText)) with ([CR; LF; CR; LF] ++ bodyText).
  rewrite parseText_spec. cbv zeta.
  rewrite headerSection_serialised by done.
  rewrite spec_headers_canonical by done.
  destruct pairs as [|nv more]; [done|]. cbn [map] in *.
  rewrite bodySection_serialised by done. by rewrite join_split.
Qed.

(** X21.  Serialising well-formed headers with a body and parsing the
    result gives the headers back, and as body the text of the body with
    every CR LF replaced by a line feed. *)
Theorem reSerialise_parse (pairs : list (jsstring * jsstring)) (b : bytes) :
  pairs ≠ [] → Forall plainPair pairs →
  ∃ final bodyText,
    TextDecoder_decode false b = Some bodyText
    ∧ reSerialiseEmail (map headerOf pairs) b = Some final
    ∧ parseEmail final
      = Some {| headers := map headerOf pairs;
                body := TextEncoder_encode (replaceCRLF bodyText) |}.
Proof.
  intros Hne Hpairs.
  destruct (TextDecoder_decode false b) as [bodyText|] eqn:Hdecode; [|done].
  eexists _, bodyText. split; [done|].
  unfold reSerialiseEmail. rewrite Hdecode. cbn [mbind option_bind].
  split; [done|]. unfold headerOf at 1. rewrite serialised_lines.
  apply (parseEmail_messageText pairs bodyText); [done|done|].
  by eapply scalar_decode.
Qed.

Lemma reSerialise_parse_witness :
  ∃ final bodyText,
    TextDecoder_decode false (TextEncoder_encode (js "Hi Bob," ++ [CR; LF] ++ js "bye."))
    = Some bodyText
    ∧ reSerialiseEmail
        (map headerOf [(js "To", js "bob@example.com"); (js "Subject", js "Hello")])
        (TextEncoder_encode (js "Hi Bob," ++ [CR; LF] ++ js "bye."))
      = Some final
    ∧ parseEmail final
      = Some {| headers :=
                  map headerOf [(js "To", js "bob@example.com");
                                (js "Subject", js "Hello")];
                body := TextEncoder_encode (replaceCRLF bodyText) |}.
Proof.
  apply reSerialise_parse; [done|].
  repeat constructor; try (apply (bool_decide_unpack _); by vm_compute).
Defined.
(** ** What the worker hands to the CRM *)

Lemma DomainCollapseProcessor_unconfigured (context : EmailPipelineContext) :
  DOMAIN_COLLAPSE_MAPPING (env context) = None →
  DomainCollapseProcessor_process context = (continue, context).
Proof.
  intros Hnone. unfold DomainCollapseProcessor_process. rewrite Hnone.
  by destruct (parsedEmail context).
Qed.

Lemma preparedMessage_untagged (m : ForwardableEmailMessage) (e : Env)
  (before after : list (jsstring * jsstring)) (n : jsstring)
  (rs : list Recipient) (bodyText : jsstring) :
  let pairs := before ++ (n, join (js ", ") (map written rs)) :: after in
  let rewritten :=
    prependSubjectTag
      (map headerOf (before ++ (n, join (js ", ") (map untagged rs)) :: after))
      (firstTag rs) in
  paddedRaw m = TextEncoder_encode (messageText pairs bodyText) →
  DOMAIN_COLLAPSE_MAPPING e = None →
  Forall plainPair pairs → scalarString bodyText →
  toLowerCase n = js "to" →
  Forall (λ nv, toLowerCase nv.1 ≠ js "to") (before ++ after) →
  forallb wellFormed rs = true →
  preparedMessage m e
  = Some (TextEncoder_encode
            (join [CR; LF] (map (λ h, name h ++ js ": " ++ value h) rewritten)
               ++ [CR; LF; CR; LF] ++ stripBOM (replaceCRLF bodyText))).
Proof.
  intros pairs rewritten Hraw Hconfig Hpairs Hbody Hto Hothers Hrs.
  unfold preparedMessage. rewrite Hraw.
  rewrite parseEmail_messageText; [|by destruct before|done|done].
  cbn [mbind option_bind].
  rewrite DomainCollapseProcessor_unconfigured by done. cbn [snd].
  unfold SubaddressingProcessor_process. cbn [parsedEmail headers].
  subst pairs. rewrite map_app. cbn [map].
  rewrite (processSubaddressing_recipients
             (headerOf (n, join (js ", ") (map written rs))) rs); try done.
  2:{ rewrite <- map_app. apply Forall_map.
      eapply Forall_impl; [exact Hothers|]. by intros nv Hnv. }
  cbn [snd setHeaders parsedEmail body headers mbind option_bind].
  unfold reSerialiseEmail.
  rewrite decode_encode by by apply scalar_replaceCRLF.
  cbn [mbind option_bind]. subst rewritten. rewrite map_app. done.
Qed.

Lemma paddedRaw_exact (m : ForwardableEmailMessage) (raw : bytes) :
  readFails (message_raw m) = false →
  delivered m = raw → rawSize m = Some (length raw) →
  readable m = true ∧ paddedRaw m = raw.
Proof.
  intros Hreader Hraw Hsize. unfold readable, paddedRaw.
  rewrite Hraw, Hsize, Hreader. cbn [default from_option id].
  rewrite bool_decide_true by done. split; [done|].
  rewrite Nat.sub_diag. apply app_nil_r.
Qed.

(** X22.  For a message that passes the spam check, whose stream delivers
    exactly the declared number of bytes and then ends, made of clean header lines of
    which one is a To header listing recipients, with no domain collapse
    configured, the bytes the worker prepares for the CRM are: the header
    lines in their order, with every tag removed from the recipients and
    the first tag put in brackets before each Subject that does not hold it
    yet, an empty line, and the body with every CR LF replaced by a line
    feed and without a byte order mark at its start. *)
Theorem email_prepares_untagged
  (fetch : jsstring → jsstring → Completion (Response * jsstring))
  (m : ForwardableEmailMessage) (e : Env)
  (before after : list (jsstring * jsstring)) (n : jsstring)
  (rs : list Recipient) (bodyText : jsstring) :
  let pairs := before ++ (n, join (js ", ") (map written rs)) :: after in
  let raw := TextEncoder_encode (messageText pairs bodyText) in
  let rewritten :=
    prependSubjectTag
      (map headerOf (before ++ (n, join (js ", ") (map untagged rs)) :: after))
      (firstTag rs) in
  canContinue (SpamCheckProcessor_process (freshContext m e)) = true →
  readFails (message_raw m) = false →
  delivered m = raw → rawSize m = Some (length raw) →
  DOMAIN_COLLAPSE_MAPPING e = None →
  Forall plainPair pairs → scalarString bodyText →
  toLowerCase n = js "to" →
  Forall (λ nv, toLowerCase nv.1 ≠ js "to") (before ++ after) →
  forallb wellFormed rs = true →
  finalRawEmail (finalContext (email fetch m e))
  = Some (TextEncoder_encode
            (join [CR; LF] (map (λ h, name h ++ js ": " ++ value h) rewritten)
               ++ [CR; LF; CR; LF] ++ stripBOM (replaceCRLF bodyText))).
Proof.
  intros pairs raw rewritten Hspam Hreader Hstream Hsize Hconfig Hpairs Hbody
    Hto Hothers Hrs.
  destruct (paddedRaw_exact m raw Hreader Hstream Hsize) as [Hreadable Hpadded].
  pose proof (email_cases fetch m e) as Hcases. cbv zeta in Hcases.
  rewrite Hspam, Hreadable in Hcases. cbn [negb] in Hcases.
  destruct Hcases as (final & -> & Hprepared & _). rewrite <- Hprepared.
  by apply (preparedMessage_untagged m e before after n rs bodyText).
Qed.

(** ** The address list as scanned *)

Lemma splitAddressesLoop_spec (s : jsstring) (parts : list jsstring)
  (current : jsstring) (inQuotes : bool) :
  ∃ piece more,
    spec_pieces inQuotes s = piece :: more
    ∧ splitAddressesLoop s parts current inQuotes
      = (parts ++ map trim (removelast ((current ++ piece) :: more)),
         default [] (last ((current ++ piece) :: more))).
Proof.
  revert parts current inQuotes.
  induction s as [|c t IH]; intros parts current inQuotes.
  - exists [], []. split; [done|]. cbn. by rewrite !app_nil_r.
  - cbn [splitAddressesLoop spec_pieces].
    destruct (N.eqb_spec c DQUOTE) as [->|Hquote].
    + destruct (IH parts (current ++ [DQUOTE]) (negb inQuotes))
        as (piece & more & Hpieces & ->).
      exists (DQUOTE :: piece), more. rewrite Hpieces.
      split; [done|]. by rewrite <- !(assoc_L (++)).
    + destruct ((c =? ch ",") && negb inQuotes).
      * destruct (IH (parts ++ [trim current]) [] inQuotes)
          as (piece & more & Hpieces & ->).
        exists [], (piece :: more). rewrite Hpieces. split; [done|].
        rewrite app_nil_r. cbn [app removelast map last].
        by rewrite <- (assoc_L (++)).
      * destruct (IH parts (current ++ [c]) inQuotes)
          as (piece & more & Hpieces & ->).
        exists (c :: piece), more. rewrite Hpieces.
        split; [done|]. by rewrite <- !(assoc_L (++)).
Qed.

Lemma splitAddresses_spec (value : jsstring) :
  splitAddresses value = spec_addresses value.
Proof.
  unfold splitAddresses, spec_addresses.
  destruct (splitAddressesLoop_spec value [] [] false)
    as (piece & more & -> & ->).
  cbn [app]. destruct (exists_last (l := piece :: more)) as (init & x & ->);
    [done|].
  rewrite removelast_last, last_snoc, map_app. cbn [map default from_option id].
  rewrite last_snoc, removelast_last. cbn [default from_option id].
  by destruct (truthy (trim x)).
Qed.

Lemma spec_addresses_written (rs : list Recipient) :
  forallb wellFormed rs = true →
  spec_addresses (join (js ", ") (map written rs)) = map written rs.
Proof.
  intros Hrs. rewrite <- splitAddresses_spec. apply splitAddresses_pieces.
  - apply Forall_map. apply forallb_Forall_iff in Hrs.
    eapply Forall_impl; [done|]. intros r Hr. by apply written_piece.
  - intros Hlast%last_Some_elem_of%list_elem_of_In%in_map_iff.
    destruct Hlast as (r & Hempty & Hr%list_elem_of_In).
    apply forallb_Forall_iff in Hrs. rewrite Forall_forall in Hrs.
    by apply (written_piece r (Hrs r Hr)).
Qed.

(** ** Subaddressing applied twice *)

Lemma stripHeader_listed (subaddressTag : jsstring) (h : Header)
  (rs : list Recipient) :
  toLowerCase (name h) = js "to" →
  spec_addresses (value h) = map written rs →
  forallb wellFormed rs = true →
  stripHeader subaddressTag h
  = (if truthy subaddressTag then subaddressTag else firstTag rs,
     {| raw := name h ++ js ": " ++ join (js ", ") (map untagged rs);
        name := name h;
        value := join (js ", ") (map untagged rs) |}).
Proof.
  intros Hname Hvalue Hrs. unfold stripHeader.
  rewrite bool_decide_true by done. rewrite splitAddresses_spec, Hvalue.
  by rewrite mapAccum_stripAddress_written.
Qed.

Lemma untagged_untag (r : Recipient) : untagged r = written (untag r).
Proof.
  unfold untagged, written, untag, mailboxOf. cbn [rName rQuoted rLocal rTag rDomain].
  destruct (rTag r); [|done]. destruct (truthy (rName r)); [|done].
  cbn [app]. by rewrite <- !(assoc_L (++)).
Qed.

Lemma untagged_again (r : Recipient) : untagged (untag r) = untagged r.
Proof. rewrite (untagged_untag r). reflexivity. Qed.

Lemma wellFormed_untag (r : Recipient) :
  wellFormed r = true → plainDomain r = true → wellFormed (untag r) = true.
Proof.
  unfold wellFormed, plainDomain, untag. cbn [rName rQuoted rLocal rTag rDomain].
  rewrite !andb_true_iff. intros ((((((Hn & Hq) & Hl) & Hlc) & Hlp) & Hd) & Ht) Hplus.
  repeat split; try done. by destruct (rTag r).
Qed.

Lemma firstTag_untag (rs : list Recipient) : firstTag (map untag rs) = [].
Proof. induction rs as [|r more IH]; [done|]. apply IH. Qed.

(** A pass over its own output, whatever tag the first pass started
    with. *)
Lemma mapAccum_stripHeader_twice (hs : list Header) (subaddressTag : jsstring) :
  Forall (λ h, toLowerCase (name h) = js "to" →
               ∃ rs, spec_addresses (value h) = map written rs
                     ∧ forallb wellFormed rs = true
                     ∧ forallb plainDomain rs = true) hs →
  mapAccum stripHeader [] (mapAccum stripHeader subaddressTag hs).2
  = ([], (mapAccum stripHeader subaddressTag hs).2).
Proof.
  intros Hhs. revert subaddressTag.
  induction Hhs as [|h more Hh _ IH]; intros tag; [done|].
  cbn [mapAccum].
  assert (∃ h1, (∃ tag1, stripHeader tag h = (tag1, h1))
                ∧ stripHeader [] h1 = ([], h1)) as (h1 & (tag1 & Hfirst) & Hsecond).
  { destruct (decide (toLowerCase (name h) = js "to")) as [Hto|Hother].
    - destruct (Hh Hto) as (rs & Hvalue & Hrs & Hplain).
      assert (forallb wellFormed (map untag rs) = true) as Huntag.
      { apply forallb_Forall_iff, Forall_map.
        apply forallb_Forall_iff in Hrs, Hplain.
        rewrite Forall_forall in Hrs, Hplain. apply Forall_forall.
        intros r Hr. apply wellFormed_untag; auto. }
      eexists. split; [eexists; by apply (stripHeader_listed tag h rs)|].
      rewrite (stripHeader_listed [] _ (map untag rs)).
      + cbn [truthy name]. rewrite firstTag_untag, !map_map.
        do 2 f_equal.
        * do 3 f_equal. apply map_ext. intros r. apply untagged_again.
        * f_equal. apply map_ext. intros r. apply untagged_again.
      + done.
      + cbn [value]. rewrite <- (spec_addresses_written (map untag rs)) by done.
        rewrite map_map. do 2 f_equal. apply map_ext.
        intros r. apply untagged_untag.
      + done.
    - exists h. rewrite !stripHeader_other by done. split; [by eexists|done]. }
  rewrite Hfirst. specialize (IH tag1).
  destruct (mapAccum stripHeader tag1 more) as [tag2 hs2].
  cbn [snd mapAccum] in *. by rewrite Hsecond, IH.
Qed.


(** ** The domain-collapse configuration *)

Lemma trimStart_blank (blank s : jsstring) :
  forallb isWhiteSpace blank = true → trimStart (blank ++ s) = trimStart s.
Proof.
  induction blank as [|c t IH]; [done|]. cbn [forallb].
  intros [Hc Ht]%andb_true_iff. cbn [app trimStart]. rewrite Hc. by apply IH.
Qed.

Lemma trimStart_before (a : jsstring) (c : char) (b : jsstring) :
  isWhiteSpace c = false → trimStart (a ++ c :: b) = trimStart a ++ c :: b.
Proof.
  intros Hc. induction a as [|x a IH]; cbn [app trimStart].
  - by rewrite Hc.
  - by destruct (isWhiteSpace x).
Qed.

Lemma trimEnd_after (a : jsstring) (c : char) (b : jsstring) :
  isWhiteSpace c = false → trimEnd (a ++ c :: b) = a ++ c :: trimEnd b.
Proof.
  intros Hc. unfold trimEnd. rewrite rev_app_distr. cbn [rev].
  rewrite <- (assoc_L (++)). cbn [app].
  rewrite trimStart_before by done.
  rewrite rev_app_distr. cbn [rev]. rewrite rev_involutive.
  by rewrite <- (assoc_L (++)).
Qed.

(** Trimming around a character that is not white space. *)
Lemma trim_around (a : jsstring) (c : char) (b : jsstring) :
  isWhiteSpace c = false → trim (a ++ c :: b) = trimStart a ++ c :: trimEnd b.
Proof.
  intros Hc. unfold trim. rewrite trimStart_before by done.
  by apply trimEnd_after.
Qed.

Lemma trim_trimStart (s : jsstring) : trim (trimStart s) = trim s.
Proof. unfold trim. by rewrite trimStart_idemp. Qed.

Lemma trimEnd_blank (s blank : jsstring) :
  forallb isWhiteSpace blank = true → trimEnd (s ++ blank) = trimEnd s.
Proof.
  intros Hblank. unfold trimEnd. rewrite rev_app_distr. f_equal.
  apply trimStart_blank. rewrite forallb_forall in *.
  intros x Hx. apply Hblank. by apply in_rev.
Qed.

Lemma trimStart_all_blank (blank : jsstring) :
  forallb isWhiteSpace blank = true → trimStart blank = [].
Proof.
  intros Hblank. rewrite <- (app_nil_r blank). by rewrite trimStart_blank.
Qed.

Lemma trim_trimEnd (s : jsstring) : trim (trimEnd s) = trim s.
Proof.
  destruct (trimEnd_split s) as (blank & Hblank & Hs).
  rewrite Hs at 2. unfold trim.
  rewrite (trimStart_app (trimEnd s) blank).
  destruct (trimStart (trimEnd s)) as [|c t] eqn:Hstart; cbn [truthy].
  - by rewrite trimStart_all_blank.
  - by rewrite trimEnd_blank.
Qed.

(** The pieces that the pattern split yields are, white space and empty
    pieces aside, the pieces between single separators. *)
Lemma splitSeparatorsLoop_items (first : jsstring)
  (more : list (char * jsstring)) (current : jsstring) (inRun : bool) :
  forallb (λ c, negb (separator c)) first = true →
  forallb (λ cp, separator cp.1 && forallb (λ c, negb (separator c)) cp.2) more
  = true →
  (inRun = true → current = []) →
  filter (λ s, truthy s = true)
    (map trim
       (splitSeparatorsLoop (first ++ flat_map (λ cp, cp.1 :: cp.2) more)
          current inRun))
  = filter (λ s, truthy s = true)
      (map trim ((current ++ first) :: map snd more)).
Proof.
  revert first current inRun.
  induction more as [|[c piece] more IH]; intros first current inRun Hfirst Hmore Hrun.
  - cbn [flat_map map]. by rewrite splitSeparatorsLoop_piece.
  - cbn [forallb fst snd] in Hmore.
    apply andb_true_iff in Hmore as [[Hc Hpiece]%andb_true_iff Hmore].
    cbn [flat_map fst snd]. rewrite splitSeparatorsLoop_piece by done.
    cbn [app splitSeparatorsLoop]. fold (separator c). rewrite Hc.
    cbn [map snd].
    destruct (match first with [] => inRun | _ :: _ => false end) eqn:Hin.
    + destruct first; [|done]. rewrite (Hrun Hin). cbn [app map].
      rewrite (IH piece [] true) by done.
      cbn [app map]. by rewrite (filter_cons_False _ (trim [])).
    + cbn [map]. rewrite !(filter_cons _ (trim (current ++ first))).
      rewrite (IH piece [] true) by done. done.
Qed.

Lemma itemOk_plain (i : ConfigItem) :
  itemOk i = true → forallb (λ c, negb (separator c)) (itemText i) = true.
Proof.
  assert (∀ s, forallb (λ c, negb (separator c) && negb (c =? ch "=")) s = true →
               forallb (λ c, negb (separator c)) s = true) as Hweaken.
  { intros s Hs. rewrite forallb_forall in *. intros x Hx.
    by apply Hs, andb_true_iff in Hx as [? _]. }
  destruct i as [domain target|text]; cbn [itemOk itemText].
  - intros [Hd Ht]%andb_true_iff. rewrite forallb_app. cbn [forallb].
    by rewrite (Hweaken _ Hd), Ht.
  - apply Hweaken.
Qed.

Lemma collapseEntries_items (first : ConfigItem) (more : list (char * ConfigItem)) :
  itemOk first = true →
  forallb (λ ci, separator ci.1 && itemOk ci.2) more = true →
  collapseEntries (configText first more)
  = filter (λ s, truthy s = true)
      (map trim (map itemText (first :: map snd more))).
Proof.
  intros Hfirst Hmore. unfold collapseEntries, splitSeparators, configText.
  pose proof (splitSeparatorsLoop_items (itemText first)
                (map (λ ci, (ci.1, itemText ci.2)) more) [] false) as Hsplit.
  rewrite flat_map_concat_map, map_map in Hsplit. cbn [fst snd] in Hsplit.
  rewrite <- flat_map_concat_map in Hsplit.
  rewrite Hsplit; [|by apply itemOk_plain| |done].
  - cbn [app map]. by rewrite !map_map.
  - clear -Hmore. induction more as [|[c i] more IH]; [done|].
    cbn [forallb map fst snd] in *.
    apply andb_true_iff in Hmore as [[Hc Hi]%andb_true_iff Hmore].
    by rewrite Hc, (itemOk_plain i Hi), IH.
Qed.

Lemma notin_noEquals (s : jsstring) :
  forallb (λ c, negb (separator c) && negb (c =? ch "=")) s = true → ch "=" ∉ s.
Proof.
  intros Hs. apply notin_Forall. apply forallb_Forall_iff in Hs.
  eapply Forall_impl; [done|]. intros c Hc.
  apply andb_true_iff in Hc as [_ Hc]. by apply negb_true_iff, N.eqb_neq in Hc.
Qed.

(** What the loop body makes of an item. *)
Lemma collapseEntry_item (m : gmap jsstring jsstring) (i : ConfigItem) :
  itemOk i = true →
  (if truthy (trim (itemText i)) then collapseEntry m (trim (itemText i)) else m)
  = loadItem m i.
Proof.
  destruct i as [domain target|text]; cbn [itemOk itemText loadItem].
  - intros [Hd%notin_noEquals _]%andb_true_iff.
    rewrite trim_around by done. unfold collapseEntry.
    assert (ch "=" ∉ trimStart domain) as Hstart.
    { intros Hin. apply Hd. destruct (trimStart_split domain) as (blank & _ & ->).
      apply elem_of_app. by right. }
    assert (truthy (trimStart domain ++ ch "=" :: trimEnd target) = true) as ->
      by by destruct (trimStart domain).
    rewrite indexOf_app by done. rewrite take_app_length.
    replace (length (trimStart domain) + 1)%nat
      with (length (trimStart domain ++ [ch "="]))
      by (rewrite length_app; simpl; lia).
    rewrite (cons_middle (ch "=") (trimStart domain) (trimEnd target)).
    rewrite (assoc_L (++) (trimStart domain) [ch "="] (trimEnd target)).
    rewrite drop_app_length.
    rewrite trim_trimStart, trim_trimEnd. unfold setProperty.
    destruct (truthy (toLowerCase (trim domain))), (truthy (trim target));
      cbn [andb negb]; try done.
    by case_bool_decide.
  - intros Ht%notin_noEquals.
    destruct (truthy (trim text)); [|done].
    apply collapseEntry_malformed. by apply notin_trim.
Qed.

Lemma fold_collapseEntry_items (items : list ConfigItem)
  (m : gmap jsstring jsstring) :
  forallb itemOk items = true →
  fold_left collapseEntry
    (filter (λ s, truthy s = true) (map trim (map itemText items))) m
  = fold_left loadItem items m.
Proof.
  revert m. induction items as [|i items IH]; intros m Hitems; [done|].
  cbn [forallb] in Hitems. apply andb_true_iff in Hitems as [Hi Hitems].
  cbn [map fold_left]. rewrite <- (collapseEntry_item m i Hi).
  rewrite filter_cons. case_decide as Ht.
  - rewrite Ht. cbn [fold_left]. by apply IH.
  - apply not_true_is_false in Ht. rewrite Ht. by apply IH.
Qed.

Lemma parseDomainCollapseMap_items (first : ConfigItem)
  (more : list (char * ConfigItem)) :
  itemOk first = true →
  forallb (λ ci, separator ci.1 && itemOk ci.2) more = true →
  parseDomainCollapseMap (configText first more)
  = fold_left loadItem (first :: map snd more) ∅.
Proof.
  intros Hfirst Hmore. unfold parseDomainCollapseMap.
  rewrite collapseEntries_items by done.
  apply fold_collapseEntry_items. cbn [forallb]. rewrite Hfirst. cbn [andb].
  clear -Hmore. induction more as [|[c i] more IH]; [done|].
  cbn [forallb map fst snd] in *.
  apply andb_true_iff in Hmore as [[_ Hi]%andb_true_iff Hmore].
  by rewrite Hi, IH.
Qed.

Lemma loadItem_malformed (items : list ConfigItem) (m : gmap jsstring jsstring) :
  forallb isMalformed items = true → fold_left loadItem items m = m.
Proof.
  induction items as [|i items IH]; [done|]. cbn [forallb].
  intros [Hi Hitems]%andb_true_iff. destruct i; [done|]. cbn [fold_left loadItem].
  by apply IH.
Qed.

Lemma DomainCollapseProcessor_empty_map (context : EmailPipelineContext)
  (config : jsstring) :
  orDefault (DOMAIN_COLLAPSE_MAPPING (env context)) [] = config →
  parseDomainCollapseMap config = ∅ →
  DomainCollapseProcessor_process context = (continue, context).
Proof.
  intros Hconfig Hmap. unfold DomainCollapseProcessor_process.
  destruct (parsedEmail context); [|done]. rewrite Hconfig.
  destruct (truthy (trim config)); [|done]. cbn [negb].
  by rewrite Hmap, map_size_empty, bool_decide_true.
Qed.

(** Every string is a configuration text: a first item and further items
    behind single separators. *)
Lemma configText_total (config : jsstring) :
  ∃ first more,
    config = configText first more
    ∧ itemOk first = true
    ∧ forallb (λ ci, separator ci.1 && itemOk ci.2) more = true.
Proof.
  induction config as [|c t (first & more & -> & Hfirst & Hmore)].
  - by exists (malformedItem []), [].
  - destruct (separator c) eqn:Hsep.
    { exists (malformedItem []), ((c, first) :: more).
      split; [done|]. split; [done|]. cbn [forallb fst snd].
      by rewrite Hsep, Hfirst, Hmore. }
    destruct (N.eqb_spec c (ch "=")) as [->|Hc].
    { exists (entryItem [] (itemText first)), more.
      split; [done|]. split; [|done]. cbn [itemOk forallb andb].
      by apply itemOk_plain. }
    apply N.eqb_neq in Hc.
    destruct first as [domain target|text].
    + exists (entryItem (c :: domain) target), more.
      split; [done|]. split; [|done]. cbn [itemOk forallb] in *.
      by rewrite Hsep, Hc.
    + exists (malformedItem (c :: text)), more.
      split; [done|]. split; [|done]. cbn [itemOk forallb] in *.
      by rewrite Hsep, Hc.
Qed.

(** C9.  A configuration string is read item by item, the items being the
    texts between its separators (commas and semicolons).  An item without
    an equals sign is skipped.  An item [domain=target] sets, under the key
    that is the trimmed domain in lower case, the trimmed target (unless
    key or target is empty, or the key is the one name a plain object
    refuses); later items override earlier ones.  When every item lacks
    the equals sign, and so for the empty string, and when no
    configuration is given at all, the stage lets the run continue and
    leaves the context as it is. *)
Theorem domain_collapse_configuration (first : ConfigItem)
  (more : list (char * ConfigItem)) :
  itemOk first = true →
  forallb (λ ci, separator ci.1 && itemOk ci.2) more = true →
  let config := configText first more in
  let items := first :: map snd more in
  parseDomainCollapseMap config = fold_left loadItem items ∅
  ∧ (forallb isMalformed items = true →
     ∀ context : EmailPipelineContext,
       DOMAIN_COLLAPSE_MAPPING (env context) = Some config
       ∨ DOMAIN_COLLAPSE_MAPPING (env context) = None ∧ config = [] →
       DomainCollapseProcessor_process context = (continue, context)).
Proof.
  intros Hfirst Hmore config items. split.
  - by apply parseDomainCollapseMap_items.
  - intros Hitems context Hconfig.
    apply (DomainCollapseProcessor_empty_map context config).
    + destruct Hconfig as [-> | [-> ->]]; [|done].
      unfold orDefault. by destruct config.
    + subst config. rewrite parseDomainCollapseMap_items by done.
      by apply loadItem_malformed.
Qed.

(** ** The matcher on the patterns of [validateResponse] *)

Lemma canon_sameLetter (x c : char) :
  (canon true x =? canon true c) = sameLetter c x.
Proof.
  unfold sameLetter, canon, lowerChar, isLower, isUpper. cbn [andb].
  destruct (N.leb_spec 97 x), (N.leb_spec x 122), (N.leb_spec 97 c),
    (N.leb_spec c 122), (N.leb_spec 65 x), (N.leb_spec x 90),
    (N.leb_spec 65 c), (N.leb_spec c 90); cbn [andb]; try lia;
    repeat match goal with
           | |- context [?a =? ?b] => destruct (N.eqb_spec a b)
           end; try done; lia.
Qed.

Lemma rmatch_lit (lit : jsstring) (k : mstate → option mstate) (p : nat)
  (s : jsstring) (cs : gmap nat jsstring) :
  rmatch true (RLit lit) k (MState p s cs)
  = match spec_after lit s with
    | Some s' => k (MState (p + length lit) s' cs)
    | None => None
    end.
Proof.
  revert p s. induction lit as [|c lit IH]; intros p s.
  - cbn. by rewrite Nat.add_0_r.
  - destruct lit as [|c' lit'].
    + destruct s as [|x t]; [done|].
      cbn [RLit rmatch step1 rest pos caps spec_after length].
      rewrite canon_sameLetter.
      destruct (sameLetter c x); [|done]. by rewrite Nat.add_1_r.
    + change (RLit (c :: c' :: lit')) with (RSeq (RChar c) (RLit (c' :: lit'))).
      rewrite rmatch_seq. destruct s as [|x t]; [done|].
      cbn [rmatch step1 rest pos caps]. rewrite canon_sameLetter.
      change (spec_after (c :: c' :: lit') (x :: t))
        with (if sameLetter c x then spec_after (c' :: lit') t else None).
      destruct (sameLetter c x); [|done].
      rewrite IH. destruct (spec_after (c' :: lit') t); [|done].
      cbn [length]. by rewrite !Nat.add_succ_r.
Qed.

Lemma sameLetter_cases (c x : char) :
  sameLetter c x = true → x = c ∨ x = c + 32 ∨ c = x + 32.
Proof.
  unfold sameLetter, lowerChar. intros H%N.eqb_eq.
  destruct (isUpper c), (isUpper x); lia.
Qed.

Lemma leading_behind (p : char → bool) (s : jsstring) :
  leading p s ++ behind p s = s.
Proof.
  induction s as [|c t IH]; [done|]. cbn [leading behind].
  destruct (p c); [|done]. cbn [app]. by rewrite IH.
Qed.

Lemma leading_class (p : char → bool) (s : jsstring) :
  forallb p (leading p s) = true.
Proof.
  induction s as [|c t IH]; [done|]. cbn [leading].
  destruct (p c) eqn:Hc; [|done]. cbn [forallb]. by rewrite Hc, IH.
Qed.

Lemma take_leading (p : char → bool) (s : jsstring) :
  take (length (leading p s)) s = leading p s.
Proof.
  rewrite <- (leading_behind p s) at 2. by rewrite take_app_length.
Qed.

Lemma behind_trimStart (s : jsstring) : behind isWhiteSpace s = trimStart s.
Proof.
  induction s as [|c t IH]; [done|]. cbn [behind trimStart]. by rewrite IH.
Qed.

(** A starred class before a continuation that refuses the class takes
    the whole run. *)
Lemma greedy_refused (p : char → bool) (k : mstate → option mstate)
  (pos : nat) (s : jsstring) (cs : gmap nat jsstring) :
  refuses p k →
  greedy p k pos s cs
  = k (MState (pos + length (leading p s)) (behind p s) cs).
Proof.
  intros Hk. revert pos. induction s as [|x t IH]; intros pos.
  - cbn. by rewrite Nat.add_0_r.
  - cbn [greedy leading behind]. destruct (p x) eqn:Hx.
    + rewrite IH. cbn [length]. rewrite Nat.add_succ_r. cbn [Nat.add].
      destruct (k (MState (S (pos + length (leading p t))) (behind p t) cs));
        [done|]. by apply Hk.
    + cbn [length]. by rewrite Nat.add_0_r.
Qed.

Lemma rmatch_ws (ic : bool) (k : mstate → option mstate) (p : nat)
  (s : jsstring) (cs : gmap nat jsstring) :
  refuses isWhiteSpace k →
  rmatch ic ws k (MState p s cs)
  = k (MState (p + length (leading isWhiteSpace s)) (trimStart s) cs).
Proof.
  intros Hk. unfold ws. rewrite rmatch_star_class. cbn [pos rest caps].
  by rewrite greedy_refused, behind_trimStart.
Qed.

Lemma refuses_lit (p : char → bool) (lit : jsstring)
  (k : mstate → option mstate) :
  (∀ x t, p x = true → spec_after lit (x :: t) = None) →
  refuses p (rmatch true (RLit lit) k).
Proof. intros Hlit q x t cs Hx. by rewrite rmatch_lit, Hlit. Qed.

Lemma white_after_angle (lit : jsstring) (x : char) (t : jsstring) :
  isWhiteSpace x = true → spec_after (ch "<" :: lit) (x :: t) = None.
Proof.
  intros Hx. cbn [spec_after].
  destruct (sameLetter (ch "<") x) eqn:E; [|done].
  apply sameLetter_cases in E as [-> | [-> | E]]; [by vm_compute in Hx..|].
  assert (x = 28) as -> by (change (ch "<") with 60 in E; lia).
  by vm_compute in Hx.
Qed.

Lemma white_after_f (lit : jsstring) (x : char) (t : jsstring) :
  isWhiteSpace x = true → spec_after (ch "f" :: lit) (x :: t) = None.
Proof.
  intros Hx. cbn [spec_after].
  destruct (sameLetter (ch "f") x) eqn:E; [|done].
  apply sameLetter_cases in E as [-> | [-> | E]]; [by vm_compute in Hx..|].
  assert (x = 70) as -> by (change (ch "f") with 102 in E; lia).
  by vm_compute in Hx.
Qed.

Lemma digit_after_angle (lit : jsstring) (x : char) (t : jsstring) :
  isDigit x = true → spec_after (ch "<" :: lit) (x :: t) = None.
Proof.
  intros Hx. cbn [spec_after].
  destruct (sameLetter (ch "<") x) eqn:E; [|done].
  apply sameLetter_cases in E as [-> | [-> | E]]; [by vm_compute in Hx..|].
  assert (x = 28) as -> by (change (ch "<") with 60 in E; lia).
  by vm_compute in Hx.
Qed.

Lemma digit_not_white (x : char) : isDigit x = true → isWhiteSpace x = false.
Proof.
  unfold isDigit. intros [H1%N.leb_le H2%N.leb_le]%andb_true_iff.
  unfold isWhiteSpace. settle_tests. done.
Qed.

Lemma white_not_digit (x : char) : isWhiteSpace x = true → isDigit x = false.
Proof.
  intros Hx. destruct (isDigit x) eqn:Hd; [|done].
  apply digit_not_white in Hd. congruence.
Qed.

(** White space and then a tag: the white space is skipped. *)
Lemma rmatch_ws_lit (lit : jsstring) (k : mstate → option mstate)
  (p : nat) (s : jsstring) (cs : gmap nat jsstring) :
  (∀ x t, isWhiteSpace x = true → spec_after lit (x :: t) = None) →
  rmatch true ws (rmatch true (RLit lit) k) (MState p s cs)
  = match spec_after lit (trimStart s) with
    | Some s' =>
        k (MState (p + length (leading isWhiteSpace s) + length lit) s' cs)
    | None => None
    end.
Proof.
  intros Hlit. rewrite rmatch_ws by by apply refuses_lit.
  by rewrite rmatch_lit.
Qed.

Lemma refuses_ws_lit (p : char → bool) (lit : jsstring)
  (k : mstate → option mstate) :
  (∀ x t, isWhiteSpace x = true → spec_after lit (x :: t) = None) →
  (∀ x, p x = true → isWhiteSpace x = false) →
  (∀ x t, p x = true → spec_after lit (x :: t) = None) →
  refuses p (rmatch true ws (rmatch true (RLit lit) k)).
Proof.
  intros Hws Hp Hlit q x t cs Hx. rewrite rmatch_ws_lit by done.
  cbn [trimStart]. by rewrite (Hp x Hx), Hlit.
Qed.

(** The captured run of digits. *)
Lemma rmatch_digits (ic : bool) (k : mstate → option mstate) (p : nat)
  (s : jsstring) (cs : gmap nat jsstring) :
  refuses isDigit k →
  rmatch ic (RGroup 1 (RPlus (RClass isDigit))) k (MState p s cs)
  = if truthy (leading isDigit s)
    then k (MState (p + length (leading isDigit s)) (behind isDigit s)
              (<[1%nat := leading isDigit s]> cs))
    else None.
Proof.
  intros Hk. rewrite rmatch_group. destruct s as [|x t]; [done|].
  rewrite rmatch_plus_class. cbn [leading behind pos rest caps].
  destruct (isDigit x) eqn:Hx; [|done]. cbn [truthy].
  rewrite greedy_refused.
  2:{ intros q y u cs' Hy. cbn [pos rest caps]. by apply Hk. }
  cbn [pos rest caps length].
  replace (S p + length (leading isDigit t) - p)%nat
    with (S (length (leading isDigit t))) by lia.
  cbn [take]. rewrite take_leading. by rewrite Nat.add_succ_r.
Qed.

Lemma rmatch_digit (ic : bool) (k : mstate → option mstate) (p : nat)
  (s : jsstring) (cs : gmap nat jsstring) :
  rmatch ic (RGroup 1 (RClass isDigit)) k (MState p s cs)
  = match s with
    | x :: t => if isDigit x then k (MState (S p) t (<[1%nat := [x]]> cs)) else None
    | [] => None
    end.
Proof.
  rewrite rmatch_group. destruct s as [|x t]; [done|].
  cbn [rmatch step1 pos rest caps]. destruct (isDigit x); [|done].
  by replace (S p - p)%nat with 1%nat by lia.
Qed.

Lemma rmatch_lazy_any (ic : bool) (k : mstate → option mstate) (s : mstate) :
  rmatch ic (RStarLazy (RClass anyChar)) k s
  = lazy k (pos s) (rest s) (caps s).
Proof.
  cbn [rmatch].
  remember (length (rest s)) as fuel eqn:E.
  assert (length (rest s) ≤ fuel)%nat as Hfuel by lia. clear E.
  revert s Hfuel. induction fuel as [|fuel IH]; intros [ps rs cs] Hfuel;
    cbn [pos rest caps] in *.
  - destruct rs; [|simpl in Hfuel; lia]. cbn [lazy].
    by destruct (k (MState ps [] cs)).
  - destruct rs as [|x t]; cbn [lazy step1 rest pos caps].
    + by destruct (k (MState ps [] cs)).
    + destruct (k (MState ps (x :: t) cs)); [done|]. unfold anyChar.
      cbn [rest length]. rewrite decide_True by lia.
      by rewrite IH by (simpl in *; lia).
Qed.

(** The integer pattern at one place. *)
Lemma intRegex_at (p : nat) (s : jsstring) :
  group 1 <$> rmatch true intRegex Some (MState p s ∅) = spec_intAt s.
Proof.
  unfold intRegex, spec_intAt. cbn [RSeqs]. rewrite rmatch_seq, rmatch_lit.
  destruct (spec_after (js "<int>") s) as [s1|]; [|done].
  cbn [mbind option_bind]. rewrite rmatch_seq, rmatch_ws.
  2:{ intros q x t cs Hx. rewrite rmatch_seq, rmatch_group.
      unfold RPlus. rewrite rmatch_seq. cbn [rmatch step1 rest pos caps].
      by rewrite (white_not_digit x Hx). }
  rewrite rmatch_seq, rmatch_digits.
  2:{ intros q x t cs Hx. rewrite rmatch_seq.
      apply (refuses_ws_lit isDigit (js "</int>") Some); [| |  |done].
      - apply (white_after_angle (js "/int>")).
      - apply digit_not_white.
      - apply (digit_after_angle (js "/int>")). }
  destruct (truthy (leading isDigit (trimStart s1))); [|done].
  rewrite rmatch_seq, rmatch_ws_lit by apply (white_after_angle (js "/int>")).
  destruct (spec_after (js "</int>") _); [|done].
  cbn [fmap option_fmap option_map mbind option_bind]. unfold group. cbn [caps].
  by rewrite lookup_insert_eq.
Qed.

(** The boolean pattern at one place. *)
Lemma booleanRegex_at (p : nat) (s : jsstring) :
  group 1 <$> rmatch true booleanRegex Some (MState p s ∅) = spec_booleanAt s.
Proof.
  unfold booleanRegex, spec_booleanAt. cbn [RSeqs]. rewrite rmatch_seq, rmatch_lit.
  destruct (spec_after (js "<boolean>") s) as [s1|]; [|done].
  cbn [mbind option_bind]. rewrite rmatch_seq, rmatch_ws.
  2:{ intros q x t cs Hx. rewrite rmatch_seq, rmatch_digit.
      by rewrite (white_not_digit x Hx). }
  rewrite rmatch_seq, rmatch_digit.
  destruct (trimStart s1) as [|d s2]; [done|].
  destruct (isDigit d); [|done].
  rewrite rmatch_seq, rmatch_ws_lit by apply (white_after_angle (js "/boolean>")).
  destruct (spec_after (js "</boolean>") _); [|done].
  cbn [fmap option_fmap option_map mbind option_bind]. unfold group. cbn [caps].
  by rewrite lookup_insert_eq.
Qed.

Lemma spec_payload_unfold (s : jsstring) :
  spec_payload s
  = match spec_after (js "</string>") (trimStart s) with
    | Some _ => Some []
    | None =>
        match s with
        | c :: t => cons c <$> spec_payload t
        | [] => None
        end
    end.
Proof. by destruct s. Qed.

(** White space before a payload does not make one appear. *)
Lemma spec_payload_blank (w r : jsstring) :
  forallb isWhiteSpace w = true →
  spec_payload r = None → spec_payload (w ++ r) = None.
Proof.
  intros Hw Hr. induction w as [|c w IH]; [done|].
  cbn [forallb] in Hw. apply andb_true_iff in Hw as [Hc Hw].
  rewrite spec_payload_unfold.
  assert (trimStart ((c :: w) ++ r) = trimStart r) as ->.
  { apply trimStart_blank. cbn [forallb]. by rewrite Hc, Hw. }
  rewrite spec_payload_unfold in Hr.
  destruct (spec_after (js "</string>") (trimStart r)); [done|].
  cbn [app]. by rewrite IH.
Qed.

(** The lazily captured payload before the closing tag. *)
Lemma lazy_payload (whole : jsstring) (p0 : nat) (cs : gmap nat jsstring)
  (s pre : jsstring) :
  whole = pre ++ s →
  group 1
    <$> lazy (λ s', rmatch true ws (rmatch true (RLit (js "</string>")) Some)
                      (MState (pos s') (rest s')
                         (<[1%nat := take (pos s' - p0) whole]> (caps s'))))
          (p0 + length pre) s cs
  = app pre <$> spec_payload s.
Proof.
  revert pre. induction s as [|x t IH]; intros pre ->.
  - cbn [lazy pos rest caps].
    rewrite rmatch_ws_lit by apply (white_after_angle (js "/string>")).
    by rewrite spec_payload_unfold.
  - cbn [lazy pos rest caps].
    rewrite rmatch_ws_lit by apply (white_after_angle (js "/string>")).
    rewrite (spec_payload_unfold (x :: t)).
    destruct (spec_after (js "</string>") (trimStart (x :: t))).
    + cbn [fmap option_fmap option_map]. unfold group. cbn [caps].
      rewrite lookup_insert_eq. cbn [default from_option id].
      replace (p0 + length pre - p0)%nat with (length pre) by lia.
      by rewrite take_app_length, app_nil_r.
    + specialize (IH (pre ++ [x])). rewrite <- (assoc_L (++)) in IH.
      rewrite length_app, Nat.add_assoc, Nat.add_1_r in IH.
      rewrite IH by done. destruct (spec_payload t); [|done].
      cbn [fmap option_fmap option_map]. by rewrite <- (assoc_L (++)).
Qed.

Lemma payload_at (q : nat) (r : jsstring) (cs : gmap nat jsstring) :
  group 1
    <$> rmatch true (RGroup 1 (RStarLazy (RClass anyChar)))
          (rmatch true ws (rmatch true (RLit (js "</string>")) Some))
          (MState q r cs)
  = spec_payload r.
Proof.
  rewrite rmatch_group, rmatch_lazy_any. cbn [pos rest caps].
  pose proof (lazy_payload r q cs r [] eq_refl) as Hlazy.
  cbn [length] in Hlazy. rewrite Nat.add_0_r in Hlazy. rewrite Hlazy.
  by destruct (spec_payload r).
Qed.

(** A starred class before a continuation that may give characters back:
    the answer is the one after the whole run, provided that no answer
    after the whole run means no answer after a part of it. *)
Lemma greedy_monotone {A : Type} (g : mstate → A) (F : jsstring → option A)
  (p : char → bool) (k : mstate → option mstate) (cs : gmap nat jsstring) :
  (∀ q r, g <$> k (MState q r cs) = F r) →
  (∀ w r, forallb p w = true → F r = None → F (w ++ r) = None) →
  ∀ s q, g <$> greedy p k q s cs = F (behind p s).
Proof.
  intros Hk HF. induction s as [|x t IH]; intros q.
  - cbn [greedy behind]. apply Hk.
  - cbn [greedy behind]. destruct (p x) eqn:Hx; [|apply Hk].
    specialize (IH (S q)).
    destruct (greedy p k (S q) t cs) as [m|]; [done|].
    rewrite Hk. cbn [fmap option_fmap option_map] in IH. rewrite <- IH.
    rewrite <- (leading_behind p t).
    apply (HF (x :: leading p t)); [|done].
    cbn [forallb]. by rewrite Hx, leading_class.
Qed.

(** The fault pattern at one place. *)
Lemma faultStringRegex_at (p : nat) (s : jsstring) :
  group 1 <$> rmatch true faultStringRegex Some (MState p s ∅) = spec_faultAt s.
Proof.
  unfold faultStringRegex, spec_faultAt. cbn [RSeqs].
  repeat change (rmatch ?ic (RSeq ?a ?b) ?k)
    with (rmatch ic a (rmatch ic b k)).
  rewrite rmatch_lit.
  destruct (spec_after (js "<name>") s) as [s1|]; [|done].
  cbn [mbind option_bind].
  rewrite rmatch_ws_lit by apply (white_after_f (js "aultString")).
  destruct (spec_after (js "faultString") (trimStart s1)) as [s2|]; [|done].
  cbn [mbind option_bind].
  rewrite rmatch_ws_lit by apply (white_after_angle (js "/name>")).
  destruct (spec_after (js "</name>") (trimStart s2)) as [s3|]; [|done].
  cbn [mbind option_bind].
  rewrite rmatch_ws_lit by apply (white_after_angle (js "value>")).
  destruct (spec_after (js "<value>") (trimStart s3)) as [s4|]; [|done].
  cbn [mbind option_bind].
  rewrite rmatch_ws_lit by apply (white_after_angle (js "string>")).
  destruct (spec_after (js "<string>") (trimStart s4)) as [s5|]; [|done].
  cbn [mbind option_bind].
  unfold ws at 1. rewrite rmatch_star_class. cbn [pos rest caps].
  rewrite <- behind_trimStart.
  apply (greedy_monotone (group 1) spec_payload).
  - intros q r. apply payload_at.
  - apply spec_payload_blank.
Qed.

(** The search finds what the pattern finds at the leftmost place. *)
Lemma searchFrom_first (r : regex) (F : jsstring → option jsstring) :
  (∀ p s, group 1 <$> rmatch true r Some (MState p s ∅) = F s) →
  ∀ s p, group 1 <$> searchFrom true r p s = spec_first F s.
Proof.
  intros Hat. induction s as [|x t IH]; intros p.
  - cbn [searchFrom spec_first]. rewrite <- (Hat p []).
    by destruct (rmatch true r Some _).
  - cbn [searchFrom spec_first]. rewrite <- (Hat p (x :: t)).
    destruct (rmatch true r Some _); [done|]. apply IH.
Qed.

Lemma spec_intAt_digits (s digits : jsstring) :
  spec_intAt s = Some digits → forallb isDigit digits = true.
Proof.
  unfold spec_intAt.
  destruct (spec_after (js "<int>") s) as [s1|]; [|done].
  cbn [mbind option_bind]. destruct (truthy _); [|done].
  destruct (spec_after (js "</int>") _); [|done].
  cbn [mbind option_bind]. intros [= <-]. apply leading_class.
Qed.

Lemma spec_first_intAt_digits (data digits : jsstring) :
  spec_first spec_intAt data = Some digits → forallb isDigit digits = true.
Proof.
  induction data as [|x t IH]; cbn [spec_first].
  - destruct (spec_intAt []) as [d|] eqn:E; [|done]. intros [= <-].
    by apply (spec_intAt_digits []).
  - destruct (spec_intAt (x :: t)) as [d|] eqn:E; [|apply IH]. intros [= <-].
    by apply (spec_intAt_digits (x :: t)).
Qed.

(** A run of digits reads as a positive number exactly when one of the
    digits is not 0. *)
Lemma parseInt_positive (digits : jsstring) :
  forallb isDigit digits = true → (0 <? parseInt digits) = spec_positive digits.
Proof.
  unfold parseInt, spec_positive. intros Hdigits.
  assert (∀ acc, (0 <? fold_left (λ acc d, 10 * acc + (d - 48)) digits acc)
                 = (0 <? acc) || existsb (λ d, negb (d =? ch "0")) digits) as H.
  { induction digits as [|d t IH]; intros acc.
    - cbn. by rewrite orb_false_r.
    - cbn [forallb] in Hdigits. apply andb_true_iff in Hdigits as [Hd Ht].
      cbn [fold_left existsb]. rewrite IH by done. rewrite orb_assoc. f_equal.
      unfold isDigit in Hd. apply andb_true_iff in Hd as [H1%N.leb_le _].
      change (ch "0") with 48.
      destruct (N.ltb_spec 0 acc), (N.eqb_spec d 48),
        (N.ltb_spec 0 (10 * acc + (d - 48))); cbn; try done; lia. }
  by rewrite H.
Qed.



(** ** Domain collapse *)

(** The address pattern as a scan. *)

Lemma behind_head (p : char → bool) (s : jsstring) (g : char)
  (after : jsstring) :
  behind p s = g :: after → p g = false.
Proof.
  induction s as [|c t IH]; [done|]. cbn [behind].
  destruct (p c) eqn:Hc; [done|]. by intros [= <- _].
Qed.

(** The pattern from its opening bracket on. *)
Lemma bracket_here (p : nat) (r : jsstring) (cs : gmap nat jsstring) :
  caps <$> rmatch false
             (RSeq (RChar (ch "<"))
                (RSeq (RGroup 2 (RPlus (RClass (notChar (ch ">")))))
                   (RSeq (RChar (ch ">")) (RSeq (RStar (RClass dot)) REol))))
             Some (MState p r cs)
  = (λ inside, <[2%nat := inside]> cs) <$> spec_bracket r.
Proof.
  rewrite rmatch_seq. destruct r as [|c t]; [done|].
  rewrite rmatch_char. cbn [spec_bracket].
  destruct (c =? ch "<"); cbn [andb].
  2:{ by destruct (behind _ t). }
  rewrite rmatch_seq, rmatch_group. destruct t as [|x u]; [done|].
  rewrite rmatch_plus_class. cbn [leading behind pos rest caps].
  destruct (notChar (ch ">") x) eqn:Hx; [|done].
  rewrite greedy_refused.
  2:{ intros q y v cs' Hy. cbn [pos rest caps]. rewrite rmatch_seq, rmatch_char.
      unfold notChar in Hy. apply negb_true_iff in Hy. by rewrite Hy. }
  cbn [pos rest caps truthy andb].
  destruct (behind (notChar (ch ">")) u) as [|g after] eqn:Hbehind; [done|].
  apply behind_head in Hbehind. unfold notChar in Hbehind.
  apply negb_false_iff in Hbehind.
  rewrite rmatch_seq, rmatch_char, Hbehind, rmatch_seq, rmatch_star_class.
  cbn [pos rest caps]. rewrite greedy_eol.
  destruct (forallb dot after); [|done]. cbn [fmap option_fmap option_map caps].
  do 2 f_equal.
  replace (S (S p) + length (leading (notChar (ch ">")) u) - S p)%nat
    with (S (length (leading (notChar (ch ">")) u))) by lia.
  cbn [take]. by rewrite take_leading.
Qed.

(** The greedy run before the opening bracket: the last bracket pair
    wins. *)
Lemma angle_greedy (s pre r : jsstring) :
  s = pre ++ r →
  caps <$> greedy dot
             (λ s', rmatch false
                      (RSeq (RChar (ch "<"))
                         (RSeq (RGroup 2 (RPlus (RClass (notChar (ch ">")))))
                            (RSeq (RChar (ch ">"))
                               (RSeq (RStar (RClass dot)) REol))))
                      Some
                      (MState (pos s') (rest s')
                         (<[1%nat := take (pos s' - 0) s]> (caps s'))))
             (length pre) r ∅
  = (λ found, <[2%nat := found.2]> (<[1%nat := pre ++ found.1]> ∅))
      <$> spec_angle r.
Proof.
  intros ->. revert pre. induction r as [|c t IH]; intros pre.
  - cbn [greedy pos rest caps]. by rewrite bracket_here.
  - assert (caps <$> rmatch false
                       (RSeq (RChar (ch "<"))
                          (RSeq (RGroup 2 (RPlus (RClass (notChar (ch ">")))))
                             (RSeq (RChar (ch ">"))
                                (RSeq (RStar (RClass dot)) REol))))
                       Some
                       (MState (length pre) (c :: t)
                          (<[1%nat := take (length pre - 0) (pre ++ c :: t)]> ∅))
            = (λ found, <[2%nat := found.2]> (<[1%nat := pre ++ found.1]> ∅))
                <$> ((λ inside, ([], inside)) <$> spec_bracket (c :: t)))
      as Hhere.
    { rewrite bracket_here, Nat.sub_0_r, take_app_length.
      destruct (spec_bracket (c :: t)); [|done].
      cbn [fmap option_fmap option_map fst snd]. by rewrite app_nil_r. }
    specialize (IH (pre ++ [c])).
    rewrite <- (assoc_L (++)), length_app, Nat.add_1_r in IH. cbn [app] in IH.
    cbn [greedy spec_angle pos rest caps]. destruct (dot c); [|exact Hhere].
    destruct (greedy dot _ (S (length pre)) t ∅) as [m|].
    + destruct (spec_angle t) as [[before inside]|]; [|done].
      cbn [fmap option_fmap option_map fst snd] in *.
      rewrite <- (assoc_L (++)) in IH. exact IH.
    + destruct (spec_angle t) as [[before inside]|]; [done|]. exact Hhere.
Qed.

Lemma angleRegex_spec (s : jsstring) :
  (λ m, (group 1 m, group 2 m)) <$> exec false angleRegex s = spec_angle s.
Proof.
  unfold angleRegex.
  rewrite exec_anchored, rmatch_seq, rmatch_group, rmatch_star_class.
  cbn [pos rest caps]. pose proof (angle_greedy s [] s eq_refl) as Hgreedy.
  cbn [length app] in Hgreedy.
  destruct (greedy dot _ 0 s ∅) as [m|];
    destruct (spec_angle s) as [[before inside]|]; try done.
  cbn [fmap option_fmap option_map fst snd] in *.
  injection Hgreedy as Hcaps. unfold group. rewrite Hcaps.
  by rewrite lookup_insert_ne, !lookup_insert_eq.
Qed.

Lemma endsWith_last (c : char) (n : jsstring) :
  endsWith [c] n = bool_decide (last n = Some c).
Proof.
  unfold endsWith. destruct n as [|x t] using rev_ind; [done|].
  rewrite rev_app_distr, last_snoc. cbn [rev app startsWith].
  rewrite andb_true_r.
  destruct (N.eqb_spec c x) as [->|Hx].
  - by rewrite bool_decide_true.
  - rewrite bool_decide_false; [done|]. intros [= ->]. done.
Qed.

Lemma stripQuotes_spec (n : jsstring) : stripQuotes n = spec_unquote n.
Proof.
  unfold stripQuotes, spec_unquote. rewrite !endsWith_last.
  destruct n as [|q t]; [done|]. cbn [startsWith]. rewrite !andb_true_r.
  change (slice_1_m1 (q :: t)) with (removelast t).
  rewrite (N.eqb_sym DQUOTE q), (N.eqb_sym SQUOTE q).
  destruct (N.eqb_spec q DQUOTE) as [->|Hd].
  - change (DQUOTE =? SQUOTE) with false. cbn [andb orb].
    by rewrite orb_false_r.
  - destruct (N.eqb_spec q SQUOTE) as [->|Hs]; done.
Qed.

Lemma parseAddress_spec (piece : jsstring) :
  parseAddress piece
  = {| displayName := (spec_parse piece).1; address := (spec_parse piece).2 |}.
Proof.
  unfold parseAddress, spec_parse. pose proof (angleRegex_spec piece) as Hangle.
  destruct (exec false angleRegex piece) as [m|];
    destruct (spec_angle piece) as [[before inside]|]; try done.
  cbn [fmap option_fmap option_map fst snd] in *.
  injection Hangle as -> ->. by rewrite stripQuotes_spec.
Qed.

Lemma domainOf_spec (mailbox : jsstring) : domainOf mailbox = spec_key mailbox.
Proof.
  unfold domainOf, spec_key, spec_domain.
  destruct (indexOf (ch "@") mailbox) as [i|] eqn:Hi.
  - apply indexOf_Some in Hi as [Hnotin Hs]. rewrite Hs at 1.
    rewrite split_app by done. cbn [lookup list_lookup].
    apply split_second.
  - apply indexOf_None in Hi. by rewrite split_none.
Qed.

Lemma collapseAddress_spec (domainMap : gmap jsstring jsstring)
  (piece : jsstring) :
  collapseAddress domainMap piece = spec_collapse domainMap piece.
Proof.
  unfold collapseAddress, spec_collapse. rewrite parseAddress_spec.
  cbn [address displayName].
  change (default [] (split (ch "@") (spec_parse piece).2 !! 1%nat))
    with (domainOf (spec_parse piece).2).
  rewrite domainOf_spec.
  change (lookupTarget domainMap) with (getProperty domainMap).
  by destruct (getProperty _ _).
Qed.

Lemma collapseHeader_collapsed (domainMap : gmap jsstring jsstring) (h : Header) :
  collapsedHeader domainMap h (collapseHeader domainMap h).
Proof.
  unfold collapsedHeader. split.
  - unfold collapseHeader. by case_bool_decide.
  - case_bool_decide as Hname.
    + split; [|split].
      * unfold collapseHeader. by rewrite bool_decide_true.
      * unfold collapseHeader. rewrite bool_decide_true by done. cbn [value].
        rewrite splitAddresses_spec. f_equal. apply map_ext.
        intros piece. apply collapseAddress_spec.
      * intros rs Hvalue Hrs Hlocal.
        by rewrite (collapseHeader_recipients domainMap h rs).
    + unfold collapseHeader. by rewrite bool_decide_false.
Qed.

Lemma collapsedHeader_listed (domainMap : gmap jsstring jsstring)
  (h h' : Header) (rs : list Recipient) :
  collapsedHeader domainMap h h' →
  toLowerCase (name h) ∈ [js "to"; js "cc"; js "bcc"] →
  value h = join (js ", ") (map written rs) →
  forallb wellFormed rs = true →
  forallb plainLocal rs = true →
  h' = {| raw := name h ++ js ": " ++ join (js ", ") (map (collapsed domainMap) rs);
          name := name h;
          value := join (js ", ") (map (collapsed domainMap) rs) |}.
Proof.
  intros [Hname Hh'] Hto Hvalue Hrs Hlocal.
  rewrite bool_decide_true in Hh' by done. destruct Hh' as (Hraw & _ & Hnew).
  specialize (Hnew rs Hvalue Hrs Hlocal). destruct h' as [r n v].
  cbn [raw name value] in *. by subst.
Qed.

Lemma Forall2_one {A B : Type} (R : A → B → Prop) (a : A) (l : list B) :
  Forall2 R [a] l → ∃ b, l = [b] ∧ R a b.
Proof.
  intros H. inversion H as [|? b ? l' Hab Hl']; subst.
  inversion Hl'; subst. by exists b.
Qed.



End CaseTable.

(** * Examples

    The statements above hold for every case table.  The examples below
    are Basic Latin text; they are run with the table that leaves every
    other code point as it is. *)

(** C4: the sender of the specification's example passes the spam
    check. *)
Lemma spam_quoted_name_passes_witness :
  SpamCheckProcessor_process identityTable
    (freshContext (messageWith quotedFrom (js "Hello")) noEnv)
  = continue.
Proof.
  destruct (spam_quoted_name_passes identityTable
              (freshContext (messageWith quotedFrom (js "Hello")) noEnv)
              eq_refl) as [-> _].
  vm_compute. reflexivity.
Defined.





(** C9: two entries, one of them with capitals and blanks, around a piece
    without an equals sign. *)
Lemma domain_collapse_configuration_witness :
  parseDomainCollapseMap identityTable
    (js "Example.ORG = sales@target.test; broken ,b.test=x@y.test")
  = <[js "b.test" := js "x@y.test"]>
      (<[js "example.org" := js "sales@target.test"]> ∅).
Proof.
  destruct (domain_collapse_configuration identityTable
              (entryItem (js "Example.ORG ") (js " sales@target.test"))
              [(ch ";", malformedItem (js " broken "));
               (ch ",", entryItem (js "b.test") (js "x@y.test"))]
              eq_refl eq_refl) as [Hmap _].
  exact Hmap.
Defined.

(** X3: a blocked mailbox behind a display name, in capitals. *)
Lemma spam_check_bracketed_sender_witness :
  SpamCheckProcessor_process identityTable
    (freshContext (messageWith (js "Any Name <Blocked@Example.COM>") (js "Hello")) noEnv)
  = reject (js "Sender is blocked.").
Proof.
  apply (spam_check_bracketed_sender identityTable
           (freshContext (messageWith (js "Any Name <Blocked@Example.COM>") (js "Hello")) noEnv)
           (js "Any Name ") (js "Blocked@Example.COM") []).
  - reflexivity.
  - apply (bool_decide_unpack _). by vm_compute.
  - reflexivity.
  - discriminate.
  - apply (bool_decide_unpack _). by vm_compute.
  - apply (bool_decide_unpack _). by vm_compute.
Defined.

(** X4: a bare Gmail address has no sender name. *)
Lemma spam_check_bare_sender_witness :
  SpamCheckProcessor_process identityTable
    (freshContext (messageWith (js "someone@gmail.com") (js "Hello")) noEnv)
  = reject (js "Sender name is missing.").
Proof.
  apply (spam_check_bare_sender identityTable
           (freshContext (messageWith (js "someone@gmail.com") (js "Hello")) noEnv)).
  apply (bool_decide_unpack _). by vm_compute.
Defined.

(** X5: a keyword in capitals in the middle of the subject. *)
Lemma spam_check_keyword_witness :
  canContinue
    (SpamCheckProcessor_process identityTable
       (freshContext
          (messageWith (js "Alice <alice@example.org>") (js "You are a WINNER today"))
          noEnv))
  = false.
Proof.
  apply (spam_check_keyword identityTable _ (js "You are a ") (js "WINNER") (js " today")).
  - reflexivity.
  - apply (bool_decide_unpack _). by vm_compute.
Defined.

(** X6: a quoted name with a comma, a name without quotes, a bare
    mailbox. *)
Lemma subaddressing_recipients_witness :
  processSubaddressing identityTable
    [mkHeader (js "From") (js "carol@example.com");
     mkHeader (js "TO")
       ([DQUOTE] ++ js "Smith, Bob" ++ [DQUOTE]
          ++ js " <bob+news@example.com>, Dave <dave@example.com>, erin+offers@example.com");
     mkHeader (js "Subject") (js "Hello")]
  = (js "news",
     [mkHeader (js "From") (js "carol@example.com");
      mkHeader (js "TO")
        ([DQUOTE] ++ js "Smith, Bob" ++ [DQUOTE]
           ++ js " <bob@example.com>, Dave <dave@example.com>, erin@example.com");
      mkHeader (js "Subject") (js "Hello")]).
Proof.
  apply (subaddressing_recipients identityTable
           (mkHeader (js "TO")
              ([DQUOTE] ++ js "Smith, Bob" ++ [DQUOTE]
                 ++ js " <bob+news@example.com>, Dave <dave@example.com>, erin+offers@example.com"))
           [ {| rName := js "Smith, Bob"; rQuoted := true; rLocal := js "bob";
                rTag := Some (js "news"); rDomain := js "example.com" |};
             {| rName := js "Dave"; rQuoted := false; rLocal := js "dave";
                rTag := None; rDomain := js "example.com" |};
             {| rName := []; rQuoted := false; rLocal := js "erin";
                rTag := Some (js "offers"); rDomain := js "example.com" |} ]
           [mkHeader (js "From") (js "carol@example.com")]
           [mkHeader (js "Subject") (js "Hello")]).
  - reflexivity.
  - reflexivity.
  - reflexivity.
  - repeat constructor; by vm_compute.
Defined.

(** X7: tagging a subject twice. *)
Lemma prependSubjectTag_idempotent_witness :
  prependSubjectTag identityTable
    (prependSubjectTag identityTable
       [mkHeader (js "Subject") (js "Hello")] (js "news")) (js "news")
  = [{| raw := js "Subject: [news] Hello"; name := js "Subject";
        value := js "[news] Hello" |}].
Proof.
  exact (proj1 (prependSubjectTag_idempotent identityTable
                  [mkHeader (js "Subject") (js "Hello")] (js "news") eq_refl)).
Defined.

(** X10: three entries, the first and the last for one domain. *)
Lemma parseDomainCollapseMap_entries_witness :
  parseDomainCollapseMap identityTable
    (js "Suppliers.Example=first@example.org, team.example=staff@example.org, suppliers.example=orders@example.org")
  = <[js "suppliers.example" := js "orders@example.org"]>
      (<[js "team.example" := js "staff@example.org"]>
         (<[js "suppliers.example" := js "first@example.org"]> ∅)).
Proof.
  apply (parseDomainCollapseMap_entries identityTable (ch ",") [SP]
           [(js "Suppliers.Example", js "first@example.org");
            (js "team.example", js "staff@example.org");
            (js "suppliers.example", js "orders@example.org")]);
    reflexivity.
Defined.


(** X22: the example message with a tagged recipient. *)
Lemma email_prepares_untagged_witness :
  finalRawEmail
    (finalContext
       (email identityTable (crmAnswering response200 []) taggedMessage noEnv))
  = Some (TextEncoder_encode
            (crlf [js "From: Alice <alice@example.org>";
                   js "To: bob@example.com";
                   js "Subject: [news] Hello"; []]
               ++ [CR; LF] ++ js "Hi Bob," ++ [LF] ++ js "bye.")).
Proof.
  apply (email_prepares_untagged identityTable
           (crmAnswering response200 []) taggedMessage noEnv
           [(js "From", js "Alice <alice@example.org>")]
           [(js "Subject", js "Hello")]
           (js "To")
           [ {| rName := []; rQuoted := false; rLocal := js "bob";
                rTag := Some (js "news"); rDomain := js "example.com" |} ]
           (js "Hi Bob," ++ [CR; LF] ++ js "bye.")).
  - by vm_compute.
  - reflexivity.
  - reflexivity.
  - reflexivity.
  - reflexivity.
  - repeat constructor; try (apply (bool_decide_unpack _); by vm_compute).
  - repeat constructor.
  - reflexivity.
  - repeat constructor; by vm_compute.
  - reflexivity.
Defined.
